(** * Figure composer of the 4D light field benchmark (paper_cvprw_2017.py)

    A shallow embedding of [evaluations/paper_cvprw_2017.py].  The module is
    sequential figure assembly over matplotlib's pyplot state machine: every
    call into [plt] or into the [plotting] helpers is recorded as an event of
    a log, data collaborators (scene loading, cached algorithm results,
    metrics) may raise, and the only hidden state that is threaded is the
    state of the random source drawn by [plotting.pixelize].

    Conventions.
    - Disparity values are floating point numbers in the source; they are
      modelled by exact rationals [Q] (no rounding).
    - The file is Python 2 code (an explicit [float(n_rows)] guards the one
      division meant to be real): [/] on integers is floor division.
    - Integers are [Z]; list positions are [Z] as in [enumerate].
    - [grid[k]] is recorded with the index [k] as computed; what a GridSpec
      does with an index outside [0, rows * cols) is matplotlib's business
      and is not modelled.
    - [plt.figure] and [plt.imshow] are recorded with the arguments they are
      handed.  Whether matplotlib accepts them is not modelled: recent
      versions refuse a figure size that is not positive and an array
      without pixels.  A run of the model stands for a run of the code as
      long as the figure sizes are positive and the drawn arrays hold a
      pixel; [pixels_nonempty] and [drawn] tell such runs apart, for
      [plot_discont_overview], whose window can miss the field.
    - [float(n)] is exact here; in the code it is exact up to [2 ^ 53] and
      raises [OverflowError] from about [2 ^ 1024] on.
    - Keyword arguments with defaults are explicit parameters. *)

From Stdlib Require Import String Ascii DecimalString Bool ZArith QArith Qabs Qround Lia List.
Import ListNotations.

Set Implicit Arguments.
Local Open Scope Z_scope.

(* ------------------------------------------------------------------ *)
(** ** Exceptions and results *)

Inductive exn : Type :=
| IndexError
| UnboundLocalError
| ValueError
| ZeroDivisionError
| CollaboratorError (what : string).

Definition result (A : Type) : Type := (exn + A)%type.

(* ------------------------------------------------------------------ *)
(** ** Python integers, slices and strings *)

Module Py.

  (** [a / b] on two Python 2 integers. *)
Definition floordiv (a b : Z) : result Z :=
    if b =? 0 then inl ZeroDivisionError else inr (a / b).

  (** [a % b] on two integers. *)
Definition mod_ (a b : Z) : result Z :=
    if b =? 0 then inl ZeroDivisionError else inr (a mod b).

  (** [int(np.ceil(a / float(b)))], with [float] and the division taken as
      exact: so they are while [a] and [b] stay below [2 ^ 53]. *)
Definition ceil_fdiv (a b : Z) : result Z :=
    if b =? 0 then inl ZeroDivisionError
    else inr (Qceiling (inject_Z a / inject_Z b)).

  (** Truthiness of an integer: [not n] is [n == 0]. *)
Definition not_ (n : Z) : bool := n =? 0.

  (** [int(b)] for a boolean. *)
Definition int_of_bool (b : bool) : Z := if b then 1 else 0.

  (** Normalisation of one bound of a slice over a sequence of length [n]. *)
Definition slice_bound (n i : Z) : Z :=
    if i <? 0 then Z.max 0 (i + n) else Z.min i n.

  (** [l[lo:hi]]. *)
Definition slice {A : Type} (lo hi : Z) (l : list A) : list A :=
    let n := Z.of_nat (length l) in
    let s := slice_bound n lo in
    let e := slice_bound n hi in
    firstn (Z.to_nat (e - s)) (skipn (Z.to_nat s) l).

  (** [l[0]]. *)
Definition head {A : Type} (l : list A) : result A :=
    match l with
    | [] => inl IndexError
    | x :: _ => inr x
    end.

Definition newline : string := String (ascii_of_nat 10) EmptyString.


End Py.

(* ------------------------------------------------------------------ *)
(** ** Two-dimensional numpy arrays *)

Module Np.

  (** An H x W field, row major.  A field without rows has shape (0, 0). *)
Definition grid2 (A : Type) : Type := list (list A).

Definition shape {A : Type} (a : grid2 A) : nat * nat :=
    (length a, length (hd [] a)).

Definition px {A : Type} (d : A) (a : grid2 A) (i j : nat) : A :=
    nth j (nth i a []) d.

Definition tabulate {A : Type} (n : nat) (f : nat -> A) : list A :=
    map f (seq 0 n).

  (** Broadcasting of one dimension. *)
Definition bdim (n m : nat) : option nat :=
    if Nat.eqb n m then Some n
    else if Nat.eqb n 1 then Some m
    else if Nat.eqb m 1 then Some n
    else None.

Definition bidx (n i : nat) : nat := if Nat.eqb n 1 then O else i.

  (** An element-wise binary operator with numpy's broadcasting. *)
Definition binop {A B C : Type} (f : A -> B -> C) (da : A) (db : B)
      (a : grid2 A) (b : grid2 B) : result (grid2 C) :=
    let '(ha, wa) := shape a in
    let '(hb, wb) := shape b in
    match bdim ha hb, bdim wa wb with
    | Some h, Some w =>
        inr (tabulate h (fun i =>
               tabulate w (fun j =>
                 f (px da a (bidx ha i) (bidx wa j))
                   (px db b (bidx hb i) (bidx wb j)))))
    | _, _ => inl ValueError
    end.

Definition array : Type := grid2 Q.
Definition mask : Type := grid2 bool.
Definition rgb : Type := (Q * Q * Q)%type.
Definition image : Type := grid2 rgb.

  (** [a - b] on float arrays. *)
Definition sub (a b : array) : result array := binop Qminus 0%Q 0%Q a b.

  (** [np.abs(a)]. *)
Definition abs (a : array) : array := map (map Qabs) a.

  (** [a + b] on boolean arrays: numpy adds booleans with logical or. *)
Definition add_mask (a b : mask) : result mask := binop orb false false a b.

  (** [a[r0:r1, c0:c1]]. *)
Definition window {A : Type} (r0 r1 c0 c1 : Z) (a : grid2 A) : grid2 A :=
    map (Py.slice c0 c1) (Py.slice r0 r1 a).

End Np.

Import Np.

(* ------------------------------------------------------------------ *)
(** ** Data model: scenes, algorithms, metrics *)

Module Scene.
Record t : Type := {
    get_center_view : result image;
    get_gt : result array;
    hidden_gt : bool;
    get_display_name : string;
    get_name : string;
    get_category : string;
    get_normal_vis_from_disp_map : array -> image
  }.
End Scene.

Module Algorithm.
Record t : Type := {
    get_display_name : string;
    get_name : string
  }.
End Algorithm.

(** The metric classes instantiated by the module, and the scene specific
    ones handed over by [misc.get_stratified_metrics]. *)
Inductive metric : Type :=
| Runtime (log : bool)
| MSE
| Quantile (percentage : Z)
| BadPix (thresh : Q)
| MAEPlanes
| MAEContinSurf
| BumpinessPlanes
| BumpinessContinSurf
| FineFattening
| FineThinning
| Discontinuities
| SceneSpecific (name : string).

(* ------------------------------------------------------------------ *)
(** ** Calls into pyplot and the plotting helpers *)

Inductive colormap : Type := RdYlGn.

Inductive pixels : Type :=
| Scalar (a : array)
| Color (i : image).

Inductive imshow_args : Type :=
| no_args
| disp_map_args (s : Scene.t)
| metric_args (m : metric)
| diff_map_args (vmin vmax : Q)
| abs_diff_map_args
| explicit_args (interpolation : string) (cmap : colormap) (vmin vmax : Q).

(** What [plt.imshow] returns and a colorbar is built from. *)
Definition mappable : Type := (pixels * imshow_args)%type.

Inductive event : Type :=
| plt_figure (width height : Q)
| prepare_grid (rows cols : Z)
| prepare_grid_with_colorbar (rows cols : Z) (s : Scene.t)
| plt_subplot (cell : Z)
| plt_imshow (data : pixels) (args : imshow_args)
| plt_title (text : string) (fontsize : Z)
| plt_ylabel (text : string) (fontsize : option Z)
| plt_xlabel (text : string) (fontsize : Z)
| annotate (text : string) (xy xytext : Z * Z) (fontsize : Z)
| pixelize_call (data : array) (noise_factor : Q)
| add_colorbar (cell : Z) (cb : mappable) (height width : Q)
    (colorbar_bins fontsize : Z)
| save_tight_figure (fig_name subdir : string) (hide_frames remove_ticks : bool)
    (hspace wspace : Q) (dpi : option Z)
| bad_pix_series_plot (algorithms : list Algorithm.t) (scenes : list Scene.t)
    (with_cached_scores penalize_missing_pixels : bool)
    (title subdir fig_name : string)
| radar_chart_plot (algorithms : list Algorithm.t) (scenes : list Scene.t)
    (metrics : list metric) (axis_labels : list string)
    (max_per_metric : list Z) (title fig_name subdir : string)
| compare_relative_performances (algorithms : list Algorithm.t)
    (scenes : list Scene.t) (metrics : list metric) (all_but : Z)
| metric_overviews_plot_normals (algorithms : list Algorithm.t)
    (scenes : list Scene.t) (subdir : string)
| plot_general_overview (algorithms : list Algorithm.t) (scenes : list Scene.t)
    (metrics : list metric) (fig_name subdir : string).

(** The collaborators the module calls into ([misc], [plotting], [metrics],
    [algorithms]); [R] is the state of the random source. *)
Record Env (R : Type) : Type := {
  pixelize : R -> array -> Q -> array * R;
  get_algo_result : Scene.t -> Algorithm.t -> result array;
  PerPixMedianDiff : Algorithm.t;
  get_evaluation_mask : metric -> Scene.t -> result mask;
  get_score_from_mask :
    metric -> array -> array -> Scene.t -> mask -> result (Q * array);
  colorbar_size : Z -> Z -> Scene.t -> Q * Q;
  get_stratified_scenes : list Scene.t;
  get_training_scenes : list Scene.t;
  get_test_scenes : list Scene.t;
  get_stratified_metrics : list metric;
  metric_display_name : metric -> string
}.

(* ------------------------------------------------------------------ *)
(** ** Formatting a float with ["%0.1f"] *)

Module Fmt.

  (** Number of tenths nearest to [|q|], ties to even. *)
Definition tenths (q : Q) : Z :=
    let t := 10 * Z.abs (Qnum q) in
    let d := Z.pos (Qden q) in
    let fl := t / d in
    let rem := t mod d in
    match 2 * rem ?= d with
    | Lt => fl
    | Gt => fl + 1
    | Eq => if Z.even fl then fl else fl + 1
    end.

Definition dec (n : Z) : string := NilZero.string_of_uint (N.to_uint (Z.to_N n)).

Definition sign (q : Q) : string :=
    if Qnum q <? 0 then "-"%string else EmptyString.

Definition f1 (q : Q) : string :=
    let t := tenths q in
    (sign q ++ dec (t / 10) ++ "." ++ dec (t mod 10))%string.

End Fmt.

(* ------------------------------------------------------------------ *)
(** ** The effect monad: random state, event log, exceptions *)

Section Effects.

Variable R : Type.

Record out (A : Type) : Type := Out {
    log : list event;
    rnd : R;
    res : result A
  }.

Definition M (A : Type) : Type := R -> out A.

Definition ret {A : Type} (a : A) : M A := fun r => Out [] r (inr a).

Definition raise {A : Type} (e : exn) : M A := fun r => Out [] r (inl e).

Definition bind {A B : Type} (m : M A) (f : A -> M B) : M B :=
    fun r =>
      let o := m r in
      match res o with
      | inl e => Out (log o) (rnd o) (inl e)
      | inr a =>
          let o' := f a (rnd o) in
          Out (log o ++ log o') (rnd o') (res o')
      end.

Definition emit (e : event) : M unit := fun r => Out [e] r (inr tt).

  (** A collaborator's answer: its value, or the exception it raised. *)
Definition lift {A : Type} (x : result A) : M A :=
    match x with
    | inl e => raise e
    | inr a => ret a
    end.

  (** Reading a local variable that may not have been bound yet. *)
Definition read_local {A : Type} (v : option A) : M A :=
    match v with
    | None => raise UnboundLocalError
    | Some a => ret a
    end.

Definition when (b : bool) (m : M unit) : M unit :=
    if b then m else ret tt.

  (** [for i, x in enumerate(xs)], counting from [i]; [s] holds the local
      variables the body rebinds. *)
Fixpoint for_enum {X S : Type} (i : Z) (xs : list X) (s : S)
      (body : Z -> X -> S -> M S) : M S :=
    match xs with
    | [] => ret s
    | x :: xs' => bind (body i x s) (fun s' => for_enum (i + 1) xs' s' body)
    end.

  (** [for x in xs]. *)
Fixpoint for_each {X : Type} (xs : list X) (body : X -> M unit) : M unit :=
    match xs with
    | [] => ret tt
    | x :: xs' => bind (body x) (fun _ => for_each xs' body)
    end.

End Effects.

Arguments ret {R A} a.
Arguments raise {R A} e.
Arguments emit {R} e.
Arguments lift {R A} x.
Arguments read_local {R A} v.

Declare Scope py_scope.
Delimit Scope py_scope with py.
Notation "x <- m ;; k" := (bind m (fun x => k))
  (at level 61, m at next level, right associativity) : py_scope.
Notation "' p <- m ;; k" := (bind m (fun x => match x with p => k end))
  (at level 61, p pattern, m at next level, right associativity) : py_scope.
Notation "m ;; k" := (bind m (fun _ => k))
  (at level 61, right associativity) : py_scope.
Local Open Scope py_scope.

(* ------------------------------------------------------------------ *)
(** ** The figure-producing routines *)

Section Composer.

Variable R : Type.
Variable env : Env R.

Definition Zlen {A : Type} (l : list A) : Z := Z.of_nat (length l).

  (** [plotting.pixelize(gt, noise_factor)]: draws from the random source. *)
Definition call_pixelize (gt : array) (noise_factor : Q) : M R array :=
    fun r =>
      let drawn := pixelize env r gt noise_factor in
      Out [pixelize_call gt noise_factor] (snd drawn) (inr (fst drawn)).

  (** [plotting.get_path_to_figure] followed by [plotting.save_tight_figure]. *)
Definition save (fig_name subdir : string) (hide_frames remove_ticks : bool)
      (hspace wspace : Q) (dpi : option Z) : M R unit :=
    emit (save_tight_figure fig_name subdir hide_frames remove_ticks
            hspace wspace dpi).

  (** [plt.imshow], returning the mappable. *)
Definition imshow (data : pixels) (args : imshow_args) : M R mappable :=
    emit (plt_imshow data args) ;; ret (data, args).

  (* -- plot_scene_overview ----------------------------------------- *)

Definition scene_overview_body (fs cols : Z) (idx_s : Z) (scene : Scene.t)
      (_ : unit) : M R unit :=
    center_view <- lift (Scene.get_center_view scene) ;;
    emit (plt_subplot idx_s) ;;
    imshow (Color center_view) no_args ;;
    emit (plt_title (Py.newline ++ Py.newline ++ Scene.get_display_name scene)
            fs) ;;
    gt <- lift (Scene.get_gt scene) ;;
    emit (plt_subplot (cols + idx_s)) ;;
    gt <- (if Scene.hidden_gt scene then call_pixelize gt (1 # 2)
           else ret gt) ;;
    imshow (Scalar gt) (disp_map_args scene) ;;
    ret tt.

Definition plot_scene_overview (scenes : list Scene.t) (subdir : string)
      (fs : Z) : M R unit :=
    let rows := 2 in
    let cols := Zlen scenes in
    emit (plt_figure (216 # 10) 4) ;;
    emit (prepare_grid rows cols) ;;
    for_enum 0 scenes tt (scene_overview_body fs cols) ;;
    let height := 785 in
    emit (annotate "(a) Stratified Scenes" (400, 420) (500, height) fs) ;;
    emit (annotate "(b) Training Scenes" (400, 420) (1910, height) fs) ;;
    emit (annotate "(c) Test Scenes (Hidden Ground Truth)" (400, 420)
            (3070, height) fs) ;;
    save "scenes" subdir true true (2 # 100) (2 # 100) (Some 200).

  (* -- plot_normals_explanation ------------------------------------ *)

Definition plot_normals_explanation (scene : Scene.t)
      (algorithm : Algorithm.t) (fs : Z) (subdir : string) : M R unit :=
    let rows := 1 in
    let cols := 4 in
    emit (plt_figure 10 4) ;;
    emit (prepare_grid_with_colorbar rows cols scene) ;;
    let cb_height := fst (colorbar_size env rows cols scene) in
    let cb_width := snd (colorbar_size env rows cols scene) in
    let normals_contin := MAEContinSurf in
    let normals_planes := MAEPlanes in
    gt <- lift (Scene.get_gt scene) ;;
    algo_result <- lift (get_algo_result env scene algorithm) ;;
    mask_contin <- lift (get_evaluation_mask env normals_contin scene) ;;
    mask_planes <- lift (get_evaluation_mask env normals_planes scene) ;;
    mask <- lift (Np.add_mask mask_contin mask_planes) ;;
    '(score_normals, vis_normals) <-
      lift (get_score_from_mask env normals_contin algo_result gt scene mask) ;;
    emit (plt_subplot 0) ;;
    imshow (Color (Scene.get_normal_vis_from_disp_map scene gt)) no_args ;;
    emit (plt_title "Ground Truth Normals" fs) ;;
    emit (plt_subplot 1) ;;
    imshow (Color (Scene.get_normal_vis_from_disp_map scene algo_result))
      no_args ;;
    emit (plt_title "Algorithm Normals" fs) ;;
    emit (plt_subplot 2) ;;
    cb <- imshow (Scalar vis_normals) (metric_args normals_contin) ;;
    emit (plt_title ("Median Angular Error: " ++ Fmt.f1 score_normals) fs) ;;
    emit (plt_subplot 3) ;;
    emit (add_colorbar 3 cb cb_height cb_width 4 fs) ;;
    save ("metrics_" ++ Scene.get_name scene ++ "_"
            ++ Algorithm.get_name algorithm)
      subdir false true (4 # 100) (3 # 100) None.

  (* -- plot_bad_pix_series ----------------------------------------- *)

Definition plot_bad_pix_series (algorithms : list Algorithm.t)
      (with_cached_scores penalize_missing_pixels : bool) (subdir : string)
      : M R unit :=
    let scene_sets :=
      [ (get_stratified_scenes env, "Stratified Scenes"%string,
         "stratified"%string);
        ((get_training_scenes env ++ get_test_scenes env)%list,
         "Test and Training Scenes"%string, "photorealistic"%string) ] in
    for_each scene_sets (fun '(scene_set, title, fig_name) =>
      emit (bad_pix_series_plot algorithms scene_set with_cached_scores
              penalize_missing_pixels title subdir
              ("bad_pix_series_" ++ fig_name))).

  (* -- plot_radar_charts ------------------------------------------- *)






  (* -- plot_normals_overview, plot_high_accuracy ------------------- *)

Definition plot_normals_overview (algorithms : list Algorithm.t)
      (scenes : list Scene.t) (subdir : string) : M R unit :=
    emit (metric_overviews_plot_normals algorithms scenes subdir).

Definition plot_high_accuracy (algorithms : list Algorithm.t)
      (scenes : list Scene.t) (subdir : string) : M R unit :=
    let metrics := [BadPix (7 # 100); BadPix (1 # 100); Quantile 25] in
    emit (plot_general_overview algorithms scenes metrics "high_accuracy"
            subdir).

  (* -- the median-diff map ------------------------------------------ *)

  (** [np.abs(median_result - gt) - np.abs(algo_result - gt)]. *)
Definition median_diff_of (median_result gt algo_result : array)
      : result array :=
    match Np.sub median_result gt with
    | inl e => inl e
    | inr dm =>
        match Np.sub algo_result gt with
        | inl e => inl e
        | inr da => Np.sub (Np.abs dm) (Np.abs da)
        end
    end.

Definition median_diff_args : imshow_args :=
    explicit_args "none" RdYlGn (- (5 # 100)) (5 # 100).

  (* -- plot_discont_overview ---------------------------------------- *)

Definition discont_body (scene : Scene.t) (fs xmin ymin ww : Z)
      (n_vis_types n_entries_per_row cols : Z) (cb_height cb_width : Q)
      (gt median_result : array)
      (idx_a : Z) (algorithm : Algorithm.t) (_ : unit) : M R unit :=
    algo_result <- lift (get_algo_result env scene algorithm) ;;
    let idx := idx_a + 1 in
    m <- lift (Py.mod_ idx n_entries_per_row) ;;
    let add_ylabel := Py.not_ m in
    m <- lift (Py.mod_ (idx + 1) n_entries_per_row) ;;
    let add_colorbar_ := Py.not_ m in
    q <- lift (Py.floordiv idx n_entries_per_row) ;;
    let idx_row := q * n_vis_types in
    idx_col <- lift (Py.mod_ idx n_entries_per_row) ;;
    emit (plt_subplot (idx_row * cols + idx_col)) ;;
    cb_depth <- imshow
      (Scalar (Np.window ymin (ymin + ww) xmin (xmin + ww) algo_result))
      (disp_map_args scene) ;;
    emit (plt_title (Algorithm.get_display_name algorithm) fs) ;;
    when add_ylabel (emit (plt_ylabel "DispMap" (Some fs))) ;;
    when add_colorbar_
      (emit (add_colorbar (idx_row * cols + idx_col + 1) cb_depth
               cb_height cb_width 7 fs)) ;;
    emit (plt_subplot ((idx_row + 1) * cols + idx_col)) ;;
    full <- lift (median_diff_of median_result gt algo_result) ;;
    let median_diff := Np.window ymin (ymin + ww) xmin (xmin + ww) full in
    cb_error <- imshow (Scalar median_diff) median_diff_args ;;
    when add_ylabel (emit (plt_ylabel "MedianDiff" (Some fs))) ;;
    when add_colorbar_
      (emit (add_colorbar ((idx_row + 1) * cols + idx_col + 1) cb_error
               cb_height cb_width 7 fs)).

Definition plot_discont_overview (algorithms : list Algorithm.t)
      (scene : Scene.t) (n_rows fs : Z) (subdir : string) (xmin ymin ww : Z)
      : M R unit :=
    let n_vis_types := 2 in
    n_entries_per_row <- lift (Py.ceil_fdiv (Zlen algorithms + 1) n_rows) ;;
    let rows := n_vis_types * n_rows in
    let cols := n_entries_per_row + 1 in
    emit (plt_figure (inject_Z cols * (17 # 10))
            ((145 # 100) * inject_Z rows * (15 # 10))) ;;
    emit (prepare_grid_with_colorbar rows cols scene) ;;
    let cb_height := fst (colorbar_size env rows cols scene) in
    let cb_width := snd (colorbar_size env rows cols scene) in
    let median_algo := PerPixMedianDiff env in
    gt <- lift (Scene.get_gt scene) ;;
    median_result <- lift (get_algo_result env scene median_algo) ;;
    center_view <- lift (Scene.get_center_view scene) ;;
    emit (plt_subplot 0) ;;
    imshow (Color (Np.window ymin (ymin + ww) xmin (xmin + ww) center_view))
      no_args ;;
    emit (plt_title "Center View" fs) ;;
    emit (plt_ylabel "DispMap" (Some fs)) ;;
    emit (plt_subplot cols) ;;
    emit (plt_ylabel "MedianDiff" (Some fs)) ;;
    for_enum 0 algorithms tt
      (discont_body scene fs xmin ymin ww n_vis_types n_entries_per_row cols
         cb_height cb_width gt median_result) ;;
    save ("discont_" ++ Scene.get_name scene) subdir true true
      (3 # 100) (3 # 100) (Some 100).

  (* -- plot_median_comparisons -------------------------------------- *)

  (** Local variables of [plot_median_comparisons] that outlive the loop
      that binds them. *)
Record locals : Type := Locals {
    l_idx_a : option Z;
    l_scene : option Scene.t
  }.

Definition median_algo_body (scene : Scene.t) (fs cols idx_s : Z)
      (add_label add_colorbar_ : bool) (cb_height cb_width : Q)
      (gt abs_diff_median_result : array)
      (idx_a : Z) (algorithm : Algorithm.t) (_ : option Z)
      : M R (option Z) :=
    algo_result <- lift (get_algo_result env scene algorithm) ;;
    let add_title := idx_a =? 0 in
    emit (plt_subplot (idx_a * cols + 3 * idx_s)) ;;
    imshow (Scalar algo_result) (disp_map_args scene) ;;
    when add_title (emit (plt_title "DispMap" fs)) ;;
    when add_label
      (emit (plt_ylabel (Algorithm.get_display_name algorithm) (Some fs))) ;;
    emit (plt_subplot (idx_a * cols + 3 * idx_s + 1)) ;;
    err <- lift (Np.sub gt algo_result) ;;
    cb1 <- imshow (Scalar err) (diff_map_args (- (1 # 10)) (1 # 10)) ;;
    when add_title (emit (plt_title "GT-Algo" fs)) ;;
    emit (plt_subplot (idx_a * cols + 3 * idx_s + 2)) ;;
    median_diff <- lift (median_diff_of abs_diff_median_result gt algo_result) ;;
    cb2 <- imshow (Scalar median_diff) median_diff_args ;;
    when add_title (emit (plt_title "MedianDiff" fs)) ;;
    when add_colorbar_
      (if idx_a mod 2 =? 0
       then emit (add_colorbar (idx_a * cols + 3 * idx_s + 2 + 1) cb1
                    cb_height cb_width 4 fs)
       else emit (add_colorbar (idx_a * cols + 3 * idx_s + 2 + 1) cb2
                    cb_height cb_width 4 fs)) ;;
    ret (Some idx_a).

Definition median_scene_body (algorithms : list Algorithm.t)
      (with_gt_row : bool) (fs cols n_scenes : Z) (cb_height cb_width : Q)
      (idx_s : Z) (scene : Scene.t) (vars : locals) : M R locals :=
    gt <- lift (Scene.get_gt scene) ;;
    abs_diff_median_result <-
      lift (get_algo_result env scene (PerPixMedianDiff env)) ;;
    let add_label := idx_s =? 0 in
    let add_colorbar_ := idx_s =? n_scenes - 1 in
    idx_a <- for_enum 0 algorithms (l_idx_a vars)
      (median_algo_body scene fs cols idx_s add_label add_colorbar_
         cb_height cb_width gt abs_diff_median_result) ;;
    if with_gt_row then
      i <- read_local idx_a ;;
      let idx_a := i + 1 in
      emit (plt_subplot (idx_a * cols + 3 * idx_s)) ;;
      imshow (Scalar gt) (disp_map_args scene) ;;
      emit (plt_xlabel "GT" fs) ;;
      when add_label (emit (plt_ylabel "Reference" None)) ;;
      emit (plt_subplot (idx_a * cols + 3 * idx_s + 1)) ;;
      d <- lift (Np.sub gt abs_diff_median_result) ;;
      cb1 <- imshow (Scalar (Np.abs d)) abs_diff_map_args ;;
      emit (plt_xlabel "|GT-PerPixMedian|" (fs - 2)) ;;
      when add_colorbar_
        (emit (add_colorbar (idx_a * cols + 3 * idx_s + 2 + 1) cb1
                 cb_height cb_width 4 fs)) ;;
      ret (Locals (Some idx_a) (Some scene))
    else ret (Locals idx_a (Some scene)).

Definition plot_median_comparisons (scenes : list Scene.t)
      (algorithms : list Algorithm.t) (subdir : string) (with_gt_row : bool)
      (fs : Z) : M R unit :=
    let rows := Zlen algorithms + Py.int_of_bool with_gt_row in
    let cols := Zlen scenes * 3 + 1 in
    emit (plt_figure (inject_Z cols * (13 # 10)) (inject_Z rows * (15 # 10))) ;;
    scene0 <- lift (Py.head scenes) ;;
    emit (prepare_grid_with_colorbar rows cols scene0) ;;
    let cb_height := fst (colorbar_size env rows cols scene0) in
    let cb_width := snd (colorbar_size env rows cols scene0) in
    let cb_height := (cb_height * (8 # 10))%Q in
    vars <- for_enum 0 scenes (Locals None None)
      (median_scene_body algorithms with_gt_row fs cols (Zlen scenes)
         cb_height cb_width) ;;
    scene <- read_local (l_scene vars) ;;
    save ("median_comparison_" ++ Scene.get_category scene) subdir true true
      (2 # 100) 0 None.

End Composer.

(* ------------------------------------------------------------------ *)
(** ** Reading a log: cells, panels, figures *)

Definition succeeds {R A : Type} (o : out R A) : Prop :=
  exists a, res o = inr a.

Definition fails {R A : Type} (o : out R A) : Prop :=
  exists e, res o = inl e.

(** Grid cells claimed by an event: a subplot or a colorbar. *)
Definition cell_of (e : event) : list Z :=
  match e with
  | plt_subplot c => [c]
  | add_colorbar c _ _ _ _ _ => [c]
  | _ => []
  end.

Definition cells (t : list event) : list Z := flat_map cell_of t.

Definition subplot_of (e : event) : list Z :=
  match e with
  | plt_subplot c => [c]
  | _ => []
  end.

Definition subplots (t : list event) : list Z := flat_map subplot_of t.

(** Events that put pixels on the current axes. *)
Definition is_drawing (e : event) : bool :=
  match e with
  | plt_imshow _ _ => true
  | pixelize_call _ _ => true
  | _ => false
  end.

(** Drawing events up to the next [plt.subplot]. *)
Fixpoint segment (t : list event) : list event :=
  match t with
  | [] => []
  | plt_subplot _ :: _ => []
  | e :: t' => if is_drawing e then e :: segment t' else segment t'
  end.

(** The panels of the composed figure: each [plt.subplot] opens one, and the
    drawing calls that follow land on it. *)
Fixpoint panels (t : list event) : list (Z * list event) :=
  match t with
  | [] => []
  | plt_subplot c :: t' => (c, segment t') :: panels t'
  | _ :: t' => panels t'
  end.

(** What was drawn on the panels opened at cell [c]. *)
Definition panels_at (t : list event) (c : Z) : list (list event) :=
  map snd (filter (fun p => fst p =? c) (panels t)).

Definition is_save (e : event) : bool :=
  match e with
  | save_tight_figure _ _ _ _ _ _ _ => true
  | _ => false
  end.

Definition is_figure (e : event) : bool :=
  match e with
  | plt_figure _ _ => true
  | _ => false
  end.

(** Files written, figures created. *)
Definition saved (t : list event) : list event := filter is_save t.
Definition created (t : list event) : list event := filter is_figure t.

(** Figures still registered with pyplot at the end of a log: pyplot keeps a
    figure until it is closed; the module itself never closes one, so the
    only release can come from [save_tight_figure], which [save_closes]
    stands for. *)
Definition open_figures (save_closes : bool) (t : list event) : Z :=
  Zlen (created t) - (if save_closes then Zlen (saved t) else 0).

Definition prefix_of {A : Type} (l1 l2 : list A) : Prop :=
  exists rest, l2 = (l1 ++ rest)%list.

(** Concatenation of [full i x] over [enumerate(xs)] counted from [i]. *)
Fixpoint enum_flat {X A : Type} (full : Z -> X -> list A) (i : Z)
    (xs : list X) : list A :=
  match xs with
  | [] => []
  | x :: xs' => (full i x ++ enum_flat full (i + 1) xs')%list
  end.

(** Row and column of a cell of a grid with [cols] columns (row major). *)
Definition grid_row (cols c : Z) : Z := c / cols.
Definition grid_col (cols c : Z) : Z := c mod cols.

(** The scene registry delivers the scene's center view and ground truth. *)
Definition scene_loaded (s : Scene.t) : Prop :=
  (exists cv, Scene.get_center_view s = inr cv) /\
  (exists g, Scene.get_gt s = inr g).

(** What [plot_scene_overview] draws on the ground-truth panel of scene [s]
    with ground truth [g], when the random source is in state [r]. *)
Definition gt_panel {R : Type} (env : Env R) (r : R) (s : Scene.t) (g : array)
    : list event :=
  if Scene.hidden_gt s
  then [pixelize_call g (1 # 2);
        plt_imshow (Scalar (fst (pixelize env r g (1 # 2)))) (disp_map_args s)]
  else [plt_imshow (Scalar g) (disp_map_args s)].

(** Cells a complete iteration of [plot_scene_overview] claims. *)
Definition scene_overview_cells (cols i : Z) (_ : Scene.t) : list Z :=
  [i; cols + i].

Definition is_grid (e : event) : bool :=
  match e with
  | prepare_grid _ _ => true
  | prepare_grid_with_colorbar _ _ _ => true
  | _ => false
  end.

(** The grids prepared along a log. *)
Definition grids (t : list event) : list event := filter is_grid t.

(** [n_entries_per_row] of [plot_discont_overview] for [n] algorithms. *)
Definition n_entries_per_row (n n_rows : Z) : Z :=
  Qceiling (inject_Z (n + 1) / inject_Z n_rows).

(** Cells a complete iteration of [plot_discont_overview] claims: the
    disparity panel, the median-diff panel below it and, in the last column,
    their colorbars. *)
Definition discont_cells (E cols i : Z) (_ : Algorithm.t) : list Z :=
  let idx := i + 1 in
  let idx_row := idx / E * 2 in
  let idx_col := idx mod E in
  let cb := Py.not_ ((idx + 1) mod E) in
  ([idx_row * cols + idx_col]
   ++ (if cb then [idx_row * cols + idx_col + 1] else [])
   ++ [(idx_row + 1) * cols + idx_col]
   ++ (if cb then [(idx_row + 1) * cols + idx_col + 1] else []))%list.

(** Cells a complete run of [plot_discont_overview] claims: the center view,
    the labelled cell below it, and those of the algorithms. *)
Definition discont_all_cells (E : Z) (algorithms : list Algorithm.t)
    : list Z :=
  0 :: (E + 1) :: enum_flat (discont_cells E (E + 1)) 0 algorithms.

(** The iteration of [plot_discont_overview] that owns a cell. *)
Definition discont_key (E cols c : Z) : Z :=
  c / cols / 2 * E + (if c mod cols =? E then E - 1 else c mod cols) - 1.

(** Cells of one algorithm row of [plot_median_comparisons]. *)
Definition median_algo_cells (cols idx_s : Z) (add_colorbar_ : bool) (i : Z)
    (_ : Algorithm.t) : list Z :=
  ([i * cols + 3 * idx_s; i * cols + 3 * idx_s + 1; i * cols + 3 * idx_s + 2]
   ++ (if add_colorbar_ then [i * cols + 3 * idx_s + 2 + 1] else []))%list.

(** Cells of the reference row. *)
Definition median_gt_cells (cols idx_s : Z) (add_colorbar_ : bool) (i : Z)
    : list Z :=
  ([i * cols + 3 * idx_s; i * cols + 3 * idx_s + 1]
   ++ (if add_colorbar_ then [i * cols + 3 * idx_s + 2 + 1] else []))%list.

(** Cells of one scene of [plot_median_comparisons]. *)
Definition median_scene_cells (algorithms : list Algorithm.t)
    (with_gt_row : bool) (cols n_scenes idx_s : Z) (_ : Scene.t) : list Z :=
  let add_colorbar_ := idx_s =? n_scenes - 1 in
  (enum_flat (median_algo_cells cols idx_s add_colorbar_) 0 algorithms
   ++ (if with_gt_row
       then median_gt_cells cols idx_s add_colorbar_ (Zlen algorithms)
       else []))%list.

(** The scene of [plot_median_comparisons] that owns a cell. *)
Definition median_key (cols n_scenes c : Z) : Z :=
  if c mod cols =? 3 * n_scenes then n_scenes - 1 else c mod cols / 3.

(** Events of a figure's life cycle: creation, grid preparation, saving. *)
Definition is_lifecycle (e : event) : bool :=
  is_figure e || is_grid e || is_save e.

(** The cached result of an algorithm on a scene is there and has the shape
    of the scene's ground truth [g]. *)
Definition algo_ok {R : Type} (env : Env R) (s : Scene.t) (g : array)
    (a : Algorithm.t) : Prop :=
  exists ar, get_algo_result env s a = inr ar /\ shape ar = shape g.

(** The data [plot_median_comparisons] and [plot_discont_overview] fetch for
    a scene is there: ground truth, the per-pixel median baseline and every
    algorithm's result, all at the scene's resolution. *)
Definition results_ok {R : Type} (env : Env R) (algorithms : list Algorithm.t)
    (s : Scene.t) : Prop :=
  exists g, Scene.get_gt s = inr g /\
    algo_ok env s g (PerPixMedianDiff env) /\
    Forall (algo_ok env s g) algorithms.

(** [md] is the median-diff map of an algorithm result [algo] against the
    baseline [med] and the ground truth [gt]: at every pixel it holds
    [|med - gt| - |algo - gt|], which is positive exactly when the algorithm's
    absolute error is the smaller one. *)
Definition is_median_diff (md med gt algo : array) : Prop :=
  shape md = shape gt /\
  forall i j, (i < fst (shape gt))%nat -> (j < snd (shape gt))%nat ->
    px 0%Q md i j =
      (Qabs (px 0%Q med i j - px 0%Q gt i j)
       - Qabs (px 0%Q algo i j - px 0%Q gt i j))%Q /\
    ((0 < px 0%Q md i j)%Q <->
     (Qabs (px 0%Q algo i j - px 0%Q gt i j)
      < Qabs (px 0%Q med i j - px 0%Q gt i j))%Q).

(** Cell of the median-diff panel of the algorithm at position [k] in
    [plot_discont_overview]. *)
Definition discont_median_diff_cell (E cols : Z) (k : nat) : Z :=
  let idx := Z.of_nat k + 1 in
  (idx / E * 2 + 1) * cols + idx mod E.

(** How a call that creates a figure ends: it failed without handing its
    figure to [save_tight_figure], or it returned after creating one figure
    and saving once. *)
Definition figure_outcome {R : Type} (o : out R unit) : Prop :=
  (fails o /\ saved (log o) = [] /\ (length (created (log o)) <= 1)%nat) \/
  (succeeds o /\ length (created (log o)) = 1%nat /\
   length (saved (log o)) = 1%nat).

(** The figure of a call is released by [save_tight_figure] or not at all:
    after a failed call every figure it created is still open, whatever
    [save_tight_figure] does; after a successful call the figure is open
    exactly when [save_tight_figure] does not close it. *)
Definition released_only_by_save {R : Type} (o : out R unit) : Prop :=
  (fails o ->
   forall save_closes,
     open_figures save_closes (log o) = Zlen (created (log o))) /\
  (succeeds o ->
   open_figures true (log o) = 0 /\ open_figures false (log o) = 1).



(** The titles set along a log. *)
Definition title_of (e : event) : list string :=
  match e with
  | plt_title text _ => [text]
  | _ => []
  end.

Definition titles (t : list event) : list string := flat_map title_of t.

(* ------------------------------------------------------------------ *)
(** ** A small data set *)

Module Example.

  (** [plotting.pixelize] is a collaborator outside the sources: [Env] takes
      it as a parameter and every theorem holds for any function in its
      place.  The examples instantiate it with this stand-in, which mirrors
      every row and advances the state of the random source by one. *)
Definition pixelize_example (r : nat) (a : array) (noise_factor : Q)
      : array * nat :=
    (map (@rev Q) a, S r).

Definition white : rgb := (1%Q, 1%Q, 1%Q).
Definition black : rgb := (0%Q, 0%Q, 0%Q).

Definition view : image := [[white; black]; [black; white]].
Definition gt_a : array := [[1%Q; 2%Q]; [3%Q; 4%Q]].
Definition gt_b : array := [[0%Q; 1 # 2]; [1%Q; 3 # 2]].

Definition normal_vis (a : array) : image :=
    map (map (fun q => (q, q, q))) a.

Definition dots : Scene.t :=
    {| Scene.get_center_view := inr view;
       Scene.get_gt := inr gt_a;
       Scene.hidden_gt := false;
       Scene.get_display_name := "Dots";
       Scene.get_name := "dots";
       Scene.get_category := "stratified";
       Scene.get_normal_vis_from_disp_map := normal_vis |}.

Definition stripes : Scene.t :=
    {| Scene.get_center_view := inr view;
       Scene.get_gt := inr gt_b;
       Scene.hidden_gt := false;
       Scene.get_display_name := "Stripes";
       Scene.get_name := "stripes";
       Scene.get_category := "stratified";
       Scene.get_normal_vis_from_disp_map := normal_vis |}.

Definition pyramids : Scene.t :=
    {| Scene.get_center_view := inr view;
       Scene.get_gt := inr gt_a;
       Scene.hidden_gt := false;
       Scene.get_display_name := "Pyramids";
       Scene.get_name := "pyramids";
       Scene.get_category := "stratified";
       Scene.get_normal_vis_from_disp_map := normal_vis |}.

Definition bedroom : Scene.t :=
    {| Scene.get_center_view := inr view;
       Scene.get_gt := inr gt_a;
       Scene.hidden_gt := true;
       Scene.get_display_name := "Bedroom";
       Scene.get_name := "bedroom";
       Scene.get_category := "test";
       Scene.get_normal_vis_from_disp_map := normal_vis |}.

  (** A scene whose data files are missing. *)
Definition missing : Scene.t :=
    {| Scene.get_center_view := inl (CollaboratorError "no center view");
       Scene.get_gt := inl (CollaboratorError "no ground truth");
       Scene.hidden_gt := false;
       Scene.get_display_name := "Missing";
       Scene.get_name := "missing";
       Scene.get_category := "test";
       Scene.get_normal_vis_from_disp_map := normal_vis |}.

Definition epi1 : Algorithm.t :=
    {| Algorithm.get_display_name := "EPI1"; Algorithm.get_name := "epi1" |}.
Definition lf : Algorithm.t :=
    {| Algorithm.get_display_name := "LF"; Algorithm.get_name := "lf" |}.
Definition median : Algorithm.t :=
    {| Algorithm.get_display_name := "PerPixMedianDiff";
       Algorithm.get_name := "per_pix_median_diff" |}.

  (** Cached results: every algorithm is off by a constant. *)
Definition offset (a : Algorithm.t) : Q :=
    if String.eqb (Algorithm.get_name a) "epi1" then 1 # 100
    else if String.eqb (Algorithm.get_name a) "lf" then - (3 # 100)
    else 2 # 100.

Definition algo_result (s : Scene.t) (a : Algorithm.t) : result array :=
    match Scene.get_gt s with
    | inl e => inl e
    | inr g => inr (map (map (fun q => q + offset a)%Q) g)
    end.

Definition evaluation_mask (m : metric) (s : Scene.t) : result mask :=
    match m with
    | MAEPlanes => inr [[true; false]; [false; false]]
    | _ => inr [[false; false]; [false; true]]
    end.

Definition score_from_mask (m : metric) (algo gt : array) (s : Scene.t)
      (msk : mask) : result (Q * array) :=
    inr (93 # 4, algo)%Q.

Definition stratified_metrics : list metric :=
    [SceneSpecific "Backgammon: Fattening";
     SceneSpecific "Backgammon: Thinning";
     SceneSpecific "Dots: Background MSE";
     SceneSpecific "Dots: Missed Dots";
     SceneSpecific "Pyramids: Bump. Slanted";
     SceneSpecific "Pyramids: Bump. Parallel";
     SceneSpecific "Stripes: Low Texture";
     SceneSpecific "Stripes: Dark Stripes";
     SceneSpecific "Stripes: Bright Stripes"].

Definition display_name (m : metric) : string :=
    match m with
    | Runtime _ => "Runtime"
    | MSE => "MSE"
    | Quantile _ => "Q25"
    | BadPix _ => "BadPix"
    | MAEPlanes => "MAE Planes"
    | MAEContinSurf => "MAE Contin. Surf."
    | BumpinessPlanes => "Bumpiness Planes"
    | BumpinessContinSurf => "Bumpiness Contin. Surf."
    | FineFattening => "Fine Fattening"
    | FineThinning => "Fine Thinning"
    | Discontinuities => "Discontinuities"
    | SceneSpecific name => name
    end.

Definition env : Env nat :=
    {| pixelize := pixelize_example;
       get_algo_result := algo_result;
       PerPixMedianDiff := median;
       get_evaluation_mask := evaluation_mask;
       get_score_from_mask := score_from_mask;
       colorbar_size := fun _ _ _ => (1%Q, 1 # 10);
       get_stratified_scenes := [dots; stripes; pyramids];
       get_training_scenes := [];
       get_test_scenes := [bedroom];
       get_stratified_metrics := stratified_metrics;
       metric_display_name := display_name |}.


End Example.

(* ------------------------------------------------------------------ *)
(** ** Further readings of a log *)

Definition pixelize_call_of (e : event) : list (array * Q) :=
  match e with
  | pixelize_call data noise_factor => [(data, noise_factor)]
  | _ => []
  end.

(** The arguments of the calls to [plotting.pixelize], in order. *)
Definition pixelize_calls (t : list event) : list (array * Q) :=
  flat_map pixelize_call_of t.

Definition caption_of (e : event) : list string :=
  match e with
  | annotate text _ _ _ => [text]
  | _ => []
  end.

(** The captions annotated on the figure. *)
Definition captions (t : list event) : list string := flat_map caption_of t.

Definition ylabel_of (e : event) : list string :=
  match e with
  | plt_ylabel text _ => [text]
  | _ => []
  end.

(** The y-axis labels set along a log. *)
Definition ylabels (t : list event) : list string := flat_map ylabel_of t.

Definition colorbar_of (e : event) : list (Z * imshow_args) :=
  match e with
  | add_colorbar cell cb _ _ _ _ => [(cell, snd cb)]
  | _ => []
  end.

(** The colorbars of a log: their cell and the rendering arguments of the
    image they describe. *)
Definition colorbars (t : list event) : list (Z * imshow_args) :=
  flat_map colorbar_of t.

(** The exception a scene raises when [plot_scene_overview] loads it. *)
Definition load_error (s : Scene.t) : option exn :=
  match Scene.get_center_view s with
  | inl e => Some e
  | inr _ =>
      match Scene.get_gt s with
      | inl e => Some e
      | inr _ => None
      end
  end.

(** The call to [plotting.pixelize] a scene causes in
    [plot_scene_overview]. *)
Definition pixelize_expected (s : Scene.t) : list (array * Q) :=
  match Scene.get_gt s with
  | inr g => if Scene.hidden_gt s then [(g, 1 # 2)] else []
  | inl _ => []
  end.

Definition scene_captions : list string :=
  ["(a) Stratified Scenes"; "(b) Training Scenes";
   "(c) Test Scenes (Hidden Ground Truth)"]%string.

(** The image a colorbar of [plot_median_comparisons] describes in the row of
    the algorithm at position [a]: the error map on even rows, the
    median-diff map on odd rows. *)
Definition median_colorbar_args (a : Z) : imshow_args :=
  if a mod 2 =? 0 then diff_map_args (- (1 # 10)) (1 # 10)
  else median_diff_args.


(** Every row of a field has [w] entries. *)
Definition rectangular {A : Type} (w : nat) (a : grid2 A) : Prop :=
  Forall (fun row => length row = w) a.




(** [a] has [h] rows of [w] entries. *)
Definition has_shape {A : Type} (h w : nat) (a : grid2 A) : Prop :=
  length a = h /\ rectangular w a.

(** The array holds at least one pixel: no dimension of its shape is 0. *)
Definition nonempty {A : Type} (a : grid2 A) : bool :=
  (0 <? fst (shape a))%nat && (0 <? snd (shape a))%nat.

Definition pixels_nonempty (p : pixels) : bool :=
  match p with
  | Scalar a => nonempty a
  | Color i => nonempty i
  end.

Definition drawn_of (e : event) : list pixels :=
  match e with
  | plt_imshow data _ => [data]
  | _ => []
  end.

(** The arrays handed to [plt.imshow], in order. *)
Definition drawn (t : list event) : list pixels := flat_map drawn_of t.

(** The data [plot_discont_overview] fetches for a scene is there and all of
    it is [h] x [w]: the center view, the ground truth, the per-pixel median
    baseline and every algorithm's result. *)
Definition fields_ok {R : Type} (env : Env R) (algorithms : list Algorithm.t)
    (s : Scene.t) (h w : nat) : Prop :=
  (exists cv, Scene.get_center_view s = inr cv /\ has_shape h w cv) /\
  (exists g, Scene.get_gt s = inr g /\ has_shape h w g) /\
  Forall (fun a => exists ar, get_algo_result env s a = inr ar /\
                              has_shape h w ar)
    (PerPixMedianDiff env :: algorithms).

(** What an iteration of [plot_discont_overview] hands to [plt.imshow]. *)
Definition discont_drawn {R : Type} (env : Env R) (scene : Scene.t)
    (xmin ymin ww : Z) (gt median_result : array) (a : Algorithm.t)
    : list pixels :=
  match get_algo_result env scene a with
  | inl _ => []
  | inr algo_result =>
      match median_diff_of median_result gt algo_result with
      | inl _ => []
      | inr full =>
          [Scalar (Np.window ymin (ymin + ww) xmin (xmin + ww) algo_result);
           Scalar (Np.window ymin (ymin + ww) xmin (xmin + ww) full)]
      end
  end.

(* ================================================================== *)
(** * Properties *)

Unset Implicit Arguments.

Arguments Z.mul : simpl never.
Arguments Z.add : simpl never.
Arguments Z.sub : simpl never.
Arguments Qmult : simpl never.
Arguments inject_Z : simpl never.
Arguments Np.sub : simpl never.
Arguments Np.abs : simpl never.
Arguments Np.add_mask : simpl never.
Arguments Np.window : simpl never.
Arguments median_diff_of : simpl never.
Arguments Fmt.f1 : simpl never.

(* ------------------------------------------------------------------ *)
(** ** The monad *)

Section MonadFacts.

Variable R : Type.

Lemma log_bind {A B} (m : M R A) (f : A -> M R B) r :
    log (bind m f r) =
    (log (m r) ++ match res (m r) with
                  | inl _ => []
                  | inr a => log (f a (rnd (m r)))
                  end)%list.
  Proof.
    unfold bind. destruct (res (m r)); simpl; auto using app_nil_r.
  Qed.

Lemma res_bind {A B} (m : M R A) (f : A -> M R B) r :
    res (bind m f r) =
    match res (m r) with
    | inl e => inl e
    | inr a => res (f a (rnd (m r)))
    end.
  Proof. unfold bind. destruct (res (m r)); reflexivity. Qed.

Lemma rnd_bind {A B} (m : M R A) (f : A -> M R B) r :
    rnd (bind m f r) =
    match res (m r) with
    | inl e => rnd (m r)
    | inr a => rnd (f a (rnd (m r)))
    end.
  Proof. unfold bind. destruct (res (m r)); reflexivity. Qed.

Lemma bind_fails {A B} (m : M R A) (f : A -> M R B) r e :
    res (m r) = inl e -> bind m f r = Out (log (m r)) (rnd (m r)) (inl e).
  Proof. intros H. unfold bind. rewrite H. reflexivity. Qed.

End MonadFacts.

(* ------------------------------------------------------------------ *)
(** ** Logs, cells and panels *)

Lemma prefix_of_refl {A} (l : list A) : prefix_of l l.
Proof. exists []. symmetry. apply app_nil_r. Qed.

Lemma prefix_of_nil {A} (l : list A) : prefix_of [] l.
Proof. exists l. reflexivity. Qed.

Lemma prefix_of_app_l {A} (l1 l2 l3 : list A) :
  prefix_of l1 l2 -> prefix_of l1 (l2 ++ l3).
Proof. intros [rest ->]. exists (rest ++ l3)%list. now rewrite app_assoc. Qed.

Lemma prefix_of_app_r {A} (l l1 l2 : list A) :
  prefix_of l1 l2 -> prefix_of (l ++ l1) (l ++ l2).
Proof. intros [rest ->]. exists rest. now rewrite app_assoc. Qed.

Lemma prefix_of_cons {A} (a : A) (l1 l2 : list A) :
  prefix_of l1 l2 -> prefix_of (a :: l1) (a :: l2).
Proof. intros [rest ->]. exists rest. reflexivity. Qed.

Lemma prefix_of_NoDup {A} (l1 l2 : list A) :
  prefix_of l1 l2 -> NoDup l2 -> NoDup l1.
Proof. intros [rest ->]. apply NoDup_app_remove_r. Qed.

Lemma prefix_of_Forall {A} (P : A -> Prop) (l1 l2 : list A) :
  prefix_of l1 l2 -> Forall P l2 -> Forall P l1.
Proof. intros [rest ->] H. apply Forall_app in H. tauto. Qed.

Lemma cells_app t1 t2 : cells (t1 ++ t2) = (cells t1 ++ cells t2)%list.
Proof. apply flat_map_app. Qed.

Lemma subplots_app t1 t2 :
  subplots (t1 ++ t2) = (subplots t1 ++ subplots t2)%list.
Proof. apply flat_map_app. Qed.

Lemma subplots_in_cells t c : In c (subplots t) -> In c (cells t).
Proof.
  unfold subplots, cells. rewrite !in_flat_map.
  intros [e [He Hc]]. exists e. split; [assumption|].
  destruct e; simpl in *; tauto.
Qed.

Lemma NoDup_cells_subplots t : NoDup (cells t) -> NoDup (subplots t).
Proof.
  induction t as [|e t IH]; simpl; intros H; [constructor|].
  change (cells (e :: t)) with (cell_of e ++ cells t)%list in H.
  change (subplots (e :: t)) with (subplot_of e ++ subplots t)%list.
  destruct e; simpl in *; auto.
  - inversion H; subst. constructor; auto using subplots_in_cells.
  - inversion H; subst. auto.
Qed.

Lemma segment_app_quiet t1 t2 :
  segment t2 = [] -> segment (t1 ++ t2) = segment t1.
Proof.
  intros H. induction t1 as [|e t1 IH]; simpl; [assumption|].
  destruct e; simpl; try assumption; try reflexivity; now rewrite IH.
Qed.

Lemma panels_app t1 t2 :
  segment t2 = [] -> panels (t1 ++ t2) = (panels t1 ++ panels t2)%list.
Proof.
  intros H. induction t1 as [|e t1 IH]; simpl; [reflexivity|].
  destruct e; simpl; try assumption.
  now rewrite IH, segment_app_quiet.
Qed.

Lemma panels_cells t : map fst (panels t) = subplots t.
Proof.
  induction t as [|e t IH]; simpl; [reflexivity|].
  destruct e; simpl; try assumption. now rewrite IH.
Qed.

Lemma panels_at_single (ps : list (Z * list event)) c evs :
  NoDup (map fst ps) -> In (c, evs) ps ->
  map snd (filter (fun p => fst p =? c) ps) = [evs].
Proof.
  induction ps as [|[c' e'] ps IH]; simpl; intros Hnd Hin; [tauto|].
  inversion Hnd as [|? ? Hnotin Hnd']; subst.
  destruct Hin as [Heq | Hin].
  - inversion Heq; subst. rewrite Z.eqb_refl. simpl. f_equal.
    assert (Hnone : forall l, ~ In c (map fst l) ->
              filter (fun p : Z * list event => fst p =? c) l = []).
    { induction l as [|[c2 e2] l IHl]; simpl; intros Hn; [reflexivity|].
      destruct (Z.eqb_spec c2 c); [subst; tauto|]. apply IHl. tauto. }
    now rewrite Hnone.
  - destruct (Z.eqb_spec c' c).
    + subst. exfalso. apply Hnotin. apply (in_map fst) in Hin. exact Hin.
    + auto.
Qed.

Lemma panels_at_unique t c evs :
  NoDup (cells t) -> In (c, evs) (panels t) -> panels_at t c = [evs].
Proof.
  intros Hnd Hin. apply panels_at_single; [|assumption].
  rewrite panels_cells. now apply NoDup_cells_subplots.
Qed.

Lemma filter_none {A} (f : A -> bool) l :
  Forall (fun x => f x = false) l -> filter f l = [].
Proof.
  induction 1 as [|x l Hx _ IH]; simpl; [reflexivity|]. now rewrite Hx.
Qed.

Lemma lifecycle_split e :
  is_lifecycle e = false ->
  is_figure e = false /\ is_grid e = false /\ is_save e = false.
Proof.
  unfold is_lifecycle. intros H.
  apply orb_false_iff in H. destruct H as [H H3].
  apply orb_false_iff in H. tauto.
Qed.

Lemma no_lifecycle t :
  Forall (fun e => is_lifecycle e = false) t ->
  created t = [] /\ grids t = [] /\ saved t = [].
Proof.
  intros H. unfold created, grids, saved.
  repeat split; apply filter_none; eapply Forall_impl; try exact H;
    intros e He; apply lifecycle_split in He; tauto.
Qed.

Ltac lifecycle_tac := repeat (constructor; try reflexivity).

(* ------------------------------------------------------------------ *)
(** ** Loops *)

Section LoopFacts.

Variables (R X St : Type).
Variable body : Z -> X -> St -> M R St.

Lemma for_enum_cons i x xs s r :
    for_enum i (x :: xs) s body r =
    bind (body i x s) (fun s' => for_enum (i + 1) xs s' body) r.
  Proof. reflexivity. Qed.

  (** A property of every logged event is inherited from the bodies. *)
Lemma for_enum_Forall (P : event -> Prop) :
    (forall i x s r, Forall P (log (body i x s r))) ->
    forall xs i s r, Forall P (log (for_enum i xs s body r)).
  Proof.
    intros Hb. induction xs as [|x xs IH]; intros i s r; simpl.
    - constructor.
    - rewrite log_bind. apply Forall_app. split; [apply Hb|].
      destruct (res (body i x s r)); [constructor | apply IH].
  Qed.

  (** If no body draws before opening a panel, neither does the loop. *)
Lemma for_enum_quiet :
    (forall i x s r, segment (log (body i x s r)) = []) ->
    forall xs i s r, segment (log (for_enum i xs s body r)) = [].
  Proof.
    intros Hq. induction xs as [|x xs IH]; intros i s r; simpl.
    - reflexivity.
    - rewrite log_bind.
      destruct (res (body i x s r)) as [e|s'].
      + rewrite app_nil_r. apply Hq.
      + rewrite segment_app_quiet by apply IH. apply Hq.
  Qed.

  (** The cells claimed by a run are a prefix of those of a complete run. *)
Lemma for_enum_cells (full : Z -> X -> list Z) :
    (forall i x s r, prefix_of (cells (log (body i x s r))) (full i x)) ->
    (forall i x s r, succeeds (body i x s r) ->
                     cells (log (body i x s r)) = full i x) ->
    forall xs i s r,
      prefix_of (cells (log (for_enum i xs s body r))) (enum_flat full i xs) /\
      (succeeds (for_enum i xs s body r) ->
       cells (log (for_enum i xs s body r)) = enum_flat full i xs).
  Proof.
    intros Hp Hs. induction xs as [|x xs IH]; intros i s r; simpl.
    - split; [apply prefix_of_refl | reflexivity].
    - rewrite log_bind, cells_app. unfold succeeds. rewrite res_bind.
      destruct (res (body i x s r)) as [e|s'] eqn:E.
      + simpl. rewrite app_nil_r. split.
        * apply prefix_of_app_l, Hp.
        * intros [a Ha]. discriminate.
      + rewrite (Hs i x s r) by (eexists; eassumption).
        destruct (IH (i + 1) s' (rnd (body i x s r))) as [IH1 IH2]. split.
        * now apply prefix_of_app_r.
        * intros H. now rewrite IH2.
  Qed.

  (** A loop whose bodies all succeed succeeds. *)
Lemma for_enum_succeeds xs :
    Forall (fun x => forall i s r, succeeds (body i x s r)) xs ->
    forall i s r, succeeds (for_enum i xs s body r).
  Proof.
    induction 1 as [|x xs Hx _ IH]; intros i s r; simpl.
    - now exists s.
    - unfold succeeds. rewrite res_bind.
      destruct (Hx i s r) as [s' ->]. apply IH.
  Qed.

  (** In a successful loop, every iteration ran to its end, and (when bodies
      open their own panels) its panels are panels of the whole. *)
Lemma for_enum_panels :
    (forall i x s r, segment (log (body i x s r)) = []) ->
    forall xs i s r k x,
      succeeds (for_enum i xs s body r) ->
      nth_error xs k = Some x ->
      exists s_k r_k,
        succeeds (body (i + Z.of_nat k) x s_k r_k) /\
        incl (panels (log (body (i + Z.of_nat k) x s_k r_k)))
             (panels (log (for_enum i xs s body r))).
  Proof.
    intros Hq. induction xs as [|x0 xs IH]; intros i s r k x Hok Hk.
    - destruct k; discriminate.
    - simpl in Hok |- *. unfold succeeds in Hok. rewrite res_bind in Hok.
      rewrite log_bind.
      destruct (res (body i x0 s r)) as [e|s'] eqn:E;
        [destruct Hok; discriminate|].
      rewrite panels_app by (apply for_enum_quiet; assumption).
      destruct k as [|k]; simpl in Hk.
      + inversion Hk; subst. exists s, r. rewrite Z.add_0_r. split.
        * eexists; eassumption.
        * apply incl_appl, incl_refl.
      + destruct (IH (i + 1) s' (rnd (body i x0 s r)) k x Hok Hk)
          as [s_k [r_k [H1 H2]]].
        exists s_k, r_k.
        replace (i + Z.of_nat (S k)) with (i + 1 + Z.of_nat k) by lia.
        split; [assumption|]. now apply incl_appr.
  Qed.

End LoopFacts.

(* ------------------------------------------------------------------ *)
(** ** Cell lists of complete runs *)

Lemma Zlen_cons {A} (x : A) (xs : list A) : Zlen (x :: xs) = Zlen xs + 1.
Proof. unfold Zlen. simpl length. lia. Qed.

Lemma Zlen_nonneg {A} (xs : list A) : 0 <= Zlen xs.
Proof. unfold Zlen. lia. Qed.

Lemma Zlen_nth_error {A} (xs : list A) k x :
  nth_error xs k = Some x -> 0 <= Z.of_nat k < Zlen xs.
Proof.
  intros H. assert (k < length xs)%nat by (apply nth_error_Some; congruence).
  unfold Zlen. lia.
Qed.

Section EnumFlat.

Variable X : Type.
Variable full : Z -> X -> list Z.

  (** [key] recovers, from a cell, the iteration that claims it. *)
Variable key : Z -> Z.
Variables lo hi : Z.
Hypothesis key_full :
    forall i x c, lo <= i < hi -> In c (full i x) -> key c = i.
Hypothesis NoDup_full : forall i x, lo <= i < hi -> NoDup (full i x).

Lemma enum_flat_key xs : forall i c,
    lo <= i -> i + Zlen xs <= hi ->
    In c (enum_flat full i xs) -> i <= key c < i + Zlen xs.
  Proof.
    induction xs as [|x xs IH]; simpl; intros i c Hlo Hhi Hin; [tauto|].
    rewrite Zlen_cons in *. pose proof (Zlen_nonneg xs).
    apply in_app_or in Hin. destruct Hin as [Hin | Hin].
    - rewrite (key_full i x c) by (assumption || lia). lia.
    - apply IH in Hin; lia.
  Qed.

Lemma enum_flat_NoDup xs : forall i,
    lo <= i -> i + Zlen xs <= hi -> NoDup (enum_flat full i xs).
  Proof.
    induction xs as [|x xs IH]; simpl; intros i Hlo Hhi; [constructor|].
    rewrite Zlen_cons in *. pose proof (Zlen_nonneg xs).
    assert (Hd : forall c, In c (full i x) ->
                 ~ In c (enum_flat full (i + 1) xs)).
    { intros c H1 H2. apply enum_flat_key in H2; try lia.
      rewrite (key_full i x c) in H2 by (assumption || lia). lia. }
    assert (H1 : NoDup (full i x)) by (apply NoDup_full; lia).
    assert (H2 : NoDup (enum_flat full (i + 1) xs)) by (apply IH; lia).
    clear - Hd H1 H2. induction H1 as [|c l Hc _ IHl]; simpl; [assumption|].
    constructor.
    - rewrite in_app_iff. intros [H | H]; [tauto|].
      apply (Hd c); simpl; auto.
    - apply IHl. intros c' Hc'. apply Hd. simpl. auto.
  Qed.

Lemma enum_flat_Forall (P : Z -> Prop) xs : forall i,
    lo <= i -> i + Zlen xs <= hi ->
    (forall j x c, lo <= j < hi -> In c (full j x) -> P c) ->
    Forall P (enum_flat full i xs).
  Proof.
    induction xs as [|x xs IH]; simpl; intros i Hlo Hhi HP; [constructor|].
    rewrite Zlen_cons in *. pose proof (Zlen_nonneg xs).
    apply Forall_app. split.
    - apply Forall_forall. intros c Hc. apply (HP i x); [lia | assumption].
    - apply IH; [lia | lia | assumption].
  Qed.

End EnumFlat.

(* ------------------------------------------------------------------ *)
(** ** plot_scene_overview *)

Section SceneOverview.

Variable R : Type.
Variable env : Env R.
Variables (fs cols : Z).

Lemma scene_overview_body_quiet i s u r :
    segment (log (scene_overview_body env fs cols i s u r)) = [].
  Proof.
    unfold scene_overview_body.
    destruct (Scene.get_center_view s); cbn; reflexivity.
  Qed.

Lemma scene_overview_body_run i s u r cv g :
    Scene.get_center_view s = inr cv -> Scene.get_gt s = inr g ->
    res (scene_overview_body env fs cols i s u r) = inr tt /\
    panels (log (scene_overview_body env fs cols i s u r)) =
      [(i, [plt_imshow (Color cv) no_args]); (cols + i, gt_panel env r s g)].
  Proof.
    intros H1 H2. unfold scene_overview_body, gt_panel. rewrite H1, H2.
    destruct (Scene.hidden_gt s); cbn; split; reflexivity.
  Qed.

Lemma scene_overview_body_cells i s u r :
    prefix_of (cells (log (scene_overview_body env fs cols i s u r)))
              (scene_overview_cells cols i s) /\
    (succeeds (scene_overview_body env fs cols i s u r) ->
     cells (log (scene_overview_body env fs cols i s u r)) =
     scene_overview_cells cols i s).
  Proof.
    unfold scene_overview_body, scene_overview_cells, succeeds.
    destruct (Scene.get_center_view s); cbn.
    - split; [apply prefix_of_nil | intros [a Ha]; discriminate].
    - destruct (Scene.get_gt s); cbn.
      + split; [| intros [a Ha]; discriminate].
        apply prefix_of_cons, prefix_of_nil.
      + destruct (Scene.hidden_gt s); cbn;
          (split; [apply prefix_of_refl | reflexivity]).
  Qed.

Lemma scene_overview_cells_facts xs :
    Zlen xs <= cols ->
    NoDup (enum_flat (scene_overview_cells cols) 0 xs) /\
    Forall (fun c => 0 <= c < 2 * cols) (enum_flat (scene_overview_cells cols) 0 xs).
  Proof.
    intros Hlen. split.
    - apply enum_flat_NoDup with (key := fun c => c mod cols) (lo := 0)
                                 (hi := cols); try lia.
      + intros i x c Hi [<- | [<- | []]].
        * apply Z.mod_small; lia.
        * rewrite Z.add_comm, <- (Z.mul_1_l cols) at 1.
          rewrite Z.mod_add by lia. apply Z.mod_small; lia.
      + intros i x Hi. unfold scene_overview_cells.
        repeat constructor; simpl; lia.
    - apply enum_flat_Forall with (lo := 0) (hi := cols); try lia.
      intros j x c Hj [<- | [<- | []]]; lia.
  Qed.


Lemma scene_overview_body_succeeds s :
    scene_loaded s ->
    forall i u r, succeeds (scene_overview_body env fs cols i s u r).
  Proof.
    intros [[cv Hcv] [g Hg]] i u r. exists tt.
    now destruct (scene_overview_body_run i s u r cv g Hcv Hg).
  Qed.

End SceneOverview.

Section SceneOverviewRun.

Variable R : Type.
Variable env : Env R.

Lemma plot_scene_overview_run scenes subdir fs r :
    Forall scene_loaded scenes ->
    let o := plot_scene_overview env scenes subdir fs r in
    let cols := Zlen scenes in
    res o = inr tt /\
    cells (log o) = enum_flat (scene_overview_cells cols) 0 scenes /\
    forall k s, nth_error scenes k = Some s ->
      exists cv g r_k,
        Scene.get_center_view s = inr cv /\ Scene.get_gt s = inr g /\
        In (Z.of_nat k, [plt_imshow (Color cv) no_args]) (panels (log o)) /\
        In (cols + Z.of_nat k, gt_panel env r_k s g) (panels (log o)).
  Proof.
    intros Hload. cbn zeta.
    set (body := scene_overview_body env fs (Zlen scenes)).
    assert (Hok : succeeds (for_enum 0 scenes tt body r)).
    { apply for_enum_succeeds.
      eapply Forall_impl; [|exact Hload]. intros s Hs i u r0.
      now apply scene_overview_body_succeeds. }
    destruct Hok as [u Hu].
    assert (Hcells : cells (log (for_enum 0 scenes tt body r)) =
                     enum_flat (scene_overview_cells (Zlen scenes)) 0 scenes).
    { apply (for_enum_cells _ _ _ body (scene_overview_cells (Zlen scenes))).
      - intros. apply scene_overview_body_cells.
      - intros. now apply scene_overview_body_cells.
      - now exists u. }
    unfold plot_scene_overview. fold body. cbn.
    rewrite res_bind, log_bind, Hu. cbn.
    split; [reflexivity|]. split.
    - rewrite cells_app, Hcells. cbn. apply app_nil_r.
    - intros k s Hk.
      destruct (for_enum_panels _ _ _ body
                  (scene_overview_body_quiet R env fs (Zlen scenes))
                  scenes 0 tt r k s) as [u_k [r_k [_ Hincl]]];
        [now exists u | assumption |].
      rewrite Forall_forall in Hload.
      destruct (Hload s (nth_error_In _ _ Hk)) as [[cv Hcv] [g Hg]].
      exists cv, g, r_k. split; [assumption|]. split; [assumption|].
      rewrite panels_app by reflexivity.
      destruct (scene_overview_body_run R env fs (Zlen scenes)
                  (0 + Z.of_nat k) s u_k r_k cv g Hcv Hg) as [_ Hp].
      fold body in Hp. rewrite Hp in Hincl. rewrite Z.add_0_l in Hincl.
      split; apply in_or_app; left; apply Hincl; simpl; auto.
  Qed.

End SceneOverviewRun.

Section SceneOverviewClaims.

Variable R : Type.
Variable env : Env R.

Lemma scene_overview_body_lifecycle fs cols i s u r :
  Forall (fun e => is_lifecycle e = false)
         (log (scene_overview_body env fs cols i s u r)).
Proof.
  unfold scene_overview_body.
  destruct (Scene.get_center_view s); cbn; [constructor|].
  destruct (Scene.get_gt s); cbn; [lifecycle_tac|].
  destruct (Scene.hidden_gt s); cbn; lifecycle_tac.
Qed.

Lemma plot_scene_overview_grids scenes subdir fs r :
    succeeds (plot_scene_overview env scenes subdir fs r) ->
    grids (log (plot_scene_overview env scenes subdir fs r)) =
    [prepare_grid 2 (Zlen scenes)].
  Proof.
    unfold succeeds, plot_scene_overview, grids. cbn.
    rewrite res_bind, log_bind. intros [a Ha]. f_equal.
    rewrite filter_app.
    match goal with
    | |- context [log (for_enum ?i ?xs ?s ?b r)] =>
        destruct (no_lifecycle (log (for_enum i xs s b r))) as [_ [Hg _]];
        [apply for_enum_Forall; intros; apply scene_overview_body_lifecycle|]
    end.
    unfold grids in Hg. rewrite Hg.
    destruct (res (for_enum _ _ _ _ _)); [discriminate | reflexivity].
  Qed.

Lemma plot_scene_overview_panels_at scenes subdir fs r :
    Forall scene_loaded scenes ->
    let o := plot_scene_overview env scenes subdir fs r in
    let cols := Zlen scenes in
    forall k s, nth_error scenes k = Some s ->
      exists cv g r_k,
        Scene.get_center_view s = inr cv /\ Scene.get_gt s = inr g /\
        panels_at (log o) (Z.of_nat k) = [[plt_imshow (Color cv) no_args]] /\
        panels_at (log o) (cols + Z.of_nat k) = [gt_panel env r_k s g].
  Proof.
    intros Hload o cols k s Hk.
    destruct (plot_scene_overview_run R env scenes subdir fs r Hload)
      as [_ [Hcells Hpanels]].
    destruct (Hpanels k s Hk) as [cv [g [r_k [Hcv [Hg [H1 H2]]]]]].
    assert (Hnd : NoDup (cells (log o))).
    { subst o. rewrite Hcells.
      apply scene_overview_cells_facts. lia. }
    exists cv, g, r_k. repeat split; try assumption;
      now apply panels_at_unique.
  Qed.

  (** C7. For every list of scenes whose data loads, [plot_scene_overview]
      returns, prepares exactly one grid, of 2 rows and [len(scenes)]
      columns, and for the scene at position [k] draws the center view on the
      panel at row 0, column [k] and the ground-truth panel (the disparity
      map, or its obscured rendering for a hidden scene) at row 1, column
      [k]. *)
Theorem scene_overview_grid scenes subdir fs r :
    Forall scene_loaded scenes ->
    let o := plot_scene_overview env scenes subdir fs r in
    let cols := Zlen scenes in
    succeeds o /\
    grids (log o) = [prepare_grid 2 cols] /\
    forall k s, nth_error scenes k = Some s ->
      exists cv g r_k,
        Scene.get_center_view s = inr cv /\ Scene.get_gt s = inr g /\
        panels_at (log o) (Z.of_nat k) = [[plt_imshow (Color cv) no_args]] /\
        grid_row cols (Z.of_nat k) = 0 /\
        grid_col cols (Z.of_nat k) = Z.of_nat k /\
        panels_at (log o) (cols + Z.of_nat k) = [gt_panel env r_k s g] /\
        grid_row cols (cols + Z.of_nat k) = 1 /\
        grid_col cols (cols + Z.of_nat k) = Z.of_nat k.
  Proof.
    intros Hload o cols.
    assert (Hok : succeeds o).
    { exists tt. apply (plot_scene_overview_run R env scenes subdir fs r Hload). }
    split; [assumption|]. split.
    { now apply plot_scene_overview_grids. }
    intros k s Hk.
    destruct (plot_scene_overview_panels_at scenes subdir fs r Hload k s Hk)
      as [cv [g [r_k [Hcv [Hg [H1 H2]]]]]].
    pose proof (Zlen_nth_error scenes k s Hk) as Hrange. fold cols in Hrange.
    exists cv, g, r_k. unfold grid_row, grid_col.
    repeat split; try assumption.
    - apply Z.div_small; lia.
    - apply Z.mod_small; lia.
    - symmetry. apply (Z.div_unique _ _ 1 (Z.of_nat k)); lia.
    - symmetry. apply (Z.mod_unique _ _ 1 (Z.of_nat k)); lia.
  Qed.

  (** C2. In [plot_scene_overview], the ground-truth panel of the scene at
      position [k] goes through [plotting.pixelize] (noise factor 0.5) if and
      only if the scene is flagged hidden: a hidden scene shows the output of
      pixelize, a scene that is not hidden shows its ground truth
      unmodified. *)
Theorem hidden_gt_iff_obscured scenes subdir fs r :
    Forall scene_loaded scenes ->
    let o := plot_scene_overview env scenes subdir fs r in
    let cols := Zlen scenes in
    forall k s, nth_error scenes k = Some s ->
      exists g r_k drawn,
        Scene.get_gt s = inr g /\
        panels_at (log o) (cols + Z.of_nat k) = [drawn] /\
        (Scene.hidden_gt s = true <-> In (pixelize_call g (1 # 2)) drawn) /\
        (Scene.hidden_gt s = true ->
         drawn = [pixelize_call g (1 # 2);
                  plt_imshow (Scalar (fst (pixelize env r_k g (1 # 2))))
                    (disp_map_args s)]) /\
        (Scene.hidden_gt s = false ->
         drawn = [plt_imshow (Scalar g) (disp_map_args s)]).
  Proof.
    intros Hload o cols k s Hk.
    destruct (plot_scene_overview_panels_at scenes subdir fs r Hload k s Hk)
      as [cv [g [r_k [Hcv [Hg [H1 H2]]]]]].
    exists g, r_k, (gt_panel env r_k s g).
    split; [assumption|]. split; [assumption|].
    unfold gt_panel. destruct (Scene.hidden_gt s); simpl.
    - repeat split; auto; discriminate.
    - repeat split; try discriminate; auto.
      intros [H | []]. discriminate.
  Qed.

End SceneOverviewClaims.

(* ------------------------------------------------------------------ *)
(** ** Integer arithmetic of the layouts *)

Lemma Qceiling_div a b :
  Qceiling (inject_Z a / inject_Z b) = - ((- a) / b).
Proof.
  unfold Qceiling. f_equal. rewrite Zdiv_Qdiv. apply Qfloor_comp.
  rewrite inject_Z_opp. unfold Qdiv. ring.
Qed.

Lemma n_entries_per_row_spec n n_rows :
  0 <= n -> 1 <= n_rows ->
  1 <= n_entries_per_row n n_rows /\
  n + 1 <= n_rows * n_entries_per_row n n_rows.
Proof.
  intros Hn Hr. unfold n_entries_per_row. rewrite Qceiling_div.
  pose proof (Z.div_mod (- (n + 1)) n_rows ltac:(lia)).
  pose proof (Z.mod_pos_bound (- (n + 1)) n_rows ltac:(lia)).
  split; nia.
Qed.

Lemma cell_row cols row col :
  0 <= col < cols -> (row * cols + col) / cols = row.
Proof.
  intros H. rewrite Z.div_add_l by lia. rewrite Z.div_small by lia. lia.
Qed.

Lemma cell_col cols row col :
  0 <= col < cols -> (row * cols + col) mod cols = col.
Proof.
  intros H. rewrite Z.add_comm, Z.mod_add by lia. apply Z.mod_small; lia.
Qed.

Lemma last_column E idx :
  1 <= E -> (idx + 1) mod E = 0 -> idx mod E = E - 1.
Proof.
  intros HE H.
  pose proof (Z.div_mod idx E ltac:(lia)).
  pose proof (Z.mod_pos_bound idx E ltac:(lia)).
  pose proof (Z.div_mod (idx + 1) E ltac:(lia)).
  rewrite H in *. 
  assert (E * ((idx + 1) / E - idx / E) = idx mod E + 1) by lia.
  assert (((idx + 1) / E - idx / E) = 1) by nia. lia.
Qed.

Section DiscontCells.

Variables (E cols : Z).
Hypothesis HE : 1 <= E.
Hypothesis Hcols : cols = E + 1.

Lemma discont_key_panel row col :
    0 <= col < E -> discont_key E cols ((row * 2) * cols + col) = row * E + col - 1
                 /\ discont_key E cols ((row * 2 + 1) * cols + col)
                    = row * E + col - 1.
  Proof.
    intros Hc. unfold discont_key.
    rewrite !cell_row, !cell_col by lia.
    rewrite Z.div_mul by lia.
    destruct (Z.eqb_spec col E); [lia|]. split; lia.
  Qed.

Lemma discont_key_colorbar row :
    discont_key E cols ((row * 2) * cols + (E - 1) + 1) = row * E + (E - 1) - 1
    /\ discont_key E cols ((row * 2 + 1) * cols + (E - 1) + 1)
       = row * E + (E - 1) - 1.
  Proof.
    unfold discont_key.
    replace (row * 2 * cols + (E - 1) + 1) with (row * 2 * cols + E) by lia.
    replace ((row * 2 + 1) * cols + (E - 1) + 1)
      with ((row * 2 + 1) * cols + E) by lia.
    rewrite !cell_row, !cell_col by lia.
    rewrite Z.div_mul by lia. rewrite Z.eqb_refl. split; lia.
  Qed.

Lemma discont_cells_cases i x c :
    In c (discont_cells E cols i x) ->
    let q := (i + 1) / E in
    let m := (i + 1) mod E in
    (c = q * 2 * cols + m \/ c = (q * 2 + 1) * cols + m) \/
    (m = E - 1 /\
     (c = q * 2 * cols + (E - 1) + 1 \/ c = (q * 2 + 1) * cols + (E - 1) + 1)).
  Proof.
    unfold discont_cells, Py.not_.
    destruct (Z.eqb_spec ((i + 1 + 1) mod E) 0) as [H0 | H0];
      simpl; intros Hin.
    - apply last_column in H0; [|assumption].
      rewrite H0 in *. intuition.
    - intuition.
  Qed.

Lemma discont_cells_key i x c :
    0 <= i -> In c (discont_cells E cols i x) -> discont_key E cols c = i.
  Proof.
    intros Hi Hin. apply discont_cells_cases in Hin. cbn zeta in Hin.
    pose proof (Z.div_mod (i + 1) E ltac:(lia)) as Hdm.
    pose proof (Z.mod_pos_bound (i + 1) E ltac:(lia)) as Hm.
    destruct Hin as [[-> | ->] | [Hlast [-> | ->]]].
    - rewrite (proj1 (discont_key_panel _ _ Hm)). lia.
    - rewrite (proj2 (discont_key_panel _ _ Hm)). lia.
    - rewrite (proj1 (discont_key_colorbar _)). lia.
    - rewrite (proj2 (discont_key_colorbar _)). lia.
  Qed.

Lemma discont_cells_range n_rows i x c :
    0 <= i -> i + 1 < n_rows * E ->
    In c (discont_cells E cols i x) -> 0 <= c < 2 * n_rows * cols.
  Proof.
    intros Hi Hlt Hin. apply discont_cells_cases in Hin. cbn zeta in Hin.
    pose proof (Z.div_mod (i + 1) E ltac:(lia)) as Hdm.
    pose proof (Z.mod_pos_bound (i + 1) E ltac:(lia)) as Hm.
    assert (Hq : 0 <= (i + 1) / E) by (apply Z.div_pos; lia).
    assert (Hq' : (i + 1) / E < n_rows).
    { apply Z.div_lt_upper_bound; lia. }
    destruct Hin as [[-> | ->] | [Hlast [-> | ->]]]; nia.
  Qed.

Lemma discont_cells_NoDup i x : NoDup (discont_cells E cols i x).
  Proof.
    unfold discont_cells.
    pose proof (Z.mod_pos_bound (i + 1) E ltac:(lia)) as Hm.
    destruct (Py.not_ ((i + 1 + 1) mod E)); simpl;
      repeat constructor; simpl; nia.
  Qed.

End DiscontCells.

Ltac prefix_tac :=
  repeat first [ apply prefix_of_refl | apply prefix_of_nil
               | apply prefix_of_cons ].

Ltac no_success :=
  let a := fresh in let H := fresh in intros [a H]; discriminate H.

(* ------------------------------------------------------------------ *)
(** ** plot_discont_overview *)

Section Discont.

Variable R : Type.
Variable env : Env R.
Variables (scene : Scene.t) (fs xmin ymin ww E cols : Z).
Variables (cb_height cb_width : Q) (gt median_result : array).

Local Abbreviation body :=
  (discont_body env scene fs xmin ymin ww 2 E cols cb_height cb_width
      gt median_result).

Lemma discont_body_cells i a u r :
    prefix_of (cells (log (body i a u r))) (discont_cells E cols i a) /\
    (succeeds (body i a u r) ->
     cells (log (body i a u r)) = discont_cells E cols i a).
  Proof.
    unfold discont_body, discont_cells, succeeds.
    destruct (get_algo_result env scene a) as [e|ar]; cbn;
      [split; [prefix_tac | no_success]|].
    unfold Py.mod_, Py.floordiv. destruct (Z.eqb_spec E 0); cbn;
      [split; [prefix_tac | no_success]|].
    unfold when.
    destruct (Py.not_ ((i + 1) mod E)), (Py.not_ ((i + 1 + 1) mod E)),
      (median_diff_of median_result gt ar); cbn;
      (split; [prefix_tac | try no_success; reflexivity]).
  Qed.

Lemma discont_body_quiet i a u r : segment (log (body i a u r)) = [].
  Proof.
    unfold discont_body.
    destruct (get_algo_result env scene a) as [e|ar]; cbn; [reflexivity|].
    unfold Py.mod_, Py.floordiv. destruct (Z.eqb_spec E 0); cbn; reflexivity.
  Qed.

End Discont.

Section DiscontRun.

Variable R : Type.
Variable env : Env R.

Lemma plot_discont_overview_cells algorithms scene n_rows fs subdir
      xmin ymin ww r :
    n_rows <> 0 ->
    let E := n_entries_per_row (Zlen algorithms) n_rows in
    prefix_of
      (cells (log (plot_discont_overview env algorithms scene n_rows fs subdir
                     xmin ymin ww r)))
      (discont_all_cells E algorithms).
  Proof.
    intros Hr E. unfold plot_discont_overview, Py.ceil_fdiv.
    destruct (Z.eqb_spec n_rows 0); [contradiction|]. cbn.
    fold (n_entries_per_row (Zlen algorithms) n_rows). fold E.
    destruct (Scene.get_gt scene) as [e|gt]; cbn; [prefix_tac|].
    destruct (get_algo_result env scene (PerPixMedianDiff env)) as [e|med];
      cbn; [prefix_tac|].
    destruct (Scene.get_center_view scene) as [e|cv]; cbn; [prefix_tac|].
    unfold discont_all_cells. do 2 apply prefix_of_cons.
    rewrite log_bind, cells_app.
    match goal with
    | |- context [for_enum 0 algorithms tt ?b r] =>
        destruct (for_enum_cells _ _ _ b (discont_cells E (E + 1))
                    (fun i x s r0 => proj1 (discont_body_cells R env scene fs
                       xmin ymin ww E (E + 1) _ _ gt med i x s r0))
                    (fun i x s r0 => proj2 (discont_body_cells R env scene fs
                       xmin ymin ww E (E + 1) _ _ gt med i x s r0))
                    algorithms 0 tt r) as [Hp Hs];
        destruct (res (for_enum 0 algorithms tt b r)) as [e|u] eqn:Eres
    end.
    - rewrite app_nil_r. exact Hp.
    - cbn. rewrite app_nil_r. rewrite Hs by (eexists; exact Eres).
      apply prefix_of_refl.
  Qed.

Lemma discont_all_cells_facts algorithms n_rows :
    1 <= n_rows ->
    let E := n_entries_per_row (Zlen algorithms) n_rows in
    NoDup (discont_all_cells E algorithms) /\
    Forall (fun c => 0 <= c < (2 * n_rows) * (E + 1))
           (discont_all_cells E algorithms).
  Proof.
    intros Hr E.
    destruct (n_entries_per_row_spec (Zlen algorithms) n_rows
                (Zlen_nonneg _) Hr) as [HE Hfit]. fold E in HE, Hfit.
    assert (Hkey : forall i x c, 0 <= i < Zlen algorithms ->
              In c (discont_cells E (E + 1) i x) ->
              discont_key E (E + 1) c = i).
    { intros i x c Hi. apply discont_cells_key; lia. }
    assert (Hin : forall c, In c (enum_flat (discont_cells E (E + 1)) 0
                                    algorithms) ->
              0 <= discont_key E (E + 1) c).
    { intros c Hc.
      apply (enum_flat_key _ _ _ 0 (Zlen algorithms) Hkey) in Hc; lia. }
    assert (H0 : discont_key E (E + 1) 0 = -1).
    { destruct (discont_key_panel E (E + 1) eq_refl 0 0) as [H _]; [lia|].
      replace (0 * 2 * (E + 1) + 0) with 0 in H by lia. rewrite H. lia. }
    assert (H1 : discont_key E (E + 1) (E + 1) = -1).
    { destruct (discont_key_panel E (E + 1) eq_refl 0 0) as [_ H]; [lia|].
      replace ((0 * 2 + 1) * (E + 1) + 0) with (E + 1) in H by lia.
      rewrite H. lia. }
    unfold discont_all_cells. split.
    - constructor.
      + intros [H | H]; [lia|]. apply Hin in H. lia.
      + constructor.
        * intros H. apply Hin in H. lia.
        * apply (enum_flat_NoDup _ _ _ 0 (Zlen algorithms) Hkey); try lia.
          intros i x Hi. apply discont_cells_NoDup; lia.
    - constructor; [nia|]. constructor; [nia|].
      apply (enum_flat_Forall _ _ 0 (Zlen algorithms)); try lia.
      intros j x c Hj Hc. replace (2 * n_rows * (E + 1)) with
        (2 * n_rows * (E + 1)) by reflexivity.
      apply (discont_cells_range E (E + 1) HE eq_refl n_rows j x); try lia.
      exact Hc.
  Qed.

End DiscontRun.

(* ------------------------------------------------------------------ *)
(** ** plot_median_comparisons *)

Lemma for_enum_last_index R X (body : Z -> X -> option Z -> M R (option Z)) :
  (forall i x s r v, res (body i x s r) = inr v -> v = Some i) ->
  forall xs i s r v,
    xs <> [] ->
    res (for_enum i xs s body r) = inr v -> v = Some (i + Zlen xs - 1).
Proof.
  intros Hb. induction xs as [|x xs IH]; intros i s r v Hne Hres;
    [contradiction|].
  simpl in Hres. rewrite res_bind in Hres. rewrite Zlen_cons.
  destruct (res (body i x s r)) as [e|s'] eqn:E; [discriminate|].
  apply Hb in E. subst s'.
  destruct xs as [|x' xs'].
  - simpl in Hres. inversion Hres. f_equal. unfold Zlen. simpl. lia.
  - apply IH in Hres; [|discriminate]. rewrite Hres. f_equal. lia.
Qed.

Section Median.

Variable R : Type.
Variable env : Env R.
Variables (fs cols : Z) (cb_height cb_width : Q).

Section AlgoRow.

Variables (scene : Scene.t) (idx_s : Z) (add_label add_colorbar_ : bool).
Variables (gt med : array).

Local Abbreviation body :=
  (median_algo_body env scene fs cols idx_s add_label add_colorbar_
        cb_height cb_width gt med).

Lemma median_algo_body_cells i a s r :
      prefix_of (cells (log (body i a s r)))
                (median_algo_cells cols idx_s add_colorbar_ i a) /\
      (succeeds (body i a s r) ->
       cells (log (body i a s r)) =
       median_algo_cells cols idx_s add_colorbar_ i a).
    Proof.
      unfold median_algo_body, median_algo_cells, succeeds, when.
      destruct (get_algo_result env scene a) as [e|ar]; cbn;
        [split; [prefix_tac | no_success]|].
      destruct (i =? 0), add_label, (Np.sub gt ar) as [e1|err]; cbn;
        try (split; [prefix_tac | no_success]);
        destruct (median_diff_of med gt ar) as [e2|md]; cbn;
        try (split; [prefix_tac | no_success]);
        destruct add_colorbar_; cbn;
        try destruct (i mod 2 =? 0); cbn;
        (split; [prefix_tac | reflexivity]).
    Qed.

Lemma median_algo_body_quiet i a s r : segment (log (body i a s r)) = [].
    Proof.
      unfold median_algo_body.
      destruct (get_algo_result env scene a) as [e|ar]; cbn; reflexivity.
    Qed.

Lemma median_algo_body_value i a s r v :
      res (body i a s r) = inr v -> v = Some i.
    Proof.
      unfold median_algo_body, when.
      destruct (get_algo_result env scene a) as [e|ar]; cbn;
        [discriminate|].
      destruct (i =? 0), add_label, (Np.sub gt ar) as [e1|err]; cbn;
        try discriminate;
        destruct (median_diff_of med gt ar) as [e2|md]; cbn;
        try discriminate;
        destruct add_colorbar_; cbn;
        try destruct (i mod 2 =? 0); cbn; congruence.
    Qed.

End AlgoRow.

Section SceneBlock.

Variables (algorithms : list Algorithm.t) (with_gt_row : bool).
Variable n_scenes : Z.

Local Abbreviation body :=
  (median_scene_body env algorithms with_gt_row fs cols n_scenes
        cb_height cb_width).

Lemma median_scene_body_cells i scene vars r :
      algorithms <> [] ->
      prefix_of (cells (log (body i scene vars r)))
                (median_scene_cells algorithms with_gt_row cols n_scenes
                   i scene) /\
      (succeeds (body i scene vars r) ->
       cells (log (body i scene vars r)) =
       median_scene_cells algorithms with_gt_row cols n_scenes i scene).
    Proof.
      intros Hne.
      unfold median_scene_body, median_scene_cells, succeeds.
      destruct (Scene.get_gt scene) as [e|gt]; cbn;
        [split; [prefix_tac | no_success]|].
      destruct (get_algo_result env scene (PerPixMedianDiff env)) as [e|med];
        cbn; [split; [prefix_tac | no_success]|].
      rewrite log_bind, res_bind, cells_app.
      match goal with
      | |- context [for_enum 0 algorithms ?s0 ?b r] =>
          destruct (for_enum_cells _ _ _ b
                      (median_algo_cells cols i (i =? n_scenes - 1))
                      (fun j x s r0 => proj1 (median_algo_body_cells
                         scene i (i =? 0) (i =? n_scenes - 1) gt med j x s r0))
                      (fun j x s r0 => proj2 (median_algo_body_cells
                         scene i (i =? 0) (i =? n_scenes - 1) gt med j x s r0))
                      algorithms 0 s0 r) as [Hp Hs];
          pose proof (for_enum_last_index _ _ b
                        (median_algo_body_value scene i (i =? 0)
                           (i =? n_scenes - 1) gt med)
                        algorithms 0 s0 r) as Hlast;
          destruct (res (for_enum 0 algorithms s0 b r)) as [e|idx_a] eqn:Eres
      end.
      - rewrite app_nil_r. split; [|no_success]. now apply prefix_of_app_l.
      - rewrite Hs by (eexists; exact Eres).
        rewrite (Hlast idx_a Hne eq_refl).
        replace (0 + Zlen algorithms - 1) with (Zlen algorithms - 1) by lia.
        destruct with_gt_row; cbn.
        + replace (Zlen algorithms - 1 + 1) with (Zlen algorithms) by lia.
          unfold median_gt_cells, when.
          destruct (i =? 0), (Np.sub gt med) as [e|d]; cbn;
            try (split; [apply prefix_of_app_r; prefix_tac | no_success]);
            destruct (i =? n_scenes - 1); cbn;
            (split; [apply prefix_of_refl | reflexivity]).
        + rewrite app_nil_r. split; [apply prefix_of_refl | reflexivity].
    Qed.

End SceneBlock.

End Median.

Lemma enum_flat_In {X} (full : Z -> X -> list Z) xs : forall i c,
  In c (enum_flat full i xs) ->
  exists j x, i <= j < i + Zlen xs /\ In c (full j x).
Proof.
  induction xs as [|x xs IH]; simpl; intros i c Hin; [tauto|].
  rewrite Zlen_cons. pose proof (Zlen_nonneg xs).
  apply in_app_or in Hin. destruct Hin as [Hin | Hin].
  - exists i, x. split; [lia | assumption].
  - destruct (IH _ _ Hin) as [j [y [Hj Hy]]]. exists j, y. split; [lia|].
    assumption.
Qed.

Section MedianCells.

Variables (algorithms : list Algorithm.t) (with_gt_row : bool).
Variables (n_scenes cols : Z).
Hypothesis Hcols : cols = n_scenes * 3 + 1.

Local Abbreviation rows := (Zlen algorithms + Py.int_of_bool with_gt_row).

Lemma median_algo_cells_cases i cb a x c :
    In c (median_algo_cells cols i cb a x) ->
    exists j, c = a * cols + 3 * i + j /\ (0 <= j <= 2 \/ (j = 3 /\ cb = true)).
  Proof.
    unfold median_algo_cells. destruct cb; simpl; intros Hin.
    - destruct Hin as [<- | [<- | [<- | [<- | []]]]];
        [exists 0 | exists 1 | exists 2 | exists 3]; split; lia || auto.
    - destruct Hin as [<- | [<- | [<- | []]]];
        [exists 0 | exists 1 | exists 2]; split; lia || auto.
  Qed.

Lemma median_gt_cells_cases i cb a c :
    In c (median_gt_cells cols i cb a) ->
    exists j, c = a * cols + 3 * i + j /\ (0 <= j <= 2 \/ (j = 3 /\ cb = true)).
  Proof.
    unfold median_gt_cells. destruct cb; simpl; intros Hin.
    - destruct Hin as [<- | [<- | [<- | []]]];
        [exists 0 | exists 1 | exists 3]; split; lia || auto.
    - destruct Hin as [<- | [<- | []]];
        [exists 0 | exists 1]; split; lia || auto.
  Qed.

Lemma median_scene_cells_cases i x c :
    In c (median_scene_cells algorithms with_gt_row cols n_scenes i x) ->
    exists a j,
      0 <= a < rows /\ c = a * cols + 3 * i + j /\
      (0 <= j <= 2 \/ (j = 3 /\ i = n_scenes - 1)).
  Proof.
    unfold median_scene_cells. intros Hin.
    pose proof (Zlen_nonneg algorithms) as HA.
    apply in_app_or in Hin. destruct Hin as [Hin | Hin].
    - apply enum_flat_In in Hin. destruct Hin as [a [y [Ha Hin]]].
      apply median_algo_cells_cases in Hin. destruct Hin as [j [-> Hj]].
      exists a, j. split; [destruct with_gt_row; simpl; lia|].
      split; [reflexivity|]. destruct Hj as [Hj | [Hj Hcb]]; [auto|].
      right. split; [assumption|]. now apply Z.eqb_eq.
    - destruct with_gt_row; [|contradiction].
      apply median_gt_cells_cases in Hin. destruct Hin as [j [-> Hj]].
      exists (Zlen algorithms), j. split; [simpl; lia|].
      split; [reflexivity|]. destruct Hj as [Hj | [Hj Hcb]]; [auto|].
      right. split; [assumption|]. now apply Z.eqb_eq.
  Qed.

Lemma median_scene_cells_key i x c :
    0 <= i < n_scenes ->
    In c (median_scene_cells algorithms with_gt_row cols n_scenes i x) ->
    median_key cols n_scenes c = i.
  Proof.
    intros Hi Hin. apply median_scene_cells_cases in Hin.
    destruct Hin as [a [j [Ha [-> Hj]]]]. unfold median_key.
    replace (a * cols + 3 * i + j) with (a * cols + (3 * i + j)) by lia.
    rewrite cell_col by lia.
    destruct Hj as [Hj | [-> ->]].
    - destruct (Z.eqb_spec (3 * i + j) (3 * n_scenes)); [lia|].
      replace (3 * i + j) with (i * 3 + j) by lia.
      apply cell_row. lia.
    - destruct (Z.eqb_spec (3 * (n_scenes - 1) + 3) (3 * n_scenes)); lia.
  Qed.

Lemma median_scene_cells_range i x c :
    0 <= i < n_scenes ->
    In c (median_scene_cells algorithms with_gt_row cols n_scenes i x) ->
    0 <= c < rows * cols.
  Proof.
    intros Hi Hin. apply median_scene_cells_cases in Hin.
    destruct Hin as [a [j [Ha [-> Hj]]]]. nia.
  Qed.

Lemma median_algo_cells_row i cb a x c :
    0 <= i < n_scenes -> (cb = true -> i = n_scenes - 1) ->
    In c (median_algo_cells cols i cb a x) -> c / cols = a.
  Proof.
    intros Hi Hcb Hin. apply median_algo_cells_cases in Hin.
    destruct Hin as [j [-> Hj]].
    replace (a * cols + 3 * i + j) with (a * cols + (3 * i + j)) by lia.
    apply cell_row. destruct Hj as [Hj | [-> H]]; [lia|].
    apply Hcb in H. lia.
  Qed.

Lemma median_scene_cells_NoDup i x :
    0 <= i < n_scenes ->
    NoDup (median_scene_cells algorithms with_gt_row cols n_scenes i x).
  Proof.
    intros Hi. unfold median_scene_cells.
    pose proof (Zlen_nonneg algorithms) as HA.
    assert (Hcb : (i =? n_scenes - 1) = true -> i = n_scenes - 1)
      by apply Z.eqb_eq.
    assert (Hrow : forall a y c, 0 <= a < Zlen algorithms ->
              In c (median_algo_cells cols i (i =? n_scenes - 1) a y) ->
              c / cols = a).
    { intros a y c _. now apply median_algo_cells_row. }
    apply NoDup_app.
    - apply (enum_flat_NoDup _ _ (fun c => c / cols) 0 (Zlen algorithms) Hrow);
        try lia.
      intros a y _. unfold median_algo_cells.
      destruct (i =? n_scenes - 1); simpl; repeat constructor; simpl; lia.
    - destruct with_gt_row; [|constructor]. unfold median_gt_cells.
      destruct (i =? n_scenes - 1); simpl; repeat constructor; simpl; lia.
    - intros c Hc1 Hc2.
      apply (enum_flat_key _ _ (fun c => c / cols) 0 (Zlen algorithms) Hrow)
        in Hc1; try lia.
      destruct with_gt_row; [|contradiction].
      apply median_gt_cells_cases in Hc2. destruct Hc2 as [j [-> Hj]].
      replace (Zlen algorithms * cols + 3 * i + j)
        with (Zlen algorithms * cols + (3 * i + j)) in Hc1 by lia.
      rewrite cell_row in Hc1; [lia|].
      destruct Hj as [Hj | [-> H]]; [lia|]. apply Hcb in H. lia.
  Qed.

Lemma median_all_cells_facts (scenes : list Scene.t) :
    Zlen scenes = n_scenes ->
    NoDup (enum_flat (median_scene_cells algorithms with_gt_row cols n_scenes)
             0 scenes) /\
    Forall (fun c => 0 <= c < rows * cols)
      (enum_flat (median_scene_cells algorithms with_gt_row cols n_scenes)
         0 scenes).
  Proof.
    intros Hlen. split.
    - apply (enum_flat_NoDup _ _ (median_key cols n_scenes) 0 n_scenes);
        try lia.
      + intros i x c. apply median_scene_cells_key.
      + intros i x. apply median_scene_cells_NoDup.
    - apply (enum_flat_Forall _ _ 0 n_scenes); try lia.
      intros j x c. apply median_scene_cells_range.
  Qed.

End MedianCells.

Section MedianRun.

Variable R : Type.
Variable env : Env R.

Lemma plot_median_comparisons_cells scenes algorithms subdir with_gt_row
      fs r :
    algorithms <> [] ->
    let cols := Zlen scenes * 3 + 1 in
    prefix_of
      (cells (log (plot_median_comparisons env scenes algorithms subdir
                     with_gt_row fs r)))
      (enum_flat (median_scene_cells algorithms with_gt_row cols (Zlen scenes))
         0 scenes).
  Proof.
    intros Hne cols. unfold plot_median_comparisons. cbn. fold cols.
    destruct (Py.head scenes) as [e|scene0]; cbn; [prefix_tac|].
    rewrite log_bind, cells_app.
    match goal with
    | |- context [for_enum 0 scenes ?s0 ?b r] =>
        destruct (for_enum_cells _ _ _ b
                    (median_scene_cells algorithms with_gt_row cols
                       (Zlen scenes))
                    (fun i x s r0 => proj1 (median_scene_body_cells R env fs
                       cols _ _ algorithms with_gt_row (Zlen scenes) i x s r0
                       Hne))
                    (fun i x s r0 => proj2 (median_scene_body_cells R env fs
                       cols _ _ algorithms with_gt_row (Zlen scenes) i x s r0
                       Hne))
                    scenes 0 s0 r) as [Hp Hs];
        destruct (res (for_enum 0 scenes s0 b r)) as [e|vars] eqn:Eres
    end.
    - rewrite app_nil_r. exact Hp.
    - rewrite Hs by (eexists; exact Eres).
      destruct (l_scene vars); cbn; rewrite app_nil_r; apply prefix_of_refl.
  Qed.

End MedianRun.

(** C3. In [plot_discont_overview] (any algorithm list, any scene, at least
    one row) and in [plot_median_comparisons] (non-empty scene and algorithm
    lists), every cell index handed to [plt.subplot] or to a colorbar, in any
    run, complete or not, is an integer of [[0, rows * cols)], and no index is
    used twice.  Integer division is Python 2's floor division. *)
Theorem subplot_indices_tile R (env : Env R)
    (algos : list Algorithm.t) (scene : Scene.t) (n_rows fs : Z)
    (subdir : string) (xmin ymin ww : Z)
    (scenes : list Scene.t) (algorithms : list Algorithm.t)
    (subdir' : string) (with_gt_row : bool) (fs' : Z) (r : R) :
  1 <= n_rows -> scenes <> [] -> algorithms <> [] ->
  (let t := log (plot_discont_overview env algos scene n_rows fs subdir
                   xmin ymin ww r) in
   let rows := 2 * n_rows in
   let cols := n_entries_per_row (Zlen algos) n_rows + 1 in
   Forall (fun c => 0 <= c < rows * cols) (cells t) /\ NoDup (cells t)) /\
  (let t := log (plot_median_comparisons env scenes algorithms subdir'
                   with_gt_row fs' r) in
   let rows := Zlen algorithms + Py.int_of_bool with_gt_row in
   let cols := Zlen scenes * 3 + 1 in
   Forall (fun c => 0 <= c < rows * cols) (cells t) /\ NoDup (cells t)).
Proof.
  intros Hrows Hscenes Halgos. split.
  - cbn zeta.
    pose proof (plot_discont_overview_cells R env algos scene n_rows fs subdir
                  xmin ymin ww r ltac:(lia)) as Hp.
    destruct (discont_all_cells_facts algos n_rows Hrows) as [Hnd Hall].
    cbn zeta in Hp, Hnd, Hall. split.
    + eapply prefix_of_Forall; eassumption.
    + eapply prefix_of_NoDup; eassumption.
  - cbn zeta.
    pose proof (plot_median_comparisons_cells R env scenes algorithms subdir'
                  with_gt_row fs' r Halgos) as Hp.
    destruct (median_all_cells_facts algorithms with_gt_row (Zlen scenes)
                (Zlen scenes * 3 + 1) eq_refl scenes eq_refl) as [Hnd Hall].
    cbn zeta in Hp. split.
    + eapply prefix_of_Forall; eassumption.
    + eapply prefix_of_NoDup; eassumption.
Qed.

Lemma subplot_indices_tile_witness :
  1 <= 2 /\ [Example.dots; Example.stripes] <> [] /\
  [Example.epi1; Example.lf] <> [] /\
  (let t := log (plot_discont_overview Example.env
                   [Example.epi1; Example.lf; Example.median] Example.dots
                   2 15 "overview" 150 230 250 0%nat) in
   let rows := 2 * 2 in
   let cols := n_entries_per_row (Zlen [Example.epi1; Example.lf;
Example.median]) 2 + 1 in
   Forall (fun c => 0 <= c < rows * cols) (cells t) /\ NoDup (cells t)) /\
  (let t := log (plot_median_comparisons Example.env
                   [Example.dots; Example.stripes]
                   [Example.epi1; Example.lf] "per_pix_comparisons" true 12
                   0%nat) in
   let rows := Zlen [Example.epi1; Example.lf] + Py.int_of_bool true in
   let cols := Zlen [Example.dots; Example.stripes] * 3 + 1 in
   Forall (fun c => 0 <= c < rows * cols) (cells t) /\ NoDup (cells t)).
Proof.
  split; [lia|]. split; [discriminate|]. split; [discriminate|].
  apply (subplot_indices_tile nat Example.env
           [Example.epi1; Example.lf; Example.median] Example.dots 2 15
           "overview" 150 230 250 [Example.dots; Example.stripes]
           [Example.epi1; Example.lf] "per_pix_comparisons" true 12 0%nat);
    [lia | discriminate | discriminate].
Defined.

(** C10. [plot_median_comparisons] needs scenes, and with [with_gt_row=True]
    it needs algorithms.  With an empty scene list it raises [IndexError] at
    [scenes[0]], after the figure was created and before any grid is
    prepared.  With scenes, no algorithm and [with_gt_row=True] it fails in
    the first scene: when that scene's data loads, with [UnboundLocalError]
    at [idx_a += 1], no algorithm loop having bound [idx_a].  In neither case
    is a figure saved. *)
Theorem median_comparisons_empty_inputs R (env : Env R)
    (scenes : list Scene.t) (algorithms : list Algorithm.t) (subdir : string)
    (with_gt_row : bool) (fs : Z) (r : R) :
  scenes <> [] ->
  (let o := plot_median_comparisons env [] algorithms subdir with_gt_row fs r
   in res o = inl IndexError /\ saved (log o) = [] /\ grids (log o) = []) /\
  (let o := plot_median_comparisons env scenes [] subdir true fs r in
   fails o /\ saved (log o) = [] /\
   forall s0 g m,
     Py.head scenes = inr s0 -> Scene.get_gt s0 = inr g ->
     get_algo_result env s0 (PerPixMedianDiff env) = inr m ->
     res o = inl UnboundLocalError).
Proof.
  intros Hne. split.
  - cbn. auto.
  - destruct scenes as [|s0 rest]; [contradiction|].
    unfold plot_median_comparisons, fails. cbn.
    unfold median_scene_body.
    destruct (Scene.get_gt s0) as [e|g] eqn:Eg; cbn.
    + split; [eexists; reflexivity|]. split; [reflexivity|].
      intros s0' g' m' Hh Hg _. inversion Hh; subst. congruence.
    + destruct (get_algo_result env s0 (PerPixMedianDiff env)) as [e|m]
        eqn:Em; cbn.
      * split; [eexists; reflexivity|]. split; [reflexivity|].
        intros s0' g' m' Hh _ Hm. inversion Hh; subst. congruence.
      * split; [eexists; reflexivity|]. split; reflexivity.
Qed.

Lemma median_comparisons_empty_inputs_witness :
  [Example.dots] <> [] /\
  (let o := plot_median_comparisons Example.env [] [Example.epi1]
              "per_pix_comparisons" true 12 0%nat
   in res o = inl IndexError /\ saved (log o) = [] /\ grids (log o) = []) /\
  (let o := plot_median_comparisons Example.env [Example.dots] []
              "per_pix_comparisons" true 12 0%nat in
   fails o /\ saved (log o) = [] /\
   forall s0 g m,
     Py.head [Example.dots] = inr s0 -> Scene.get_gt s0 = inr g ->
     get_algo_result Example.env s0 (PerPixMedianDiff Example.env) = inr m ->
     res o = inl UnboundLocalError).
Proof.
  split; [discriminate|].
  apply (median_comparisons_empty_inputs nat Example.env [Example.dots]
           [Example.epi1] "per_pix_comparisons" true 12 0%nat).
  discriminate.
Defined.

(* ------------------------------------------------------------------ *)
(** ** Arrays *)

Lemma bdim_same n : bdim n n = Some n.
Proof. unfold bdim. now rewrite Nat.eqb_refl. Qed.

Lemma bidx_lt n i : (i < n)%nat -> bidx n i = i.
Proof. unfold bidx. destruct (Nat.eqb_spec n 1); lia. Qed.

Lemma tabulate_length {A} n (f : nat -> A) : length (tabulate n f) = n.
Proof. unfold tabulate. now rewrite length_map, length_seq. Qed.

Lemma tabulate_nth {A} n (f : nat -> A) i d :
  (i < n)%nat -> nth i (tabulate n f) d = f i.
Proof.
  intros H. unfold tabulate.
  rewrite (nth_indep _ d (f O)) by now rewrite length_map, length_seq.
  rewrite map_nth, seq_nth by assumption. reflexivity.
Qed.

Lemma tabulate_hd {A} n w (f : nat -> nat -> A) :
  length (hd [] (tabulate n (fun i => tabulate w (f i)))) =
  match n with O => O | _ => w end.
Proof.
  destruct n; [reflexivity|]. unfold tabulate at 1. simpl.
  apply tabulate_length.
Qed.

Section Binop.

Variables (A B C : Type) (f : A -> B -> C) (da : A) (db : B) (dc : C).

Lemma binop_same_shape (a : grid2 A) (b : grid2 B) :
  shape a = shape b ->
  exists c, binop f da db a b = inr c /\ shape c = shape a /\
    forall i j, (i < fst (shape a))%nat -> (j < snd (shape a))%nat ->
      px dc c i j = f (px da a i j) (px db b i j).
Proof.
  intros Hs. unfold binop. rewrite <- Hs.
  destruct (shape a) as [h w] eqn:Ha. rewrite !bdim_same.
  eexists. split; [reflexivity|]. split.
  - unfold shape. rewrite tabulate_length, tabulate_hd.
    destruct h; [|reflexivity].
    unfold shape in Ha. inversion Ha as [[Hh Hw]].
    apply length_zero_iff_nil in Hh. subst a. reflexivity.
  - simpl. intros i j Hi Hj. unfold px at 1.
    rewrite (tabulate_nth h _ i []) by assumption.
    rewrite tabulate_nth by assumption.
    now rewrite !bidx_lt by assumption.
Qed.

End Binop.

Lemma abs_shape (a : array) : shape (Np.abs a) = shape a.
Proof.
  unfold shape, Np.abs. rewrite length_map. f_equal.
  destruct a; simpl; [reflexivity | apply length_map].
Qed.

Lemma abs_px (a : array) i j : px 0%Q (Np.abs a) i j = Qabs (px 0%Q a i j).
Proof.
  unfold px, Np.abs.
  change (@nil Q) with (map Qabs []) at 1. rewrite map_nth.
  change 0%Q with (Qabs 0) at 1. now rewrite map_nth.
Qed.

(** With fields of one shape, the median-diff map exists, has that shape, and
    holds [|median - gt| - |algo - gt|] at every pixel. *)
Lemma median_diff_of_spec (med gt algo : array) :
  shape med = shape gt -> shape algo = shape gt ->
  exists md, median_diff_of med gt algo = inr md /\ shape md = shape gt /\
    forall i j, (i < fst (shape gt))%nat -> (j < snd (shape gt))%nat ->
      px 0%Q md i j =
      (Qabs (px 0%Q med i j - px 0%Q gt i j)
       - Qabs (px 0%Q algo i j - px 0%Q gt i j))%Q.
Proof.
  intros Hm Ha. unfold median_diff_of, Np.sub.
  destruct (binop_same_shape _ _ _ Qminus 0%Q 0%Q 0%Q med gt Hm)
    as [dm [-> [Hsm Hpm]]].
  destruct (binop_same_shape _ _ _ Qminus 0%Q 0%Q 0%Q algo gt Ha)
    as [da [-> [Hsa Hpa]]].
  destruct (binop_same_shape _ _ _ Qminus 0%Q 0%Q 0%Q (Np.abs dm) (Np.abs da))
    as [md [-> [Hsd Hpd]]].
  { rewrite !abs_shape. congruence. }
  exists md. split; [reflexivity|]. rewrite abs_shape in Hsd, Hpd. split.
  - congruence.
  - intros i j Hi Hj. rewrite Hsm, Hm in Hpd. rewrite Hm in Hpm.
    rewrite Ha in Hpa.
    rewrite Hpd, !abs_px, Hpm, Hpa by assumption. reflexivity.
Qed.

Lemma sub_same_shape (a b : array) :
  shape a = shape b -> exists d, Np.sub a b = inr d.
Proof.
  intros H. destruct (binop_same_shape _ _ _ Qminus 0%Q 0%Q 0%Q a b H)
    as [d [Hd _]]. now exists d.
Qed.

(** A positive median-diff value: the algorithm is closer to the ground truth
    than the median baseline. *)
Lemma median_diff_positive (m g a : Q) :
  (0 < Qabs (m - g) - Qabs (a - g) <-> Qabs (a - g) < Qabs (m - g))%Q.
Proof. symmetry. apply Qlt_minus_iff. Qed.

(* ------------------------------------------------------------------ *)
(** ** Life cycle events stay out of the loops *)

Section Lifecycle.

Variable R : Type.
Variable env : Env R.

Lemma discont_body_lifecycle scene fs xmin ymin ww E cols cbh cbw gt med
    i a u r :
  Forall (fun e => is_lifecycle e = false)
         (log (discont_body env scene fs xmin ymin ww 2 E cols cbh cbw gt med
                 i a u r)).
Proof.
  unfold discont_body.
  destruct (get_algo_result env scene a) as [e|ar]; cbn; [constructor|].
  unfold Py.mod_, Py.floordiv. destruct (Z.eqb_spec E 0); cbn; [constructor|].
  unfold when.
  destruct (Py.not_ ((i + 1) mod E)), (Py.not_ ((i + 1 + 1) mod E)),
    (median_diff_of med gt ar); cbn; lifecycle_tac.
Qed.

Lemma median_algo_body_lifecycle scene fs cols idx_s add_label add_colorbar_
    cbh cbw gt med i a s r :
  Forall (fun e => is_lifecycle e = false)
         (log (median_algo_body env scene fs cols idx_s add_label
                 add_colorbar_ cbh cbw gt med i a s r)).
Proof.
  unfold median_algo_body, when.
  destruct (get_algo_result env scene a) as [e|ar]; cbn; [constructor|].
  destruct (i =? 0), add_label, (Np.sub gt ar) as [e1|err]; cbn;
    try solve [lifecycle_tac];
    destruct (median_diff_of med gt ar) as [e2|md]; cbn;
    try solve [lifecycle_tac];
    destruct add_colorbar_; cbn;
    try destruct (i mod 2 =? 0); cbn; lifecycle_tac.
Qed.

Lemma median_scene_body_lifecycle algorithms with_gt_row fs cols n_scenes
    cbh cbw i scene vars r :
  Forall (fun e => is_lifecycle e = false)
         (log (median_scene_body env algorithms with_gt_row fs cols n_scenes
                 cbh cbw i scene vars r)).
Proof.
  unfold median_scene_body.
  destruct (Scene.get_gt scene) as [e|gt]; cbn; [constructor|].
  destruct (get_algo_result env scene (PerPixMedianDiff env)) as [e|med];
    cbn; [constructor|].
  rewrite log_bind. apply Forall_app. split.
  - apply for_enum_Forall. intros. apply median_algo_body_lifecycle.
  - destruct (res (for_enum _ _ _ _ _)) as [e|idx_a]; [constructor|].
    destruct with_gt_row; cbn; [|constructor].
    destruct idx_a as [ia|]; cbn; [|constructor].
    unfold when.
    destruct (i =? 0), (Np.sub gt med) as [e|d]; cbn;
      try solve [lifecycle_tac];
      destruct (i =? n_scenes - 1); cbn; lifecycle_tac.
Qed.

End Lifecycle.

(* ------------------------------------------------------------------ *)
(** ** Complete runs of plot_median_comparisons *)

Lemma for_enum_final R X St V (body : Z -> X -> St -> M R St)
    (proj : St -> V) (val : Z -> X -> V) :
  (forall i x s r v, res (body i x s r) = inr v -> proj v = val i x) ->
  forall xs i s r v d,
    xs <> [] ->
    res (for_enum i xs s body r) = inr v ->
    proj v = val (i + Zlen xs - 1) (last xs d).
Proof.
  intros Hb. induction xs as [|x xs IH]; intros i s r v d Hne Hres;
    [contradiction|].
  simpl in Hres. rewrite res_bind in Hres. rewrite Zlen_cons.
  destruct (res (body i x s r)) as [e|s'] eqn:E; [discriminate|].
  destruct xs as [|x' xs'].
  - simpl in Hres. inversion Hres; subst. apply Hb in E. rewrite E.
    unfold Zlen. simpl. f_equal. lia.
  - apply (IH _ _ _ _ d) in Hres; [|discriminate]. rewrite Hres.
    f_equal. lia.
Qed.

Section MedianOk.

Variable R : Type.
Variable env : Env R.
Variables (fs cols : Z) (cb_height cb_width : Q).

Lemma median_algo_body_run scene idx_s add_label add_colorbar_ gt med
    i a s r ar :
  get_algo_result env scene a = inr ar ->
  shape ar = shape gt -> shape med = shape gt ->
  exists err md,
    Np.sub gt ar = inr err /\ median_diff_of med gt ar = inr md /\
    res (median_algo_body env scene fs cols idx_s add_label add_colorbar_
           cb_height cb_width gt med i a s r) = inr (Some i) /\
    panels (log (median_algo_body env scene fs cols idx_s add_label
                   add_colorbar_ cb_height cb_width gt med i a s r)) =
    [(i * cols + 3 * idx_s,
      [plt_imshow (Scalar ar) (disp_map_args scene)]);
     (i * cols + 3 * idx_s + 1,
      [plt_imshow (Scalar err) (diff_map_args (- (1 # 10)) (1 # 10))]);
     (i * cols + 3 * idx_s + 2,
      [plt_imshow (Scalar md) median_diff_args])].
Proof.
  intros Har Hsa Hsm.
  destruct (sub_same_shape gt ar (eq_sym Hsa)) as [err Herr].
  destruct (median_diff_of_spec med gt ar Hsm Hsa) as [md [Hmd _]].
  exists err, md. split; [assumption|]. split; [assumption|].
  unfold median_algo_body, when. rewrite Har. cbn. rewrite Herr. cbn.
  rewrite Hmd.
  destruct (i =? 0), add_label, add_colorbar_; cbn;
    try destruct (i mod 2 =? 0); cbn; split; reflexivity.
Qed.

Section SceneBlockOk.

Variables (algorithms : list Algorithm.t) (with_gt_row : bool).
Variable n_scenes : Z.
Variable scene : Scene.t.
Hypothesis Hne : algorithms <> [].
Hypothesis Hok : results_ok env algorithms scene.

Lemma median_inner_succeeds gt med idx_s add_label add_colorbar_ s r :
  Scene.get_gt scene = inr gt -> shape med = shape gt ->
  res (for_enum 0 algorithms s
         (median_algo_body env scene fs cols idx_s add_label add_colorbar_
            cb_height cb_width gt med) r) =
  inr (Some (Zlen algorithms - 1)).
Proof.
  intros Hgt Hsm. destruct Hok as [g [Hg [_ Hall]]].
  assert (g = gt) by congruence. subst g.
  match goal with
  | |- res (for_enum 0 algorithms s ?b r) = _ =>
      destruct (for_enum_succeeds _ _ _ b algorithms) with (i := 0) (s := s)
        (r := r) as [v Hv]
  end.
  - eapply Forall_impl; [|exact Hall]. intros a [ar [Har Hsa]] i s0 r0.
    destruct (median_algo_body_run scene idx_s add_label add_colorbar_ gt med
                i a s0 r0 ar Har Hsa Hsm) as [err [md [_ [_ [Hres _]]]]].
    eexists; exact Hres.
  - rewrite Hv. f_equal.
    rewrite (for_enum_last_index _ _ _
               (median_algo_body_value R env fs cols cb_height cb_width scene
                  idx_s add_label add_colorbar_ gt med)
               algorithms 0 s r v Hne Hv).
    f_equal; lia.
Qed.

Lemma median_scene_body_run i vars r :
  exists idx_a,
    res (median_scene_body env algorithms with_gt_row fs cols n_scenes
           cb_height cb_width i scene vars r) =
    inr (Locals idx_a (Some scene)).
Proof.
  destruct Hok as [g [Hg [[med [Hmed Hsm]] Hall]]].
  unfold median_scene_body. rewrite Hg, Hmed. cbn.
  rewrite res_bind, (median_inner_succeeds g med) by assumption.
  destruct with_gt_row; cbn; [|eexists; reflexivity].
  destruct (sub_same_shape g med (eq_sym Hsm)) as [d Hd]. rewrite Hd.
  unfold when. destruct (i =? 0), (i =? n_scenes - 1); cbn;
    eexists; reflexivity.
Qed.

Lemma median_scene_body_quiet i vars r :
  segment (log (median_scene_body env algorithms with_gt_row fs cols n_scenes
                  cb_height cb_width i scene vars r)) = [].
Proof.
  unfold median_scene_body.
  destruct (Scene.get_gt scene) as [e|gt]; cbn; [reflexivity|].
  destruct (get_algo_result env scene (PerPixMedianDiff env)) as [e|med];
    cbn; [reflexivity|].
  rewrite log_bind.
  assert (Hq : forall s0 b0,
            segment (log (for_enum 0 algorithms s0
                       (median_algo_body env scene fs cols i b0
                          (i =? n_scenes - 1) cb_height cb_width gt med) r))
            = []).
  { intros. apply for_enum_quiet. intros.
    apply median_algo_body_quiet. }
  destruct (res (for_enum _ _ _ _ _)) as [e|idx_a];
    [rewrite app_nil_r; apply Hq|].
  rewrite segment_app_quiet; [apply Hq|].
  destruct with_gt_row; cbn; [|reflexivity].
  destruct idx_a; cbn; reflexivity.
Qed.

Lemma median_scene_body_panels i vars r k a :
  nth_error algorithms k = Some a ->
  exists g med ar md,
    Scene.get_gt scene = inr g /\
    get_algo_result env scene (PerPixMedianDiff env) = inr med /\
    get_algo_result env scene a = inr ar /\
    median_diff_of med g ar = inr md /\
    In (Z.of_nat k * cols + 3 * i + 2,
        [plt_imshow (Scalar md) median_diff_args])
       (panels (log (median_scene_body env algorithms with_gt_row fs cols
                       n_scenes cb_height cb_width i scene vars r))).
Proof.
  intros Hk. pose proof Hok as [g [Hg [[med [Hmed Hsm]] Hall]]].
  rewrite Forall_forall in Hall.
  destruct (Hall a (nth_error_In _ _ Hk)) as [ar [Har Hsa]].
  destruct (median_diff_of_spec med g ar Hsm Hsa) as [md [Hmd _]].
  exists g, med, ar, md. repeat (split; [assumption|]).
  unfold median_scene_body. rewrite Hg, Hmed. cbn.
  rewrite log_bind, (median_inner_succeeds g med) by assumption.
  rewrite panels_app.
  2:{ destruct with_gt_row; cbn; reflexivity. }
  apply in_or_app. left.
  match goal with
  | |- In _ (panels (log (for_enum 0 algorithms ?s0 ?b r))) =>
      destruct (for_enum_panels _ _ _ b
                  (median_algo_body_quiet R env fs cols cb_height cb_width
                     scene i (i =? 0) (i =? n_scenes - 1) g med)
                  algorithms 0 s0 r k a) as [s_k [r_k [_ Hincl]]];
      [eexists; apply (median_inner_succeeds g med); assumption
      | assumption |]
  end.
  apply Hincl.
  destruct (median_algo_body_run scene i (i =? 0) (i =? n_scenes - 1) g med
              (0 + Z.of_nat k) a s_k r_k ar Har Hsa Hsm)
    as [err [md' [_ [Hmd' [_ Hp]]]]].
  rewrite Hp. assert (md' = md) by congruence. subst md'.
  rewrite Z.add_0_l. simpl. auto.
Qed.

End SceneBlockOk.

End MedianOk.

Section MedianComplete.

Variable R : Type.
Variable env : Env R.

Lemma median_scene_body_scene algorithms with_gt_row fs cols n_scenes cbh cbw
    i scene vars r v :
  res (median_scene_body env algorithms with_gt_row fs cols n_scenes cbh cbw
         i scene vars r) = inr v ->
  l_scene v = Some scene.
Proof.
  unfold median_scene_body.
  destruct (Scene.get_gt scene) as [e|gt]; cbn; [discriminate|].
  destruct (get_algo_result env scene (PerPixMedianDiff env)) as [e|med];
    cbn; [discriminate|].
  rewrite res_bind.
  destruct (res (for_enum _ _ _ _ _)) as [e|idx_a]; [discriminate|].
  destruct with_gt_row; cbn; [|intros H; inversion H; reflexivity].
  destruct idx_a as [ia|]; cbn; [|discriminate].
  unfold when.
  destruct (i =? 0), (Np.sub gt med) as [e|d]; cbn; try discriminate;
    destruct (i =? n_scenes - 1); cbn; intros H; inversion H; reflexivity.
Qed.

Lemma plot_median_comparisons_run scenes algorithms subdir with_gt_row fs r d :
  scenes <> [] -> algorithms <> [] ->
  Forall (results_ok env algorithms) scenes ->
  let o := plot_median_comparisons env scenes algorithms subdir with_gt_row
             fs r in
  let rows := Zlen algorithms + Py.int_of_bool with_gt_row in
  let cols := Zlen scenes * 3 + 1 in
  res o = inr tt /\
  created (log o) =
    [plt_figure (inject_Z cols * (13 # 10)) (inject_Z rows * (15 # 10))] /\
  grids (log o) = [prepare_grid_with_colorbar rows cols (hd d scenes)] /\
  saved (log o) =
    [save_tight_figure
       ("median_comparison_" ++ Scene.get_category (last scenes d))
       subdir true true (2 # 100) 0 None] /\
  forall k s j a,
    nth_error scenes k = Some s -> nth_error algorithms j = Some a ->
    exists g med ar md,
      Scene.get_gt s = inr g /\
      get_algo_result env s (PerPixMedianDiff env) = inr med /\
      get_algo_result env s a = inr ar /\
      median_diff_of med g ar = inr md /\
      In (Z.of_nat j * cols + 3 * Z.of_nat k + 2,
          [plt_imshow (Scalar md) median_diff_args])
         (panels (log o)).
Proof.
  intros Hs Ha Hok o rows cols. subst o.
  unfold plot_median_comparisons. fold rows cols.
  destruct scenes as [|s0 rest] eqn:Escenes; [contradiction|].
  rewrite <- Escenes in *. assert (Hhead : Py.head scenes = inr s0)
    by (rewrite Escenes; reflexivity).
  assert (Hhd : hd d scenes = s0) by (rewrite Escenes; reflexivity).
  rewrite Hhd. cbn. rewrite Hhead. cbn.
  set (cbh := (fst (colorbar_size env rows cols s0) * (8 # 10))%Q).
  set (cbw := snd (colorbar_size env rows cols s0)).
  set (body := median_scene_body env algorithms with_gt_row fs cols
                 (Zlen scenes) cbh cbw).
  destruct (for_enum_succeeds _ _ _ body scenes) with (i := 0)
    (s := Locals None None) (r := r) as [vars Hvars].
  { eapply Forall_impl; [|exact Hok]. intros s Hsok i v0 r0.
    destruct (median_scene_body_run R env fs cols cbh cbw algorithms
                with_gt_row (Zlen scenes) s Ha Hsok i v0 r0) as [ia Hia].
    eexists; exact Hia. }
  pose proof (for_enum_final _ _ _ _ body l_scene (fun _ x => Some x)
                (fun i x s r0 v => median_scene_body_scene algorithms
                   with_gt_row fs cols (Zlen scenes) cbh cbw i x s r0 v)
                scenes 0 (Locals None None) r vars d Hs Hvars) as Hlast.
  cbn beta in Hlast.
  destruct (no_lifecycle (log (for_enum 0 scenes (Locals None None) body r)))
    as [Hc [Hg Hsv]].
  { apply for_enum_Forall. intros. apply median_scene_body_lifecycle. }
  rewrite res_bind, log_bind, Hvars, Hlast. cbn.
  unfold created, grids, saved in *.
  rewrite !filter_app, Hc, Hg, Hsv. cbn.
  repeat (split; [reflexivity|]).
  intros k s j a Hk Hj.
  assert (Hsok : results_ok env algorithms s).
  { rewrite Forall_forall in Hok. apply Hok. eapply nth_error_In; eassumption. }
  destruct (for_enum_panels _ _ _ body
              (fun i x v0 r0 => median_scene_body_quiet R env fs cols cbh cbw
                 algorithms with_gt_row (Zlen scenes) x i v0 r0)
              scenes 0 (Locals None None) r k s) as [v_k [r_k [_ Hincl]]];
    [eexists; exact Hvars | assumption |].
  destruct (median_scene_body_panels R env fs cols cbh cbw algorithms
              with_gt_row (Zlen scenes) s Ha Hsok (0 + Z.of_nat k) v_k r_k
              j a Hj) as [g [med [ar [md [H1 [H2 [H3 [H4 H5]]]]]]]].
  exists g, med, ar, md. repeat (split; [assumption|]).
  rewrite panels_app by reflexivity. apply in_or_app. left.
  apply Hincl. rewrite Z.add_0_l in H5. exact H5.
Qed.

End MedianComplete.

(** C4. With exactly 3 scenes and 2 algorithms, [with_gt_row=True] and data
    that loads, [plot_median_comparisons] returns, prepares one grid, of
    2 + 1 = 3 rows and 3 * 3 + 1 = 10 columns, and saves exactly one figure,
    named ["median_comparison_"] followed by the category the scenes share
    (the code reads the category of the last scene). *)
Theorem median_comparisons_three_by_two R (env : Env R)
    (scenes : list Scene.t) (algorithms : list Algorithm.t)
    (subdir : string) (fs : Z) (r : R) (category : string) :
  length scenes = 3%nat -> length algorithms = 2%nat ->
  Forall (results_ok env algorithms) scenes ->
  Forall (fun s => Scene.get_category s = category) scenes ->
  let o := plot_median_comparisons env scenes algorithms subdir true fs r in
  res o = inr tt /\
  (exists scene0,
     Py.head scenes = inr scene0 /\
     grids (log o) = [prepare_grid_with_colorbar 3 10 scene0]) /\
  saved (log o) =
    [save_tight_figure ("median_comparison_" ++ category) subdir true true
       (2 # 100) 0 None].
Proof.
  intros Hs Ha Hok Hcat o.
  destruct scenes as [|s1 [|s2 [|s3 [|s4 rest]]]]; try discriminate Hs.
  destruct algorithms as [|a1 [|a2 [|a3 rest]]]; try discriminate Ha.
  destruct (plot_median_comparisons_run R env [s1; s2; s3] [a1; a2] subdir
              true fs r s1 ltac:(discriminate) ltac:(discriminate) Hok)
    as [Hres [_ [Hgrid [Hsaved _]]]].
  fold o in Hres, Hgrid, Hsaved.
  split; [assumption|]. split.
  - exists s1. split; [reflexivity | exact Hgrid].
  - rewrite Hsaved. simpl last.
    assert (Hc3 : Scene.get_category s3 = category).
    { rewrite Forall_forall in Hcat. apply Hcat. simpl. auto. }
    now rewrite Hc3.
Qed.

Lemma median_diff_of_is_median_diff (med gt algo : array) :
  shape med = shape gt -> shape algo = shape gt ->
  exists md, median_diff_of med gt algo = inr md /\
             is_median_diff md med gt algo.
Proof.
  intros Hm Ha.
  destruct (median_diff_of_spec med gt algo Hm Ha) as [md [Hmd [Hs Hpx]]].
  exists md. split; [assumption|]. split; [assumption|].
  intros i j Hi Hj. split; [now apply Hpx|].
  rewrite Hpx by assumption. apply median_diff_positive.
Qed.

(* ------------------------------------------------------------------ *)
(** ** Complete runs of plot_discont_overview *)

Section DiscontComplete.

Variable R : Type.
Variable env : Env R.

Lemma discont_body_run scene fs xmin ymin ww E cols cbh cbw gt med i a u r ar :
  E <> 0 ->
  get_algo_result env scene a = inr ar ->
  shape ar = shape gt -> shape med = shape gt ->
  exists md,
    median_diff_of med gt ar = inr md /\
    res (discont_body env scene fs xmin ymin ww 2 E cols cbh cbw gt med
           i a u r) = inr tt /\
    panels (log (discont_body env scene fs xmin ymin ww 2 E cols cbh cbw
                   gt med i a u r)) =
    [((i + 1) / E * 2 * cols + (i + 1) mod E,
      [plt_imshow (Scalar (Np.window ymin (ymin + ww) xmin (xmin + ww) ar))
         (disp_map_args scene)]);
     (((i + 1) / E * 2 + 1) * cols + (i + 1) mod E,
      [plt_imshow (Scalar (Np.window ymin (ymin + ww) xmin (xmin + ww) md))
         median_diff_args])].
Proof.
  intros HE Har Hsa Hsm.
  destruct (median_diff_of_spec med gt ar Hsm Hsa) as [md [Hmd _]].
  exists md. split; [assumption|].
  unfold discont_body, when, Py.mod_, Py.floordiv. rewrite Har.
  destruct (Z.eqb_spec E 0); [contradiction|]. cbn.
  destruct (Py.not_ ((i + 1) mod E)), (Py.not_ ((i + 1 + 1) mod E)); cbn;
    rewrite Hmd; cbn; split; reflexivity.
Qed.

Lemma plot_discont_overview_log algorithms scene n_rows fs subdir
    xmin ymin ww r cv :
  1 <= n_rows ->
  results_ok env algorithms scene ->
  Scene.get_center_view scene = inr cv ->
  let o := plot_discont_overview env algorithms scene n_rows fs subdir
             xmin ymin ww r in
  let E := n_entries_per_row (Zlen algorithms) n_rows in
  exists g med loop,
    Scene.get_gt scene = inr g /\
    get_algo_result env scene (PerPixMedianDiff env) = inr med /\
    shape med = shape g /\
    loop = for_enum 0 algorithms tt
             (discont_body env scene fs xmin ymin ww 2 E (E + 1)
                (fst (colorbar_size env (2 * n_rows) (E + 1) scene))
                (snd (colorbar_size env (2 * n_rows) (E + 1) scene)) g med) r
    /\ succeeds loop /\ res o = inr tt /\
    incl (panels (log loop)) (panels (log o)).
Proof.
  intros Hrows [g [Hg [[med [Hmed Hsm]] Hall]]] Hcv o E. subst o.
  destruct (n_entries_per_row_spec (Zlen algorithms) n_rows
              (Zlen_nonneg _) Hrows) as [HE _]. fold E in HE.
  exists g, med. eexists. split; [assumption|]. split; [assumption|].
  split; [assumption|]. split; [reflexivity|].
  match goal with
  | |- succeeds (for_enum 0 algorithms tt ?b r) /\ _ => set (body := b)
  end.
  assert (Hu : succeeds (for_enum 0 algorithms tt body r)).
  { apply for_enum_succeeds.
    eapply Forall_impl; [|exact Hall]. intros a [ar [Har Hsa]] i u0 r0.
    destruct (discont_body_run scene fs xmin ymin ww E (E + 1)
                (fst (colorbar_size env (2 * n_rows) (E + 1) scene))
                (snd (colorbar_size env (2 * n_rows) (E + 1) scene)) g med
                i a u0 r0 ar ltac:(lia) Har Hsa Hsm) as [md [_ [Hres _]]].
    eexists; exact Hres. }
  split; [assumption|]. destruct Hu as [u Hu].
  unfold plot_discont_overview, Py.ceil_fdiv.
  destruct (Z.eqb_spec n_rows 0); [lia|]. cbn.
  fold (n_entries_per_row (Zlen algorithms) n_rows). fold E.
  rewrite Hg. cbn. rewrite Hmed. cbn. rewrite Hcv. cbn. fold body.
  rewrite res_bind, log_bind, Hu. cbn. split; [reflexivity|].
  rewrite panels_app by reflexivity. cbn. rewrite app_nil_r.
  do 2 apply incl_tl. apply incl_refl.
Qed.

Lemma plot_discont_overview_run algorithms scene n_rows fs subdir
    xmin ymin ww r cv :
  1 <= n_rows ->
  results_ok env algorithms scene ->
  Scene.get_center_view scene = inr cv ->
  let o := plot_discont_overview env algorithms scene n_rows fs subdir
             xmin ymin ww r in
  let E := n_entries_per_row (Zlen algorithms) n_rows in
  res o = inr tt /\
  forall k a, nth_error algorithms k = Some a ->
    exists g med ar md,
      Scene.get_gt scene = inr g /\
      get_algo_result env scene (PerPixMedianDiff env) = inr med /\
      get_algo_result env scene a = inr ar /\
      median_diff_of med g ar = inr md /\
      is_median_diff md med g ar /\
      In (discont_median_diff_cell E (E + 1) k,
          [plt_imshow
             (Scalar (Np.window ymin (ymin + ww) xmin (xmin + ww) md))
             median_diff_args])
         (panels (log o)).
Proof.
  intros Hrows Hok Hcv o E.
  destruct (plot_discont_overview_log algorithms scene n_rows fs subdir
              xmin ymin ww r cv Hrows Hok Hcv)
    as [g [med [loop [Hg [Hmed [Hsm [Hloop [Hu [Hres Hincl]]]]]]]]].
  fold o E in Hloop, Hres, Hincl.
  destruct (n_entries_per_row_spec (Zlen algorithms) n_rows
              (Zlen_nonneg _) Hrows) as [HE _]. fold E in HE.
  split; [assumption|]. intros k a Hk.
  destruct Hok as [g' [Hg' [_ Hall]]].
  assert (g' = g) by congruence. subst g'.
  rewrite Forall_forall in Hall.
  destruct (Hall a (nth_error_In _ _ Hk)) as [ar [Har Hsa]].
  destruct (median_diff_of_is_median_diff med g ar Hsm Hsa) as [md [Hmd His]].
  exists g, med, ar, md. repeat (split; [assumption|]).
  apply Hincl. subst loop.
  match type of Hu with
  | succeeds (for_enum 0 algorithms tt ?b r) =>
      destruct (for_enum_panels _ _ _ b
                  (fun i x u0 r0 => discont_body_quiet R env scene fs xmin
                     ymin ww E (E + 1) _ _ g med i x u0 r0)
                  algorithms 0 tt r k a Hu Hk) as [u_k [r_k [_ Hin]]]
  end.
  apply Hin.
  destruct (discont_body_run scene fs xmin ymin ww E (E + 1)
              (fst (colorbar_size env (2 * n_rows) (E + 1) scene))
              (snd (colorbar_size env (2 * n_rows) (E + 1) scene)) g med
              (0 + Z.of_nat k) a u_k r_k ar ltac:(lia) Har Hsa Hsm)
    as [md' [Hmd' [_ Hp]]].
  assert (md' = md) by congruence. subst md'.
  rewrite Hp. rewrite Z.add_0_l.
  unfold discont_median_diff_cell. simpl. auto.
Qed.

End DiscontComplete.

(** C1 (amended). For every scene and algorithm whose data loads at one
    resolution, the median-diff panel of [plot_median_comparisons] shows the
    array [|median_result - gt| - |algo_result - gt|], computed pixel by pixel
    (positive where the algorithm's absolute error is below the baseline's),
    and the median-diff panel of [plot_discont_overview] shows the window
    [[ymin:ymin+ww, xmin:xmin+ww]] of that array; both are drawn with
    [interpolation="none"], the colormap RdYlGn, [vmin=-0.05] and
    [vmax=0.05]. *)
Theorem median_diff_rendering R (env : Env R)
    (scenes : list Scene.t) (algorithms : list Algorithm.t)
    (subdir : string) (with_gt_row : bool) (fs : Z)
    (algos : list Algorithm.t) (scene : Scene.t) (n_rows fs' : Z)
    (subdir' : string) (xmin ymin ww : Z) (cv : image) (r : R) :
  scenes <> [] -> algorithms <> [] ->
  Forall (results_ok env algorithms) scenes ->
  1 <= n_rows -> results_ok env algos scene ->
  Scene.get_center_view scene = inr cv ->
  let args := explicit_args "none" RdYlGn (- (5 # 100)) (5 # 100) in
  (let o := plot_median_comparisons env scenes algorithms subdir with_gt_row
              fs r in
   let cols := Zlen scenes * 3 + 1 in
   forall k s j a,
     nth_error scenes k = Some s -> nth_error algorithms j = Some a ->
     exists g med ar md,
       Scene.get_gt s = inr g /\
       get_algo_result env s (PerPixMedianDiff env) = inr med /\
       get_algo_result env s a = inr ar /\
       median_diff_of med g ar = inr md /\
       is_median_diff md med g ar /\
       panels_at (log o) (Z.of_nat j * cols + 3 * Z.of_nat k + 2) =
         [[plt_imshow (Scalar md) args]]) /\
  (let o := plot_discont_overview env algos scene n_rows fs' subdir'
              xmin ymin ww r in
   let E := n_entries_per_row (Zlen algos) n_rows in
   forall k a,
     nth_error algos k = Some a ->
     exists g med ar md,
       Scene.get_gt scene = inr g /\
       get_algo_result env scene (PerPixMedianDiff env) = inr med /\
       get_algo_result env scene a = inr ar /\
       median_diff_of med g ar = inr md /\
       is_median_diff md med g ar /\
       panels_at (log o) (discont_median_diff_cell E (E + 1) k) =
         [[plt_imshow
             (Scalar (Np.window ymin (ymin + ww) xmin (xmin + ww) md))
             args]]).
Proof.
  intros Hs Ha Hok Hrows Hok' Hcv args. split.
  - intros o cols k s j a Hk Hj.
    destruct (plot_median_comparisons_run R env scenes algorithms subdir
                with_gt_row fs r s Hs Ha Hok)
      as [_ [_ [_ [_ Hpanels]]]].
    destruct (Hpanels k s j a Hk Hj)
      as [g [med [ar [md [Hg [Hmed [Har [Hmd Hin]]]]]]]].
    exists g, med, ar, md. repeat (split; [assumption|]). split.
    + rewrite Forall_forall in Hok.
      destruct (Hok s (nth_error_In _ _ Hk))
        as [g' [Hg' [[med' [Hmed' Hsm]] Hall]]].
      rewrite Forall_forall in Hall.
      destruct (Hall a (nth_error_In _ _ Hj)) as [ar' [Har' Hsa]].
      assert (g' = g) by congruence. assert (med' = med) by congruence.
      assert (ar' = ar) by congruence. subst g' med' ar'.
      destruct (median_diff_of_is_median_diff med g ar Hsm Hsa)
        as [md' [Hmd' His]].
      assert (md' = md) by congruence. now subst md'.
    + apply panels_at_unique; [|exact Hin].
      eapply prefix_of_NoDup.
      * apply plot_median_comparisons_cells. exact Ha.
      * apply median_all_cells_facts; reflexivity.
  - intros o E k a Hk.
    destruct (plot_discont_overview_run R env algos scene n_rows fs' subdir'
                xmin ymin ww r cv Hrows Hok' Hcv) as [_ Hpanels].
    destruct (Hpanels k a Hk)
      as [g [med [ar [md [Hg [Hmed [Har [Hmd [His Hin]]]]]]]]].
    exists g, med, ar, md. repeat (split; [assumption|]).
    apply panels_at_unique; [|exact Hin].
    eapply prefix_of_NoDup.
    + apply plot_discont_overview_cells. lia.
    + apply discont_all_cells_facts. exact Hrows.
Qed.

(* ------------------------------------------------------------------ *)
(** ** The data set of [Example] *)

Lemma example_scenes_loaded :
  Forall scene_loaded [Example.dots; Example.bedroom].
Proof. repeat constructor; eexists; reflexivity. Qed.

Lemma example_results_ok s :
  In s [Example.dots; Example.stripes; Example.pyramids] ->
  results_ok Example.env [Example.epi1; Example.lf] s.
Proof.
  intros H. simpl in H.
  destruct H as [<- | [<- | [<- | []]]];
    (eexists; split; [reflexivity|]; split;
     [eexists; split; reflexivity
     | repeat constructor; eexists; split; reflexivity]).
Qed.

Lemma example_results_ok_all :
  Forall (results_ok Example.env [Example.epi1; Example.lf])
    [Example.dots; Example.stripes; Example.pyramids].
Proof. apply Forall_forall. apply example_results_ok. Qed.

Lemma scene_overview_grid_witness :
  Forall scene_loaded [Example.dots; Example.bedroom] /\
  (let o := plot_scene_overview Example.env [Example.dots; Example.bedroom]
              "overview" 16 0%nat in
   let cols := Zlen [Example.dots; Example.bedroom] in
   succeeds o /\
   grids (log o) = [prepare_grid 2 cols] /\
   forall k s, nth_error [Example.dots; Example.bedroom] k = Some s ->
     exists cv g r_k,
       Scene.get_center_view s = inr cv /\ Scene.get_gt s = inr g /\
       panels_at (log o) (Z.of_nat k) = [[plt_imshow (Color cv) no_args]] /\
       grid_row cols (Z.of_nat k) = 0 /\
       grid_col cols (Z.of_nat k) = Z.of_nat k /\
       panels_at (log o) (cols + Z.of_nat k) =
         [gt_panel Example.env r_k s g] /\
       grid_row cols (cols + Z.of_nat k) = 1 /\
       grid_col cols (cols + Z.of_nat k) = Z.of_nat k).
Proof.
  split; [exact example_scenes_loaded|].
  apply (scene_overview_grid nat Example.env
           [Example.dots; Example.bedroom] "overview" 16 0%nat).
  repeat constructor; eexists; reflexivity.
Defined.

Lemma hidden_gt_iff_obscured_witness :
  Forall scene_loaded [Example.dots; Example.bedroom] /\
  (let o := plot_scene_overview Example.env [Example.dots; Example.bedroom]
              "overview" 16 0%nat in
   let cols := Zlen [Example.dots; Example.bedroom] in
   forall k s, nth_error [Example.dots; Example.bedroom] k = Some s ->
     exists g r_k drawn,
       Scene.get_gt s = inr g /\
       panels_at (log o) (cols + Z.of_nat k) = [drawn] /\
       (Scene.hidden_gt s = true <-> In (pixelize_call g (1 # 2)) drawn) /\
       (Scene.hidden_gt s = true ->
        drawn = [pixelize_call g (1 # 2);
                 plt_imshow
                   (Scalar (fst (pixelize Example.env r_k g (1 # 2))))
                   (disp_map_args s)]) /\
       (Scene.hidden_gt s = false ->
        drawn = [plt_imshow (Scalar g) (disp_map_args s)])).
Proof.
  split; [exact example_scenes_loaded|].
  apply (hidden_gt_iff_obscured nat Example.env
           [Example.dots; Example.bedroom] "overview" 16 0%nat).
  repeat constructor; eexists; reflexivity.
Defined.

Lemma median_comparisons_three_by_two_witness :
  length [Example.dots; Example.stripes; Example.pyramids] = 3%nat /\
  length [Example.epi1; Example.lf] = 2%nat /\
  (let o := plot_median_comparisons Example.env
              [Example.dots; Example.stripes; Example.pyramids]
              [Example.epi1; Example.lf] "per_pix_comparisons" true 12 0%nat
   in
   res o = inr tt /\
   (exists scene0,
      Py.head [Example.dots; Example.stripes; Example.pyramids] = inr scene0
      /\ grids (log o) = [prepare_grid_with_colorbar 3 10 scene0]) /\
   saved (log o) =
     [save_tight_figure ("median_comparison_" ++ "stratified")
        "per_pix_comparisons" true true (2 # 100) 0 None]).
Proof.
  split; [reflexivity|]. split; [reflexivity|].
  apply (median_comparisons_three_by_two nat Example.env
           [Example.dots; Example.stripes; Example.pyramids]
           [Example.epi1; Example.lf] "per_pix_comparisons" 12 0%nat
           "stratified").
  - reflexivity.
  - reflexivity.
  - exact example_results_ok_all.
  - repeat constructor.
Defined.

Lemma median_diff_rendering_witness :
  [Example.dots; Example.stripes; Example.pyramids] <> [] /\
  [Example.epi1; Example.lf] <> [] /\ 1 <= 2 /\
  Scene.get_center_view Example.dots = inr Example.view /\
  let args := explicit_args "none" RdYlGn (- (5 # 100)) (5 # 100) in
  ((let o := plot_median_comparisons Example.env
               [Example.dots; Example.stripes; Example.pyramids]
               [Example.epi1; Example.lf] "per_pix_comparisons" true 12 0%nat
    in
    let cols := Zlen [Example.dots; Example.stripes; Example.pyramids] * 3 + 1
    in
    forall k s j a,
      nth_error [Example.dots; Example.stripes; Example.pyramids] k = Some s
      -> nth_error [Example.epi1; Example.lf] j = Some a ->
      exists g med ar md,
        Scene.get_gt s = inr g /\
        get_algo_result Example.env s (PerPixMedianDiff Example.env) = inr med
        /\ get_algo_result Example.env s a = inr ar /\
        median_diff_of med g ar = inr md /\
        is_median_diff md med g ar /\
        panels_at (log o) (Z.of_nat j * cols + 3 * Z.of_nat k + 2) =
          [[plt_imshow (Scalar md) args]]) /\
   (let o := plot_discont_overview Example.env [Example.epi1; Example.lf]
               Example.dots 2 15 "overview" 1 0 1 0%nat in
    let E := n_entries_per_row (Zlen [Example.epi1; Example.lf]) 2 in
    forall k a,
      nth_error [Example.epi1; Example.lf] k = Some a ->
      exists g med ar md,
        Scene.get_gt Example.dots = inr g /\
        get_algo_result Example.env Example.dots
          (PerPixMedianDiff Example.env) = inr med /\
        get_algo_result Example.env Example.dots a = inr ar /\
        median_diff_of med g ar = inr md /\
        is_median_diff md med g ar /\
        panels_at (log o) (discont_median_diff_cell E (E + 1) k) =
          [[plt_imshow (Scalar (Np.window 0 (0 + 1) 1 (1 + 1) md)) args]]))
  /\
  (let o := plot_discont_overview Example.env [Example.epi1; Example.lf]
              Example.dots 2 15 "overview" 1 0 1 0%nat in
   panels_at (log o) 0 =
     [[plt_imshow (Color [[Example.black]]) no_args]] /\
   panels_at (log o) 4 = [[plt_imshow (Scalar [[100 # 10000]]) args]] /\
   panels_at (log o) 9 = [[plt_imshow (Scalar [[(- (100 # 10000))%Q]]) args]]).
Proof.
  split; [discriminate|]. split; [discriminate|]. split; [lia|].
  split; [reflexivity|].
  split; [|repeat split; vm_compute; reflexivity].
  apply (median_diff_rendering nat Example.env
           [Example.dots; Example.stripes; Example.pyramids]
           [Example.epi1; Example.lf] "per_pix_comparisons" true 12
           [Example.epi1; Example.lf] Example.dots 2 15 "overview"
           1 0 1 Example.view 0%nat).
  - discriminate.
  - discriminate.
  - exact example_results_ok_all.
  - lia.
  - apply example_results_ok. simpl. auto.
  - reflexivity.
Defined.

(** C1 as stated fails for [plot_discont_overview]: on a 2 x 2 scene with the
    window [[1:2, 1:2]], the panel shows one pixel, not the 2 x 2 array
    [|median_result - gt| - |algo_result - gt|]. *)
Lemma median_diff_discont_cropped :
  let o := plot_discont_overview Example.env [Example.epi1] Example.dots
             2 15 "overview" 1 1 1 0%nat in
  exists g med ar md,
    Scene.get_gt Example.dots = inr g /\
    get_algo_result Example.env Example.dots (PerPixMedianDiff Example.env)
      = inr med /\
    get_algo_result Example.env Example.dots Example.epi1 = inr ar /\
    median_diff_of med g ar = inr md /\
    panels_at (log o) (discont_median_diff_cell 1 2 0) <>
      [[plt_imshow (Scalar md)
          (explicit_args "none" RdYlGn (- (5 # 100)) (5 # 100))]].
Proof.
  cbn zeta. do 4 eexists.
  split; [reflexivity|]. split; [reflexivity|]. split; [reflexivity|].
  split; [vm_compute; reflexivity|].
  vm_compute. intros H. discriminate H.
Qed.

(* ------------------------------------------------------------------ *)
(** ** Figures are not closed on failure *)

Lemma figure_outcome_released R (o : out R unit) :
  figure_outcome o -> released_only_by_save o.
Proof.
  unfold figure_outcome, released_only_by_save, open_figures, fails, succeeds,
    Zlen.
  intros [[[e He] [Hs Hc]] | [[a Ha] [Hc Hs]]]; split.
  - intros _ b. rewrite Hs. destruct b; simpl; lia.
  - intros [a Ha]. congruence.
  - intros [e He]. congruence.
  - intros _. rewrite Hc, Hs. split; reflexivity.
Qed.

Ltac outcome_fail :=
  left; split; [eexists; reflexivity | split; [reflexivity | simpl; lia]].

Ltac outcome_ok :=
  right; split; [eexists; reflexivity | split; reflexivity].

Section FigureOutcome.

Variable R : Type.
Variable env : Env R.

Lemma plot_scene_overview_outcome scenes subdir fs r :
  figure_outcome (plot_scene_overview env scenes subdir fs r) /\
  created (log (plot_scene_overview env scenes subdir fs r)) =
    [plt_figure (216 # 10) 4].
Proof.
  unfold figure_outcome, fails, succeeds, plot_scene_overview, created, saved.
  cbn. rewrite res_bind, log_bind, !filter_app.
  match goal with
  | |- context [log (for_enum ?i ?xs ?s ?b r)] =>
      destruct (no_lifecycle (log (for_enum i xs s b r))) as [Hc [_ Hs]];
      [apply for_enum_Forall; intros; apply scene_overview_body_lifecycle|]
  end.
  unfold created, saved in Hc, Hs. rewrite Hc, Hs.
  destruct (res (for_enum _ _ _ _ _)) as [e|u]; cbn.
  - split; [|reflexivity]. left.
    split; [eexists; reflexivity | split; [reflexivity | simpl; lia]].
  - split; [|reflexivity]. right.
    split; [eexists; reflexivity | split; reflexivity].
Qed.

Lemma plot_normals_explanation_outcome scene algorithm fs subdir r :
  figure_outcome (plot_normals_explanation env scene algorithm fs subdir r).
Proof.
  unfold figure_outcome, fails, succeeds, plot_normals_explanation, created,
    saved.
  destruct (Scene.get_gt scene) as [e|gt]; cbn; [outcome_fail|].
  destruct (get_algo_result env scene algorithm) as [e|ar]; cbn;
    [outcome_fail|].
  destruct (get_evaluation_mask env MAEContinSurf scene) as [e|m1]; cbn;
    [outcome_fail|].
  destruct (get_evaluation_mask env MAEPlanes scene) as [e|m2]; cbn;
    [outcome_fail|].
  destruct (Np.add_mask m1 m2) as [e|m]; cbn; [outcome_fail|].
  destruct (get_score_from_mask env MAEContinSurf ar gt scene m)
    as [e|[score vis]]; cbn; [outcome_fail | outcome_ok].
Qed.

Lemma plot_discont_overview_outcome algorithms scene n_rows fs subdir
    xmin ymin ww r :
  figure_outcome (plot_discont_overview env algorithms scene n_rows fs subdir
                    xmin ymin ww r).
Proof.
  unfold figure_outcome, fails, succeeds, plot_discont_overview, created,
    saved, Py.ceil_fdiv.
  destruct (n_rows =? 0); cbn; [outcome_fail|].
  destruct (Scene.get_gt scene) as [e|gt]; cbn; [outcome_fail|].
  destruct (get_algo_result env scene (PerPixMedianDiff env)) as [e|med];
    cbn; [outcome_fail|].
  destruct (Scene.get_center_view scene) as [e|cv]; cbn; [outcome_fail|].
  rewrite res_bind, log_bind, !filter_app.
  match goal with
  | |- context [log (for_enum ?i ?xs ?s ?b r)] =>
      destruct (no_lifecycle (log (for_enum i xs s b r))) as [Hc [_ Hs]];
      [apply for_enum_Forall; intros; apply discont_body_lifecycle|]
  end.
  unfold created, saved in Hc, Hs. rewrite Hc, Hs.
  destruct (res (for_enum _ _ _ _ _)) as [e|u]; cbn;
    [outcome_fail | outcome_ok].
Qed.

Lemma plot_median_comparisons_outcome scenes algorithms subdir with_gt_row
    fs r :
  figure_outcome (plot_median_comparisons env scenes algorithms subdir
                    with_gt_row fs r) /\
  length (created (log (plot_median_comparisons env scenes algorithms subdir
                          with_gt_row fs r))) = 1%nat.
Proof.
  unfold figure_outcome, fails, succeeds, plot_median_comparisons, created,
    saved.
  cbn. destruct (Py.head scenes) as [e|scene0]; cbn;
    [split; [outcome_fail | reflexivity]|].
  rewrite res_bind, log_bind, !filter_app.
  match goal with
  | |- context [log (for_enum ?i ?xs ?s ?b r)] =>
      destruct (no_lifecycle (log (for_enum i xs s b r))) as [Hc [_ Hs]];
      [apply for_enum_Forall; intros; apply median_scene_body_lifecycle|]
  end.
  unfold created, saved in Hc, Hs. rewrite Hc, Hs.
  destruct (res (for_enum _ _ _ _ _)) as [e|vars]; cbn;
    [split; [outcome_fail | reflexivity]|].
  destruct (l_scene vars); cbn;
    (split; [first [outcome_fail | outcome_ok] | reflexivity]).
Qed.

End FigureOutcome.

(** C9 (amended). No figure-producing operation closes its figure itself or
    guards it with a cleanup path.  After a call that fails, every figure the
    call created is still open; the figure of [plot_scene_overview] and of
    [plot_median_comparisons] is created before anything can fail, so it is
    always left open by a failing call.  After a call that returns, the one
    figure it created has been handed to [save_tight_figure] once, and is
    closed exactly when [save_tight_figure] closes it. *)
Theorem figures_released_only_by_save R (env : Env R)
    (scenes : list Scene.t) (algorithms : list Algorithm.t) (scene : Scene.t)
    (algorithm : Algorithm.t) (subdir : string) (with_gt_row : bool)
    (fs n_rows xmin ymin ww : Z) (r : R) :
  released_only_by_save (plot_scene_overview env scenes subdir fs r) /\
  released_only_by_save
    (plot_normals_explanation env scene algorithm fs subdir r) /\
  released_only_by_save
    (plot_discont_overview env algorithms scene n_rows fs subdir
       xmin ymin ww r) /\
  released_only_by_save
    (plot_median_comparisons env scenes algorithms subdir with_gt_row fs r) /\
  (forall save_closes,
     (fails (plot_scene_overview env scenes subdir fs r) ->
      open_figures save_closes
        (log (plot_scene_overview env scenes subdir fs r)) = 1) /\
     (fails (plot_median_comparisons env scenes algorithms subdir with_gt_row
               fs r) ->
      open_figures save_closes
        (log (plot_median_comparisons env scenes algorithms subdir
                with_gt_row fs r)) = 1)).
Proof.
  destruct (plot_scene_overview_outcome R env scenes subdir fs r)
    as [Hso Hso1].
  destruct (plot_median_comparisons_outcome R env scenes algorithms subdir
              with_gt_row fs r) as [Hmc Hmc1].
  pose proof (figure_outcome_released _ _ Hso) as [Hsof _].
  pose proof (figure_outcome_released _ _ Hmc) as [Hmcf _].
  split; [now apply figure_outcome_released|].
  split; [apply figure_outcome_released,
            plot_normals_explanation_outcome|].
  split; [apply figure_outcome_released, plot_discont_overview_outcome|].
  split; [now apply figure_outcome_released|].
  intros b. split; intros Hf.
  - rewrite (Hsof Hf b), Hso1. reflexivity.
  - rewrite (Hmcf Hf b). unfold Zlen. rewrite Hmc1. reflexivity.
Qed.

(** C9 as stated fails: when the first scene's center view cannot be loaded,
    [plot_scene_overview] raises and leaves the figure it created open. *)
Lemma figure_left_open_on_failure :
  let o := plot_scene_overview Example.env [Example.missing] "overview" 16
             0%nat in
  res o = inl (CollaboratorError "no center view") /\
  created (log o) = [plt_figure (216 # 10) 4] /\
  saved (log o) = [] /\
  forall save_closes, open_figures save_closes (log o) = 1.
Proof.
  cbn zeta. split; [reflexivity|]. split; [reflexivity|].
  split; [reflexivity|]. intros [|]; reflexivity.
Qed.

(* ------------------------------------------------------------------ *)
(** ** plot_radar_charts *)



(* ------------------------------------------------------------------ *)
(** ** plot_normals_explanation *)

(** [Fmt.tenths q / 10] is within 1/20 of [|q|] (stated after multiplying by
    the denominator of [q] and by 20). *)
Lemma tenths_nearest q :
  0 <= Fmt.tenths q /\
  2 * Z.abs (Fmt.tenths q * Z.pos (Qden q) - 10 * Z.abs (Qnum q))
  <= Z.pos (Qden q).
Proof.
  unfold Fmt.tenths.
  set (t := 10 * Z.abs (Qnum q)). set (d := Z.pos (Qden q)).
  assert (Hd : 0 < d) by (unfold d; lia).
  assert (Ht : 0 <= t) by (unfold t; lia).
  pose proof (Z.div_mod t d ltac:(lia)) as Hdm.
  pose proof (Z.mod_pos_bound t d Hd) as Hm.
  assert (Hq : 0 <= t / d) by (apply Z.div_pos; lia).
  destruct (Z.compare_spec (2 * (t mod d)) d) as [He | Hl | Hg];
    [destruct (Z.even (t / d))|..]; split; nia.
Qed.

(** On a tie the even number of tenths is taken. *)
Lemma tenths_ties_even q :
  2 * Z.abs (Fmt.tenths q * Z.pos (Qden q) - 10 * Z.abs (Qnum q))
  = Z.pos (Qden q) ->
  Z.even (Fmt.tenths q) = true.
Proof.
  unfold Fmt.tenths.
  set (t := 10 * Z.abs (Qnum q)). set (d := Z.pos (Qden q)).
  assert (Hd : 0 < d) by (unfold d; lia).
  assert (Ht : 0 <= t) by (unfold t; lia).
  pose proof (Z.div_mod t d ltac:(lia)) as Hdm.
  pose proof (Z.mod_pos_bound t d Hd) as Hm.
  destruct (Z.compare_spec (2 * (t mod d)) d) as [He | Hl | Hg].
  - destruct (Z.even (t / d)) eqn:Ev; intros _; [exact Ev|].
    replace (t / d + 1) with (Z.succ (t / d)) by lia.
    rewrite Z.even_succ, <- Z.negb_even, Ev. reflexivity.
  - intros H. exfalso. nia.
  - intros H. exfalso. nia.
Qed.

Lemma digit_one_character d :
  0 <= d <= 9 ->
  String.length (NilZero.string_of_uint (N.to_uint (Z.to_N d))) = 1%nat.
Proof.
  intros H.
  assert (Hc : d = 0 \/ d = 1 \/ d = 2 \/ d = 3 \/ d = 4 \/ d = 5 \/ d = 6
               \/ d = 7 \/ d = 8 \/ d = 9) by lia.
  repeat (destruct Hc as [-> | Hc]; [reflexivity|]). subst. reflexivity.
Qed.

(** C8. In [plot_normals_explanation] the mask handed to
    [get_score_from_mask] is the sum of the two evaluation masks, which on
    boolean masks of one shape is their pixel-wise logical or.  The score
    that call returns is shown in the title of the error panel with one
    decimal place: the title is ["Median Angular Error: "], a minus sign for
    a negative score, and the decimal numeral of [n / 10], a point and the
    one digit [n mod 10], where [n] is the number of tenths nearest to the
    absolute value of the score (the even one when two are equally near, as
    for the float 23.25, printed as 23.2). *)
Theorem normals_mask_union_and_title R (env : Env R) (scene : Scene.t)
    (algorithm : Algorithm.t) (fs : Z) (subdir : string) (r : R)
    (gt ar : array) (m_contin m_planes : mask) :
  Scene.get_gt scene = inr gt ->
  get_algo_result env scene algorithm = inr ar ->
  get_evaluation_mask env MAEContinSurf scene = inr m_contin ->
  get_evaluation_mask env MAEPlanes scene = inr m_planes ->
  shape m_contin = shape m_planes ->
  (forall m, Np.add_mask m_contin m_planes = inr m ->
     exists sv, get_score_from_mask env MAEContinSurf ar gt scene m = inr sv) ->
  let o := plot_normals_explanation env scene algorithm fs subdir r in
  exists m score vis n,
    Np.add_mask m_contin m_planes = inr m /\
    shape m = shape m_contin /\
    (forall i j,
       (i < fst (shape m_contin))%nat -> (j < snd (shape m_contin))%nat ->
       px false m i j = px false m_contin i j || px false m_planes i j) /\
    get_score_from_mask env MAEContinSurf ar gt scene m = inr (score, vis) /\
    res o = inr tt /\
    panels_at (log o) 2 =
      [[plt_imshow (Scalar vis) (metric_args MAEContinSurf)]] /\
    0 <= n /\
    2 * Z.abs (n * Z.pos (Qden score) - 10 * Z.abs (Qnum score))
    <= Z.pos (Qden score) /\
    (2 * Z.abs (n * Z.pos (Qden score) - 10 * Z.abs (Qnum score))
     = Z.pos (Qden score) -> Z.even n = true) /\
    String.length (NilZero.string_of_uint (N.to_uint (Z.to_N (n mod 10))))
    = 1%nat /\
    titles (log o) =
      ["Ground Truth Normals"; "Algorithm Normals";
       "Median Angular Error: "
       ++ (if (Qnum score <? 0)%Z then "-" else "")
       ++ NilZero.string_of_uint (N.to_uint (Z.to_N (n / 10)))
       ++ "."
       ++ NilZero.string_of_uint (N.to_uint (Z.to_N (n mod 10)))]%string.
Proof.
  intros Hgt Har Hm1 Hm2 Hshape Hscore o. subst o.
  destruct (binop_same_shape _ _ _ orb false false false m_contin m_planes
              Hshape) as [m [Hm [Hsm Hpx]]].
  fold (Np.add_mask m_contin m_planes) in Hm.
  destruct (Hscore m Hm) as [[score vis] Hsv].
  exists m, score, vis, (Fmt.tenths score).
  split; [assumption|]. split; [assumption|]. split; [assumption|].
  split; [assumption|].
  unfold plot_normals_explanation. cbn.
  rewrite Hgt. cbn. rewrite Har. cbn. rewrite Hm1. cbn. rewrite Hm2. cbn.
  rewrite Hm. cbn. rewrite Hsv. cbn.
  split; [reflexivity|]. split; [reflexivity|].
  destruct (tenths_nearest score) as [Hn Hnear].
  split; [exact Hn|]. split; [exact Hnear|].
  split; [apply tenths_ties_even|].
  split; [|reflexivity].
  apply digit_one_character.
  pose proof (Z.mod_pos_bound (Fmt.tenths score) 10 ltac:(lia)). lia.
Qed.

Lemma normals_mask_union_and_title_witness :
  Scene.get_gt Example.dots = inr Example.gt_a /\
  shape [[false; false]; [false; true]] = shape [[true; false]; [false; false]]
  /\
  (let o := plot_normals_explanation Example.env Example.dots Example.epi1 14
              "overview" 0%nat in
   let m_contin := [[false; false]; [false; true]] in
   let m_planes := [[true; false]; [false; false]] in
   (exists m score vis n,
      Np.add_mask m_contin m_planes = inr m /\
      shape m = shape m_contin /\
      (forall i j,
         (i < fst (shape m_contin))%nat -> (j < snd (shape m_contin))%nat ->
         px false m i j = px false m_contin i j || px false m_planes i j) /\
      get_score_from_mask Example.env MAEContinSurf
        (map (map (fun q => q + (1 # 100))%Q) Example.gt_a) Example.gt_a
        Example.dots m = inr (score, vis) /\
      res o = inr tt /\
      panels_at (log o) 2 =
        [[plt_imshow (Scalar vis) (metric_args MAEContinSurf)]] /\
      0 <= n /\
      2 * Z.abs (n * Z.pos (Qden score) - 10 * Z.abs (Qnum score))
      <= Z.pos (Qden score) /\
      (2 * Z.abs (n * Z.pos (Qden score) - 10 * Z.abs (Qnum score))
       = Z.pos (Qden score) -> Z.even n = true) /\
      String.length (NilZero.string_of_uint (N.to_uint (Z.to_N (n mod 10))))
      = 1%nat /\
      titles (log o) =
        ["Ground Truth Normals"; "Algorithm Normals";
         "Median Angular Error: "
         ++ (if (Qnum score <? 0)%Z then "-" else "")
         ++ NilZero.string_of_uint (N.to_uint (Z.to_N (n / 10)))
         ++ "."
         ++ NilZero.string_of_uint (N.to_uint (Z.to_N (n mod 10)))]%string)
   /\
   Np.add_mask m_contin m_planes = inr [[true; false]; [false; true]] /\
   titles (log o) =
     ["Ground Truth Normals"; "Algorithm Normals";
      "Median Angular Error: 23.2"]%string).
Proof.
  split; [reflexivity|]. split; [reflexivity|].
  split; [|split; reflexivity].
  apply (normals_mask_union_and_title nat Example.env Example.dots
           Example.epi1 14 "overview" 0%nat Example.gt_a
           (map (map (fun q => q + (1 # 100))%Q) Example.gt_a)
           [[false; false]; [false; true]] [[true; false]; [false; false]]);
    try reflexivity.
  intros m _. eexists. reflexivity.
Defined.

(** ["%0.1f"] on some values a float holds exactly: a tie goes to the even
    digit, a small negative score keeps its sign, and a carry reaches the
    integer part. *)
Example f1_examples :
  Fmt.f1 (93 # 4) = "23.2"%string /\ Fmt.f1 (1 # 4) = "0.2"%string /\
  Fmt.f1 (3 # 4) = "0.8"%string /\ Fmt.f1 (- (1 # 32)) = "-0.0"%string /\
  Fmt.f1 (255 # 32) = "8.0"%string.
Proof. repeat split; reflexivity. Qed.

(* ================================================================== *)
(** * Further properties of the routines *)

(* ------------------------------------------------------------------ *)
(** ** Loops, continued *)

Section LoopObservers.

Variables (R X St B : Type).
Variable body : Z -> X -> St -> M R St.
Variable obs : event -> list B.

(** What a successful loop logs is what its iterations log, in order. *)
Lemma for_enum_flat_map (full : Z -> X -> list B) :
  (forall i x s r, succeeds (body i x s r) ->
                   flat_map obs (log (body i x s r)) = full i x) ->
  forall xs i s r,
    succeeds (for_enum i xs s body r) ->
    flat_map obs (log (for_enum i xs s body r)) = enum_flat full i xs.
Proof.
  intros Hb. induction xs as [|x xs IH]; intros i s r Hok; simpl.
  - reflexivity.
  - simpl in Hok. unfold succeeds in Hok. rewrite res_bind in Hok.
    rewrite log_bind, flat_map_app.
    destruct (res (body i x s r)) as [e|s'] eqn:E;
      [destruct Hok; discriminate|].
    rewrite Hb by (eexists; exact E). f_equal. now apply IH.
Qed.

(** A loop fails with the exception of the first iteration that fails. *)
Lemma for_enum_first_failure pre x post e :
  (forall y, In y pre -> forall i s r, succeeds (body i y s r)) ->
  (forall i s r, res (body i x s r) = inl e) ->
  forall i s r, res (for_enum i (pre ++ x :: post) s body r) = inl e.
Proof.
  intros Hpre Hx. induction pre as [|y pre IH]; intros i s r; simpl.
  - rewrite res_bind, Hx. reflexivity.
  - rewrite res_bind. destruct (Hpre y (or_introl eq_refl) i s r) as [s' ->].
    apply IH. intros z Hz. apply Hpre. simpl. auto.
Qed.

(** In a successful loop every iteration succeeded. *)
Lemma for_enum_succeeds_inv xs : forall i s r,
  succeeds (for_enum i xs s body r) ->
  forall x, In x xs -> exists j s' r', succeeds (body j x s' r').
Proof.
  induction xs as [|y xs IH]; intros i s r Hok x Hin; [contradiction|].
  simpl in Hok. unfold succeeds in Hok. rewrite res_bind in Hok.
  destruct (res (body i y s r)) as [e|s'] eqn:E;
    [destruct Hok; discriminate|].
  destruct Hin as [<- | Hin].
  - exists i, s, r. eexists; exact E.
  - eapply IH; eassumption.
Qed.

End LoopObservers.

Lemma enum_flat_const {X B} (f : X -> list B) xs : forall i,
  enum_flat (fun _ x => f x) i xs = flat_map f xs.
Proof.
  induction xs as [|x xs IH]; intros i; simpl; [reflexivity|].
  now rewrite IH.
Qed.

(* ------------------------------------------------------------------ *)
(** ** plot_scene_overview, continued *)

Section SceneOverviewMore.

Variable R : Type.
Variable env : Env R.

Lemma scene_overview_body_succeeds_inv fs cols i s u r :
  succeeds (scene_overview_body env fs cols i s u r) -> scene_loaded s.
Proof.
  unfold scene_overview_body, succeeds, scene_loaded.
  destruct (Scene.get_center_view s) as [e|cv]; cbn; [no_success|].
  destruct (Scene.get_gt s) as [e|g]; cbn; [no_success|].
  intros _. split; eexists; reflexivity.
Qed.

Lemma scene_overview_body_fails fs cols i s u r e :
  load_error s = Some e ->
  res (scene_overview_body env fs cols i s u r) = inl e.
Proof.
  unfold scene_overview_body, load_error.
  destruct (Scene.get_center_view s) as [e1|cv]; cbn;
    [intros H; inversion H; reflexivity|].
  destruct (Scene.get_gt s) as [e2|g]; cbn;
    [intros H; inversion H; reflexivity | discriminate].
Qed.

Lemma scene_overview_body_pixelize fs cols i s u r :
  succeeds (scene_overview_body env fs cols i s u r) ->
  pixelize_calls (log (scene_overview_body env fs cols i s u r)) =
  pixelize_expected s.
Proof.
  unfold scene_overview_body, succeeds, pixelize_expected.
  destruct (Scene.get_center_view s) as [e|cv]; cbn; [no_success|].
  destruct (Scene.get_gt s) as [e|g]; cbn; [no_success|].
  destruct (Scene.hidden_gt s); cbn; reflexivity.
Qed.

Lemma scene_overview_body_captions fs cols i s u r :
  captions (log (scene_overview_body env fs cols i s u r)) = [].
Proof.
  unfold scene_overview_body.
  destruct (Scene.get_center_view s) as [e|cv]; cbn; [reflexivity|].
  destruct (Scene.get_gt s) as [e|g]; cbn; [reflexivity|].
  destruct (Scene.hidden_gt s); cbn; reflexivity.
Qed.

Lemma for_enum_no_captions X St (body : Z -> X -> St -> M R St) :
  (forall i x s r, captions (log (body i x s r)) = []) ->
  forall xs i s r, captions (log (for_enum i xs s body r)) = [].
Proof.
  intros Hb. induction xs as [|x xs IH]; intros i s r; simpl;
    [reflexivity|].
  rewrite log_bind. unfold captions in *. rewrite flat_map_app, Hb.
  destruct (res (body i x s r)); [reflexivity | apply IH].
Qed.

(** [plot_scene_overview] returns exactly when every scene delivers its
    center view and its ground truth; the three captions are annotated on
    a call that returns and on no other. *)
Theorem scene_overview_returns_iff_loaded scenes subdir fs r :
  let o := plot_scene_overview env scenes subdir fs r in
  (succeeds o <-> Forall scene_loaded scenes) /\
  (succeeds o -> captions (log o) = scene_captions) /\
  (fails o -> captions (log o) = []).
Proof.
  cbn zeta.
  assert (Hloop : forall a,
            res (plot_scene_overview env scenes subdir fs r) = inr a ->
            succeeds (for_enum 0 scenes tt
                        (scene_overview_body env fs (Zlen scenes)) r)).
  { unfold plot_scene_overview. cbn. rewrite res_bind. intros a Ha.
    destruct (res (for_enum _ _ _ _ _)) as [e|u] eqn:E; [discriminate|].
    now exists u. }
  assert (Hcap : captions
            (log (plot_scene_overview env scenes subdir fs r)) =
            match res (plot_scene_overview env scenes subdir fs r) with
            | inl _ => []
            | inr _ => scene_captions
            end).
  { unfold plot_scene_overview. cbn. rewrite res_bind, log_bind.
    unfold captions. rewrite flat_map_app.
    fold (captions (log (for_enum 0 scenes tt
                           (scene_overview_body env fs (Zlen scenes)) r))).
    rewrite for_enum_no_captions
      by (intros; apply scene_overview_body_captions).
    destruct (res (for_enum _ _ _ _ _)); reflexivity. }
  split; [split|split].
  - intros [a Ha]. apply Hloop in Ha. apply Forall_forall. intros s Hs.
    destruct (for_enum_succeeds_inv _ _ _ _ scenes 0 tt r Ha s Hs)
      as [j [u [r' Hb]]].
    now apply scene_overview_body_succeeds_inv in Hb.
  - intros Hload. exists tt.
    apply (plot_scene_overview_run R env scenes subdir fs r Hload).
  - intros [a Ha]. rewrite Hcap, Ha. reflexivity.
  - intros [e He]. rewrite Hcap, He. reflexivity.
Qed.

Lemma scene_overview_loop_subplots fs cols pre rest : forall i u r k x,
  Forall scene_loaded pre -> nth_error pre k = Some x ->
  In (i + Z.of_nat k)
     (subplots (log (for_enum i (pre ++ rest) u
                       (scene_overview_body env fs cols) r))).
Proof.
  induction pre as [|y pre IH]; intros i u r k x Hpre Hk;
    [destruct k; discriminate|].
  inversion Hpre as [|? ? Hy Hpre']; subst.
  simpl. rewrite log_bind, subplots_app.
  destruct Hy as [[cv Hcv] [g Hg]].
  destruct (scene_overview_body_run R env fs cols i y u r cv g Hcv Hg)
    as [Hr Hp].
  destruct k as [|k]; simpl in Hk.
  - apply in_or_app. left. rewrite <- panels_cells, Hp. simpl. left. lia.
  - apply in_or_app. right. rewrite Hr.
    replace (i + Z.of_nat (S k)) with (i + 1 + Z.of_nat k) by lia.
    eapply IH; eassumption.
Qed.

(** A call of [plot_scene_overview] fails with the exception of the first
    scene that does not load, after opening the panels of the scenes before
    it, and saves nothing. *)
Theorem scene_overview_first_failure pre s post subdir fs r e :
  Forall scene_loaded pre -> load_error s = Some e ->
  let o := plot_scene_overview env (pre ++ s :: post) subdir fs r in
  res o = inl e /\ saved (log o) = [] /\
  forall k x, nth_error pre k = Some x ->
    In (Z.of_nat k) (subplots (log o)).
Proof.
  intros Hpre He o.
  set (scenes := (pre ++ s :: post)%list) in *.
  set (body := scene_overview_body env fs (Zlen scenes)).
  assert (Hres : res o = inl e).
  { subst o. unfold plot_scene_overview. fold scenes body. cbn.
    rewrite res_bind.
    unfold scenes at 1.
    rewrite (for_enum_first_failure _ _ _ body pre s post e).
    - reflexivity.
    - intros y Hy i u r0. rewrite Forall_forall in Hpre.
      apply scene_overview_body_succeeds. now apply Hpre.
    - intros i u r0. now apply scene_overview_body_fails. }
  split; [assumption|]. split.
  - destruct (plot_scene_overview_outcome R env scenes subdir fs r)
      as [[[_ [Hs _]] | [[a Ha] _]] _]; [exact Hs|].
    fold o in Ha. congruence.
  - intros k x Hk. subst o. unfold plot_scene_overview. fold scenes body.
    cbn. rewrite log_bind, subplots_app. apply in_or_app. left.
    unfold scenes at 1, body.
    apply (scene_overview_loop_subplots fs (Zlen scenes) pre (s :: post)
             0 tt r k x Hpre Hk).
Qed.

(** In a call of [plot_scene_overview] whose scenes load,
    [plotting.pixelize] is called once for every hidden scene, in the order
    of the scenes, on the scene's ground truth and with noise factor 0.5,
    and for no other scene. *)
Theorem scene_overview_pixelize_calls scenes subdir fs r :
  Forall scene_loaded scenes ->
  let o := plot_scene_overview env scenes subdir fs r in
  pixelize_calls (log o) = flat_map pixelize_expected scenes /\
  length (pixelize_calls (log o)) = length (filter Scene.hidden_gt scenes).
Proof.
  intros Hload o.
  assert (H : pixelize_calls (log o) = flat_map pixelize_expected scenes).
  { destruct (plot_scene_overview_run R env scenes subdir fs r Hload)
      as [Hres _]. fold o in Hres. subst o.
    unfold plot_scene_overview in *. cbn in *.
    rewrite res_bind in Hres. rewrite log_bind.
    destruct (res (for_enum _ _ _ _ _)) as [e|u] eqn:E; [discriminate|].
    unfold pixelize_calls. rewrite flat_map_app. cbn. rewrite app_nil_r.
    rewrite (for_enum_flat_map _ _ _ _ _ pixelize_call_of
               (fun _ s => pixelize_expected s)).
    - apply enum_flat_const.
    - intros. now apply scene_overview_body_pixelize.
    - eexists; exact E. }
  split; [assumption|]. rewrite H. clear H.
  induction Hload as [|s l [[cv Hcv] [g Hg]] _ IH]; simpl; [reflexivity|].
  rewrite length_app, IH. unfold pixelize_expected. rewrite Hg.
  destruct (Scene.hidden_gt s); reflexivity.
Qed.

End SceneOverviewMore.

(* ------------------------------------------------------------------ *)
(** ** plot_normals_explanation, continued *)

(** [plot_normals_explanation] fetches and scores everything before it draws:
    a call that fails has opened no panel and saved nothing; a call that
    returns has opened the cells 0 to 3 in order, put the colorbar on cell 3,
    and saved once, as ["metrics_<scene>_<algorithm>"]. *)
Theorem normals_explanation_all_or_nothing R (env : Env R) (scene : Scene.t)
    (algorithm : Algorithm.t) (fs : Z) (subdir : string) (r : R) :
  let o := plot_normals_explanation env scene algorithm fs subdir r in
  (fails o -> cells (log o) = [] /\ saved (log o) = []) /\
  (succeeds o ->
   cells (log o) = [0; 1; 2; 3; 3] /\
   saved (log o) =
     [save_tight_figure
        ("metrics_" ++ Scene.get_name scene ++ "_"
         ++ Algorithm.get_name algorithm)
        subdir false true (4 # 100) (3 # 100) None]).
Proof.
  unfold plot_normals_explanation, fails, succeeds.
  destruct (Scene.get_gt scene) as [e|gt]; cbn;
    [split; [auto | no_success]|].
  destruct (get_algo_result env scene algorithm) as [e|ar]; cbn;
    [split; [auto | no_success]|].
  destruct (get_evaluation_mask env MAEContinSurf scene) as [e|m1]; cbn;
    [split; [auto | no_success]|].
  destruct (get_evaluation_mask env MAEPlanes scene) as [e|m2]; cbn;
    [split; [auto | no_success]|].
  destruct (Np.add_mask m1 m2) as [e|m]; cbn; [split; [auto | no_success]|].
  destruct (get_score_from_mask env MAEContinSurf ar gt scene m)
    as [e|[score vis]]; cbn; [split; [auto | no_success]|].
  split; [intros [e He]; discriminate He | auto].
Qed.

(* ------------------------------------------------------------------ *)
(** ** plot_discont_overview, continued *)

(** The number of panel columns of [plot_discont_overview] is the least one
    with which [n_rows] rows hold the center view and the [n] algorithms. *)
Theorem n_entries_per_row_least n n_rows :
  0 <= n -> 1 <= n_rows ->
  let E := n_entries_per_row n n_rows in
  n + 1 <= n_rows * E /\
  forall E', n + 1 <= n_rows * E' -> E <= E'.
Proof.
  intros Hn Hr E. subst E. unfold n_entries_per_row. rewrite Qceiling_div.
  pose proof (Z.div_mod (- (n + 1)) n_rows ltac:(lia)) as Hdm.
  pose proof (Z.mod_pos_bound (- (n + 1)) n_rows ltac:(lia)) as Hm.
  split; [nia|]. intros E' HE'. nia.
Qed.

Lemma n_entries_per_row_least_witness :
  0 <= 5 /\ 1 <= 2 /\
  let E := n_entries_per_row 5 2 in
  5 + 1 <= 2 * E /\ forall E', 5 + 1 <= 2 * E' -> E <= E'.
Proof.
  split; [lia|]. split; [lia|].
  apply (n_entries_per_row_least 5 2); lia.
Defined.

Section DiscontMore.

Variable R : Type.
Variable env : Env R.

(** With [n_rows = 0], [plot_discont_overview] raises [ZeroDivisionError]
    before any call into pyplot.  With at least one row (and numbers that a
    float holds exactly) there is at least one panel column, the figure is
    requested once, with a positive width and a positive height, and the
    grid once, with [2 * n_rows] rows and one column more than the panel
    columns, however the run ends. *)
Theorem discont_no_figure_iff_zero_rows algorithms scene n_rows fs subdir
    xmin ymin ww r :
  0 <= n_rows < 2 ^ 53 -> Zlen algorithms + 1 < 2 ^ 53 ->
  let o := plot_discont_overview env algorithms scene n_rows fs subdir
             xmin ymin ww r in
  let E := n_entries_per_row (Zlen algorithms) n_rows in
  let width := (inject_Z (E + 1) * (17 # 10))%Q in
  let height := ((145 # 100) * inject_Z (2 * n_rows) * (15 # 10))%Q in
  if n_rows =? 0
  then res o = inl ZeroDivisionError /\ log o = []
  else 1 <= E /\ (0 < width)%Q /\ (0 < height)%Q /\
       created (log o) = [plt_figure width height] /\
       grids (log o) =
         [prepare_grid_with_colorbar (2 * n_rows) (E + 1) scene].
Proof.
  intros Hrange _. cbn zeta.
  destruct (Z.eqb_spec n_rows 0) as [-> | Hr]; [split; reflexivity|].
  destruct (n_entries_per_row_spec (Zlen algorithms) n_rows
              (Zlen_nonneg algorithms) ltac:(lia)) as [HE _].
  assert (Hpos : forall z, 0 < z -> (0 < inject_Z z)%Q)
    by (intros z Hz; cbv [Qlt inject_Z Qnum Qden]; lia).
  split; [exact HE|]. split; [|split].
  - apply Qmult_lt_0_compat; [apply Hpos; lia | reflexivity].
  - apply Qmult_lt_0_compat; [|reflexivity].
    apply Qmult_lt_0_compat; [reflexivity | apply Hpos; lia].
  - unfold plot_discont_overview, Py.ceil_fdiv.
    destruct (Z.eqb_spec n_rows 0); [contradiction|]. cbn.
    fold (n_entries_per_row (Zlen algorithms) n_rows).
    destruct (Scene.get_gt scene) as [e|gt]; cbn; [split; reflexivity|].
    destruct (get_algo_result env scene (PerPixMedianDiff env)) as [e|med];
      cbn; [split; reflexivity|].
    destruct (Scene.get_center_view scene) as [e|cv]; cbn;
      [split; reflexivity|].
    rewrite log_bind.
    match goal with
    | |- context [log (for_enum ?i ?xs ?s ?b r)] =>
        destruct (no_lifecycle (log (for_enum i xs s b r))) as [Hc [Hg _]];
        [apply for_enum_Forall; intros; apply discont_body_lifecycle|]
    end.
    unfold created, grids in *. rewrite !filter_app, Hc, Hg.
    destruct (res (for_enum _ _ _ _ _)); cbn; split; reflexivity.
Qed.

End DiscontMore.

Lemma flat_map_singleton {A B} (f : A -> B) l :
  flat_map (fun x => [f x]) l = map f l.
Proof. induction l as [|x l IH]; simpl; [reflexivity | now rewrite IH]. Qed.


Section DiscontComplete2.

Variable R : Type.
Variable env : Env R.

Lemma discont_body_titles scene fs xmin ymin ww E cols cbh cbw gt med
    i a u r :
  succeeds (discont_body env scene fs xmin ymin ww 2 E cols cbh cbw gt med
              i a u r) ->
  titles (log (discont_body env scene fs xmin ymin ww 2 E cols cbh cbw gt med
                 i a u r)) = [Algorithm.get_display_name a].
Proof.
  unfold discont_body, succeeds.
  destruct (get_algo_result env scene a) as [e|ar]; cbn; [no_success|].
  unfold Py.mod_, Py.floordiv. destruct (Z.eqb_spec E 0); cbn; [no_success|].
  unfold when.
  destruct (Py.not_ ((i + 1) mod E)), (Py.not_ ((i + 1 + 1) mod E)),
    (median_diff_of med gt ar); cbn; try no_success; reflexivity.
Qed.

(** The log of a complete run of [plot_discont_overview]. *)
Lemma plot_discont_overview_complete algorithms scene n_rows fs subdir
    xmin ymin ww r cv :
  1 <= n_rows ->
  results_ok env algorithms scene ->
  Scene.get_center_view scene = inr cv ->
  let o := plot_discont_overview env algorithms scene n_rows fs subdir
             xmin ymin ww r in
  let E := n_entries_per_row (Zlen algorithms) n_rows in
  exists g med loop,
    Scene.get_gt scene = inr g /\
    get_algo_result env scene (PerPixMedianDiff env) = inr med /\
    loop = for_enum 0 algorithms tt
             (discont_body env scene fs xmin ymin ww 2 E (E + 1)
                (fst (colorbar_size env (2 * n_rows) (E + 1) scene))
                (snd (colorbar_size env (2 * n_rows) (E + 1) scene)) g med) r
    /\ succeeds loop /\ res o = inr tt /\
    log o =
      ([plt_figure (inject_Z (E + 1) * (17 # 10))
          ((145 # 100) * inject_Z (2 * n_rows) * (15 # 10));
        prepare_grid_with_colorbar (2 * n_rows) (E + 1) scene;
        plt_subplot 0;
        plt_imshow
          (Color (Np.window ymin (ymin + ww) xmin (xmin + ww) cv)) no_args;
        plt_title "Center View" fs;
        plt_ylabel "DispMap" (Some fs);
        plt_subplot (E + 1);
        plt_ylabel "MedianDiff" (Some fs)]
       ++ log loop
       ++ [save_tight_figure ("discont_" ++ Scene.get_name scene) subdir
             true true (3 # 100) (3 # 100) (Some 100)])%list.
Proof.
  intros Hrows Hok Hcv o E.
  destruct (plot_discont_overview_log R env algorithms scene n_rows fs subdir
              xmin ymin ww r cv Hrows Hok Hcv)
    as [g [med [loop [Hg [Hmed [_ [Hloop [Hu [Hres _]]]]]]]]].
  fold o E in Hloop, Hres.
  exists g, med, loop. repeat (split; [assumption|]).
  subst o. unfold plot_discont_overview, Py.ceil_fdiv.
  destruct (Z.eqb_spec n_rows 0); [lia|]. cbn.
  fold (n_entries_per_row (Zlen algorithms) n_rows). fold E.
  rewrite Hg. cbn. rewrite Hmed. cbn. rewrite Hcv. cbn.
  rewrite log_bind. rewrite <- Hloop. destruct Hu as [u Hu]. rewrite Hu.
  reflexivity.
Qed.

End DiscontComplete2.

(* ------------------------------------------------------------------ *)
(** ** Sparse concatenations *)

Lemma enum_flat_nil_from {X B} (full : Z -> X -> list B) xs : forall i,
  (forall j x, i <= j -> full j x = []) -> enum_flat full i xs = [].
Proof.
  induction xs as [|x xs IH]; intros i H; simpl; [reflexivity|].
  rewrite H by lia. apply IH. intros j y Hj. apply H. lia.
Qed.


Lemma enum_flat_last_only {X B} (full : Z -> X -> list B) xs d : forall i,
  xs <> [] ->
  (forall j y, j < i + Zlen xs - 1 -> full j y = []) ->
  enum_flat full i xs = full (i + Zlen xs - 1) (last xs d).
Proof.
  induction xs as [|x xs IH]; intros i Hne H; [contradiction|].
  rewrite Zlen_cons in *. pose proof (Zlen_nonneg xs) as Hl.
  destruct xs as [|y ys].
  - simpl. rewrite app_nil_r. f_equal. unfold Zlen. simpl. lia.
  - assert (Hx : full i x = []).
    { apply H. rewrite Zlen_cons. pose proof (Zlen_nonneg ys). lia. }
    assert (Hrest : enum_flat full (i + 1) (y :: ys) =
                    full (i + 1 + Zlen (y :: ys) - 1) (last (y :: ys) d)).
    { apply IH; [discriminate|]. intros j z Hj. apply H. lia. }
    change (enum_flat full i (x :: y :: ys))
      with (full i x ++ enum_flat full (i + 1) (y :: ys))%list.
    rewrite Hx, Hrest. simpl app. f_equal. lia.
Qed.

(* ------------------------------------------------------------------ *)
(** ** plot_median_comparisons, continued *)

Section MedianDecorations.

Variable R : Type.
Variable env : Env R.
Variables (fs cols : Z) (cb_height cb_width : Q).

Ltac algo_obs_tac :=
  unfold median_algo_body, succeeds, when;
  match goal with
  | |- context [get_algo_result env ?s ?a] =>
      destruct (get_algo_result env s a) as [?e|?ar]; cbn; [no_success|]
  end;
  match goal with
  | |- context [Np.sub ?g ?ar] =>
      destruct (Np.sub g ar) as [?e|?err]; cbn;
      [repeat match goal with
              | |- context [if ?b then _ else _] => destruct b; cbn
              end; no_success|]
  end;
  match goal with
  | |- context [median_diff_of ?m ?g ?ar] =>
      destruct (median_diff_of m g ar) as [?e|?md]; cbn;
      [repeat match goal with
              | |- context [if ?b then _ else _] => destruct b; cbn
              end; no_success|]
  end.



Lemma median_algo_body_colorbars scene idx_s add_label add_colorbar_ gt med
    i a s r :
  succeeds (median_algo_body env scene fs cols idx_s add_label add_colorbar_
              cb_height cb_width gt med i a s r) ->
  colorbars (log (median_algo_body env scene fs cols idx_s add_label
                    add_colorbar_ cb_height cb_width gt med i a s r)) =
  if add_colorbar_
  then [(i * cols + 3 * idx_s + 2 + 1, median_colorbar_args i)] else [].
Proof.
  algo_obs_tac. unfold median_colorbar_args.
  destruct (i =? 0), add_label, add_colorbar_; cbn;
    try destruct (i mod 2 =? 0); cbn; reflexivity.
Qed.

End MedianDecorations.

Lemma enum_flat_ext {X B} (f g : Z -> X -> list B) xs : forall i,
  (forall j x, i <= j -> f j x = g j x) ->
  enum_flat f i xs = enum_flat g i xs.
Proof.
  induction xs as [|x xs IH]; intros i H; simpl; [reflexivity|].
  rewrite H by lia. f_equal. apply IH. intros j y Hj. apply H. lia.
Qed.

Section MedianSceneDecorations.

Variable R : Type.
Variable env : Env R.
Variables (fs cols : Z) (cb_height cb_width : Q).
Variables (algorithms : list Algorithm.t) (with_gt_row : bool).
Variable n_scenes : Z.
Hypothesis Hne : algorithms <> [].

Local Abbreviation scene_body :=
  (median_scene_body env algorithms with_gt_row fs cols n_scenes
     cb_height cb_width).



Lemma median_scene_body_colorbars i scene vars r :
  succeeds (scene_body i scene vars r) ->
  colorbars (log (scene_body i scene vars r)) =
  if i =? n_scenes - 1
  then (enum_flat (fun a _ => [(a * cols + 3 * i + 2 + 1,
                                median_colorbar_args a)]) 0 algorithms
        ++ (if with_gt_row
            then [(Zlen algorithms * cols + 3 * i + 2 + 1, abs_diff_map_args)]
            else []))%list
  else [].
Proof.
  unfold median_scene_body, succeeds.
  destruct (Scene.get_gt scene) as [e|gt]; cbn; [no_success|].
  destruct (get_algo_result env scene (PerPixMedianDiff env)) as [e|med];
    cbn; [no_success|].
  rewrite res_bind, log_bind. unfold colorbars. rewrite flat_map_app.
  destruct (res (for_enum _ _ _ _ _)) as [e|idx_a] eqn:E; [no_success|].
  rewrite (for_enum_flat_map _ _ _ _ _ colorbar_of
             (fun a _ => if i =? n_scenes - 1
                         then [(a * cols + 3 * i + 2 + 1,
                                median_colorbar_args a)] else []))
    by (first [ intros; now apply median_algo_body_colorbars
              | eexists; exact E ]).
  apply for_enum_last_index in E;
    [| apply median_algo_body_value | exact Hne].
  subst idx_a.
  replace (0 + Zlen algorithms - 1) with (Zlen algorithms - 1) by lia.
  destruct with_gt_row; cbn.
  - replace (Zlen algorithms - 1 + 1) with (Zlen algorithms) by lia.
    unfold when.
    destruct (i =? 0), (Np.sub gt med) as [e|d]; cbn; try no_success;
      destruct (i =? n_scenes - 1); cbn; intros _;
      rewrite ?enum_flat_nil_from by reflexivity; reflexivity.
  - destruct (i =? n_scenes - 1); intros _;
      rewrite ?app_nil_r, ?enum_flat_nil_from by reflexivity; reflexivity.
Qed.

End MedianSceneDecorations.

Section MedianCompleteLog.

Variable R : Type.
Variable env : Env R.

(** The log of a run of [plot_median_comparisons] whose scene loop runs to
    its end. *)
Lemma plot_median_comparisons_complete scenes algorithms subdir with_gt_row
    fs r s0 :
  Py.head scenes = inr s0 ->
  let rows := Zlen algorithms + Py.int_of_bool with_gt_row in
  let cols := Zlen scenes * 3 + 1 in
  let loop :=
    for_enum 0 scenes (Locals None None)
      (median_scene_body env algorithms with_gt_row fs cols (Zlen scenes)
         (fst (colorbar_size env rows cols s0) * (8 # 10))%Q
         (snd (colorbar_size env rows cols s0))) r in
  succeeds loop ->
  let o := plot_median_comparisons env scenes algorithms subdir with_gt_row
             fs r in
  res o = inr tt /\
  log o =
    ([plt_figure (inject_Z cols * (13 # 10)) (inject_Z rows * (15 # 10));
      prepare_grid_with_colorbar rows cols s0]
     ++ log loop
     ++ [save_tight_figure
           ("median_comparison_" ++ Scene.get_category (last scenes s0))
           subdir true true (2 # 100) 0 None])%list.
Proof.
  intros Hhead rows cols loop [vars Hvars] o. subst o.
  assert (Hne : scenes <> []) by (destruct scenes; discriminate).
  pose proof (for_enum_final _ _ _ _ _ l_scene (fun _ x => Some x)
                (fun i x s r0 v => median_scene_body_scene R env algorithms
                   with_gt_row fs cols (Zlen scenes) _ _ i x s r0 v)
                scenes 0 (Locals None None) r vars s0 Hne Hvars) as Hlast.
  cbn beta in Hlast.
  unfold plot_median_comparisons. fold rows cols. cbn. rewrite Hhead. cbn.
  fold loop. rewrite res_bind, log_bind. fold loop. rewrite Hvars, Hlast.
  cbn. split; reflexivity.
Qed.

Lemma median_loop_succeeds scenes algorithms with_gt_row fs cols n cbh cbw
    r vars :
  algorithms <> [] ->
  Forall (results_ok env algorithms) scenes ->
  succeeds (for_enum 0 scenes vars
              (median_scene_body env algorithms with_gt_row fs cols n
                 cbh cbw) r).
Proof.
  intros Ha Hok. apply for_enum_succeeds.
  eapply Forall_impl; [|exact Hok]. intros s Hs i v0 r0.
  destruct (median_scene_body_run R env fs cols cbh cbw algorithms
              with_gt_row n s Ha Hs i v0 r0) as [ia Hia].
  eexists; exact Hia.
Qed.

(** A complete run of [plot_median_comparisons] saves one figure, named after
    the category of the last scene of the list, whatever the categories of
    the scenes before it. *)
Theorem median_comparison_named_after_last_scene scenes algorithms subdir
    with_gt_row fs r d :
  scenes <> [] -> algorithms <> [] ->
  Forall (results_ok env algorithms) scenes ->
  let o := plot_median_comparisons env scenes algorithms subdir with_gt_row
             fs r in
  res o = inr tt /\
  saved (log o) =
    [save_tight_figure
       ("median_comparison_" ++ Scene.get_category (last scenes d))
       subdir true true (2 # 100) 0 None].
Proof.
  intros Hs Ha Hok o.
  destruct (plot_median_comparisons_run R env scenes algorithms subdir
              with_gt_row fs r d Hs Ha Hok) as [Hres [_ [_ [Hsaved _]]]].
  split; assumption.
Qed.

(** Without algorithms and without the reference row,
    [plot_median_comparisons] fails on nothing: when the scenes' ground truth
    and median baseline load, it returns and saves a figure on which no
    panel was opened. *)
Theorem median_comparisons_empty_figure scenes subdir fs r :
  scenes <> [] ->
  Forall (results_ok env []) scenes ->
  let o := plot_median_comparisons env scenes [] subdir false fs r in
  res o = inr tt /\ cells (log o) = [] /\ length (saved (log o)) = 1%nat.
Proof.
  intros Hs Hok. cbn zeta.
  destruct scenes as [|s0 rest] eqn:Es; [contradiction|]. rewrite <- Es in *.
  assert (Hhead : Py.head scenes = inr s0) by (rewrite Es; reflexivity).
  assert (Hbody : forall cols n cbh cbw s, results_ok env [] s ->
            forall i v0 r0,
              median_scene_body env [] false fs cols n cbh cbw i s v0 r0 =
              Out [] r0 (inr (Locals (l_idx_a v0) (Some s)))).
  { intros cols n cbh cbw s [g [Hg [[med [Hmed _]] _]]] i v0 r0.
    unfold median_scene_body. rewrite Hg, Hmed. reflexivity. }
  assert (Hloop : forall cols n cbh cbw l v0 r0 i,
            Forall (results_ok env []) l ->
            succeeds (for_enum i l v0
                        (median_scene_body env [] false fs cols n cbh cbw)
                        r0) /\
            log (for_enum i l v0
                   (median_scene_body env [] false fs cols n cbh cbw) r0)
            = []).
  { intros cols n cbh cbw l. induction l as [|s l IH];
      intros v0 r0 i Hl; simpl.
    - split; [eexists; reflexivity | reflexivity].
    - inversion Hl; subst. unfold succeeds. rewrite res_bind, log_bind.
      rewrite Hbody by assumption. cbn. apply IH. assumption. }
  destruct (plot_median_comparisons_complete scenes [] subdir false fs r s0
              Hhead) as [Hres Hlog].
  { apply Hloop. exact Hok. }
  cbn zeta in Hres, Hlog. split; [assumption|].
  rewrite Hlog.
  match goal with
  | |- context [log (for_enum 0 scenes ?v ?b r)] =>
      destruct (Hloop (Zlen scenes * 3 + 1) (Zlen scenes)
                  (fst (colorbar_size env
                          (Zlen (@nil Algorithm.t) + Py.int_of_bool false)
                          (Zlen scenes * 3 + 1) s0) * (8 # 10))%Q
                  (snd (colorbar_size env
                          (Zlen (@nil Algorithm.t) + Py.int_of_bool false)
                          (Zlen scenes * 3 + 1) s0))
                  scenes (Locals None None) r 0 Hok) as [_ Hl]
  end.
  rewrite Hl. split; reflexivity.
Qed.


(** In a complete run of [plot_median_comparisons] every row gets exactly one
    colorbar, in the last column of the grid and in the order of the rows; it
    describes the error map on even algorithm rows, the median-diff map on
    odd ones, and the absolute difference to the baseline on the reference
    row. *)
Theorem median_comparisons_colorbars scenes algorithms subdir with_gt_row
    fs r :
  scenes <> [] -> algorithms <> [] ->
  Forall (results_ok env algorithms) scenes ->
  let o := plot_median_comparisons env scenes algorithms subdir with_gt_row
             fs r in
  let cols := Zlen scenes * 3 + 1 in
  colorbars (log o) =
    (enum_flat (fun a _ => [(a * cols + (cols - 1), median_colorbar_args a)])
       0 algorithms
     ++ (if with_gt_row
         then [(Zlen algorithms * cols + (cols - 1), abs_diff_map_args)]
         else []))%list.
Proof.
  intros Hs Ha Hok. cbn zeta.
  destruct scenes as [|s0 rest] eqn:Es; [contradiction|]. rewrite <- Es in *.
  assert (Hhead : Py.head scenes = inr s0) by (rewrite Es; reflexivity).
  destruct (plot_median_comparisons_complete scenes algorithms subdir
              with_gt_row fs r s0 Hhead) as [_ Hlog].
  { now apply median_loop_succeeds. }
  cbn zeta in Hlog. rewrite Hlog. unfold colorbars.
  set (cols := Zlen scenes * 3 + 1).
  rewrite !flat_map_app. cbn. rewrite !app_nil_r.
  rewrite (for_enum_flat_map _ _ _ _ _ colorbar_of
             (fun i _ =>
                if i =? Zlen scenes - 1
                then (enum_flat (fun a _ => [(a * cols + 3 * i + 2 + 1,
                                              median_colorbar_args a)])
                        0 algorithms
                      ++ (if with_gt_row
                          then [(Zlen algorithms * cols + 3 * i + 2 + 1,
                                 abs_diff_map_args)]
                          else []))%list
                else []));
    [| intros; now apply median_scene_body_colorbars
     | now apply median_loop_succeeds].
  rewrite (enum_flat_last_only _ scenes s0 0 Hs) by
    (intros j y Hj;
     destruct (Z.eqb_spec j (Zlen scenes - 1)); [lia | reflexivity]).
  replace (0 + Zlen scenes - 1) with (Zlen scenes - 1) by lia.
  rewrite Z.eqb_refl. f_equal.
  - apply enum_flat_ext. intros j x _. do 2 f_equal. unfold cols. lia.
  - destruct with_gt_row; [|reflexivity]. do 2 f_equal. unfold cols. lia.
Qed.

End MedianCompleteLog.

Section MedianPanels.

Variable R : Type.
Variable env : Env R.
Variables (fs cols : Z) (cb_height cb_width : Q).
Variables (algorithms : list Algorithm.t) (with_gt_row : bool).
Variable n_scenes : Z.
Variable scene : Scene.t.
Hypothesis Hne : algorithms <> [].
Hypothesis Hok : results_ok env algorithms scene.

Lemma median_scene_body_map_panels i vars r k a :
  nth_error algorithms k = Some a ->
  exists g ar err,
    Scene.get_gt scene = inr g /\
    get_algo_result env scene a = inr ar /\
    shape ar = shape g /\
    Np.sub g ar = inr err /\
    In (Z.of_nat k * cols + 3 * i,
        [plt_imshow (Scalar ar) (disp_map_args scene)])
       (panels (log (median_scene_body env algorithms with_gt_row fs cols
                       n_scenes cb_height cb_width i scene vars r))) /\
    In (Z.of_nat k * cols + 3 * i + 1,
        [plt_imshow (Scalar err) (diff_map_args (- (1 # 10)) (1 # 10))])
       (panels (log (median_scene_body env algorithms with_gt_row fs cols
                       n_scenes cb_height cb_width i scene vars r))).
Proof.
  intros Hk. pose proof Hok as [g [Hg [[med [Hmed Hsm]] Hall]]].
  rewrite Forall_forall in Hall.
  destruct (Hall a (nth_error_In _ _ Hk)) as [ar [Har Hsa]].
  destruct (sub_same_shape g ar (eq_sym Hsa)) as [err Herr].
  exists g, ar, err. repeat (split; [assumption|]).
  unfold median_scene_body. rewrite Hg, Hmed. cbn.
  rewrite log_bind,
    (median_inner_succeeds R env fs cols cb_height cb_width algorithms scene
       Hne Hok g med) by assumption.
  rewrite panels_app.
  2:{ destruct with_gt_row; cbn; reflexivity. }
  match goal with
  | |- In _ (panels (log (for_enum 0 algorithms ?s0 ?b r)) ++ _) /\ _ =>
      destruct (for_enum_panels _ _ _ b
                  (median_algo_body_quiet R env fs cols cb_height cb_width
                     scene i (i =? 0) (i =? n_scenes - 1) g med)
                  algorithms 0 s0 r k a) as [s_k [r_k [_ Hincl]]];
      [eexists;
       apply (median_inner_succeeds R env fs cols cb_height cb_width
                algorithms scene Hne Hok g med); assumption
      | assumption |]
  end.
  destruct (median_algo_body_run R env fs cols cb_height cb_width scene i
              (i =? 0) (i =? n_scenes - 1) g med
              (0 + Z.of_nat k) a s_k r_k ar Har Hsa Hsm)
    as [err' [md [Herr' [_ [_ Hp]]]]].
  assert (err' = err) by congruence. subst err'.
  rewrite Hp in Hincl. rewrite Z.add_0_l in Hincl.
  split; apply in_or_app; left; apply Hincl; simpl; auto.
Qed.

Lemma median_scene_body_reference_panels i vars r :
  with_gt_row = true ->
  exists g med d,
    Scene.get_gt scene = inr g /\
    get_algo_result env scene (PerPixMedianDiff env) = inr med /\
    shape med = shape g /\
    Np.sub g med = inr d /\
    In (Zlen algorithms * cols + 3 * i,
        [plt_imshow (Scalar g) (disp_map_args scene)])
       (panels (log (median_scene_body env algorithms with_gt_row fs cols
                       n_scenes cb_height cb_width i scene vars r))) /\
    In (Zlen algorithms * cols + 3 * i + 1,
        [plt_imshow (Scalar (Np.abs d)) abs_diff_map_args])
       (panels (log (median_scene_body env algorithms with_gt_row fs cols
                       n_scenes cb_height cb_width i scene vars r))).
Proof.
  intros Hgt. pose proof Hok as [g [Hg [[med [Hmed Hsm]] Hall]]].
  destruct (sub_same_shape g med (eq_sym Hsm)) as [d Hd].
  exists g, med, d. repeat (split; [assumption|]).
  unfold median_scene_body. rewrite Hg, Hmed, Hgt. cbn.
  rewrite log_bind,
    (median_inner_succeeds R env fs cols cb_height cb_width algorithms scene
       Hne Hok g med) by assumption.
  rewrite panels_app by reflexivity. cbn.
  replace (Zlen algorithms - 1 + 1) with (Zlen algorithms) by lia.
  rewrite Hd. unfold when.
  destruct (i =? 0), (i =? n_scenes - 1); cbn;
    split; apply in_or_app; right; simpl; auto.
Qed.

End MedianPanels.

Section MedianAllPanels.

Variable R : Type.
Variable env : Env R.

Lemma median_panels_of_scene scenes algorithms subdir with_gt_row fs r k s :
  scenes <> [] -> algorithms <> [] ->
  Forall (results_ok env algorithms) scenes ->
  nth_error scenes k = Some s ->
  let o := plot_median_comparisons env scenes algorithms subdir with_gt_row
             fs r in
  NoDup (cells (log o)) /\
  exists cbh cbw vars r_k,
    incl (panels (log (median_scene_body env algorithms with_gt_row fs
                         (Zlen scenes * 3 + 1) (Zlen scenes) cbh cbw
                         (Z.of_nat k) s vars r_k)))
         (panels (log o)).
Proof.
  intros Hs Ha Hok Hk. cbn zeta. split.
  { eapply prefix_of_NoDup.
    - apply plot_median_comparisons_cells. exact Ha.
    - apply median_all_cells_facts; reflexivity. }
  destruct scenes as [|s0 rest] eqn:Es; [contradiction|]. rewrite <- Es in *.
  assert (Hhead : Py.head scenes = inr s0) by (rewrite Es; reflexivity).
  destruct (plot_median_comparisons_complete R env scenes algorithms subdir
              with_gt_row fs r s0 Hhead) as [_ Hlog].
  { now apply median_loop_succeeds. }
  cbn zeta in Hlog. rewrite Hlog.
  match goal with
  | |- context [for_enum 0 scenes ?v
                  (median_scene_body _ _ _ _ _ _ ?cbh ?cbw) r] =>
      exists cbh, cbw;
      destruct (for_enum_panels _ _ _
                  (median_scene_body env algorithms with_gt_row fs
                     (Zlen scenes * 3 + 1) (Zlen scenes) cbh cbw)
                  (fun i x v0 r0 => median_scene_body_quiet R env fs
                     (Zlen scenes * 3 + 1) cbh cbw algorithms with_gt_row
                     (Zlen scenes) x i v0 r0)
                  scenes 0 v r k s) as [v_k [r_k [_ Hincl]]];
      [now apply median_loop_succeeds | assumption |]
  end.
  exists v_k, r_k. rewrite Z.add_0_l in Hincl.
  cbn. rewrite panels_app by reflexivity.
  intros p Hp. apply in_or_app. left. now apply Hincl.
Qed.

(** In a complete run of [plot_median_comparisons], the first panel of a
    scene and an algorithm shows the algorithm's disparity map as it is, the
    second the signed error [gt - algo_result], pixel by pixel, on the scale
    [-0.1, 0.1]; with the reference row, the scene's last row shows the
    ground truth and the absolute difference between the ground truth and the
    per-pixel median baseline. *)
Theorem median_comparisons_map_panels scenes algorithms subdir with_gt_row
    fs r :
  scenes <> [] -> algorithms <> [] ->
  Forall (results_ok env algorithms) scenes ->
  let o := plot_median_comparisons env scenes algorithms subdir with_gt_row
             fs r in
  let cols := Zlen scenes * 3 + 1 in
  forall k s, nth_error scenes k = Some s ->
    exists g med,
      Scene.get_gt s = inr g /\
      get_algo_result env s (PerPixMedianDiff env) = inr med /\
      (forall j a, nth_error algorithms j = Some a ->
         exists ar err,
           get_algo_result env s a = inr ar /\
           Np.sub g ar = inr err /\
           (forall y x, (y < fst (shape g))%nat -> (x < snd (shape g))%nat ->
              px 0%Q err y x = (px 0%Q g y x - px 0%Q ar y x)%Q) /\
           panels_at (log o) (Z.of_nat j * cols + 3 * Z.of_nat k) =
             [[plt_imshow (Scalar ar) (disp_map_args s)]] /\
           panels_at (log o) (Z.of_nat j * cols + 3 * Z.of_nat k + 1) =
             [[plt_imshow (Scalar err)
                 (diff_map_args (- (1 # 10)) (1 # 10))]]) /\
      (with_gt_row = true ->
       exists d,
         Np.sub g med = inr d /\
         (forall y x, (y < fst (shape g))%nat -> (x < snd (shape g))%nat ->
            px 0%Q (Np.abs d) y x = Qabs (px 0%Q g y x - px 0%Q med y x)) /\
         panels_at (log o) (Zlen algorithms * cols + 3 * Z.of_nat k) =
           [[plt_imshow (Scalar g) (disp_map_args s)]] /\
         panels_at (log o) (Zlen algorithms * cols + 3 * Z.of_nat k + 1) =
           [[plt_imshow (Scalar (Np.abs d)) abs_diff_map_args]]).
Proof.
  intros Hs Ha Hok o cols k s Hk.
  destruct (median_panels_of_scene scenes algorithms subdir with_gt_row fs r
              k s Hs Ha Hok Hk) as [Hnd [cbh [cbw [vars [r_k Hincl]]]]].
  fold o cols in Hnd, Hincl.
  assert (Hsok : results_ok env algorithms s).
  { rewrite Forall_forall in Hok. apply Hok. eapply nth_error_In; eassumption. }
  pose proof Hsok as [g [Hg [[med [Hmed Hsm]] Hall]]].
  exists g, med. split; [assumption|]. split; [assumption|]. split.
  - intros j a Hj.
    destruct (median_scene_body_map_panels R env fs cols cbh cbw algorithms
                with_gt_row (Zlen scenes) s Ha Hsok (Z.of_nat k) vars r_k
                j a Hj)
      as [g' [ar [err [Hg' [Har [Hsa [Herr [H1 H2]]]]]]]].
    assert (g' = g) by congruence. subst g'.
    exists ar, err. split; [assumption|]. split; [assumption|]. split.
    + destruct (binop_same_shape _ _ _ Qminus 0%Q 0%Q 0%Q g ar (eq_sym Hsa))
        as [err' [Herr' [_ Hpx]]].
      fold (Np.sub g ar) in Herr'. assert (err' = err) by congruence.
      subst err'. exact Hpx.
    + split; apply panels_at_unique; try assumption; now apply Hincl.
  - intros Hgt.
    destruct (median_scene_body_reference_panels R env fs cols cbh cbw
                algorithms with_gt_row (Zlen scenes) s Ha Hsok (Z.of_nat k)
                vars r_k Hgt)
      as [g' [med' [d [Hg' [Hmed' [_ [Hd [H1 H2]]]]]]]].
    assert (g' = g) by congruence. assert (med' = med) by congruence.
    subst g' med'.
    exists d. split; [assumption|]. split.
    + intros y x Hy Hx. rewrite abs_px.
      destruct (binop_same_shape _ _ _ Qminus 0%Q 0%Q 0%Q g med (eq_sym Hsm))
        as [d' [Hd' [_ Hpx]]].
      fold (Np.sub g med) in Hd'. assert (d' = d) by congruence. subst d'.
      now rewrite Hpx.
    + split; apply panels_at_unique; try assumption; now apply Hincl.
Qed.

End MedianAllPanels.

(* ------------------------------------------------------------------ *)
(** ** Slices and windows *)

Lemma In_firstn {A} n (l : list A) x : In x (firstn n l) -> In x l.
Proof.
  intros H. rewrite <- (firstn_skipn n l). apply in_or_app. now left.
Qed.

Lemma In_skipn {A} n (l : list A) x : In x (skipn n l) -> In x l.
Proof.
  intros H. rewrite <- (firstn_skipn n l). apply in_or_app. now right.
Qed.

Lemma slice_in_range {A} (lo hi : Z) (l : list A) :
  0 <= lo <= hi -> hi <= Zlen l ->
  length (Py.slice lo hi l) = Z.to_nat (hi - lo) /\
  forall i d, (i < Z.to_nat (hi - lo))%nat ->
    nth i (Py.slice lo hi l) d = nth (Z.to_nat lo + i) l d.
Proof.
  intros Hlo Hhi. unfold Py.slice, Py.slice_bound, Zlen in *.
  destruct (Z.ltb_spec lo 0); [lia|]. destruct (Z.ltb_spec hi 0); [lia|].
  rewrite !Z.min_l by lia. split.
  - rewrite length_firstn, length_skipn. lia.
  - intros i d Hi. rewrite nth_firstn.
    destruct (Nat.ltb_spec i (Z.to_nat (hi - lo))); [|lia].
    apply nth_skipn.
Qed.

Lemma slice_bounded {A} (lo ww : Z) (l : list A) :
  0 <= lo -> 0 <= ww ->
  (length (Py.slice lo (lo + ww) l) <= Z.to_nat ww)%nat /\
  (Zlen l <= lo -> Py.slice lo (lo + ww) l = []).
Proof.
  intros Hlo Hww. unfold Py.slice, Py.slice_bound, Zlen.
  destruct (Z.ltb_spec lo 0); [lia|].
  destruct (Z.ltb_spec (lo + ww) 0); [lia|]. split.
  - rewrite length_firstn. lia.
  - intros Hshort. rewrite !Z.min_r by lia.
    replace (Z.of_nat (length l) - Z.of_nat (length l)) with 0 by lia.
    reflexivity.
Qed.

Lemma slice_length {A} (lo hi : Z) (l : list A) :
  0 <= lo -> 0 <= hi ->
  length (Py.slice lo hi l) =
  Z.to_nat (Z.min hi (Zlen l) - Z.min lo (Zlen l)).
Proof.
  intros Hlo Hhi. unfold Py.slice, Py.slice_bound, Zlen.
  destruct (Z.ltb_spec lo 0); [lia|]. destruct (Z.ltb_spec hi 0); [lia|].
  rewrite length_firstn, length_skipn. lia.
Qed.

Lemma slice_incl {A} (lo hi : Z) (l : list A) x :
  In x (Py.slice lo hi l) -> In x l.
Proof.
  unfold Py.slice. intros H. apply In_firstn in H. now apply In_skipn in H.
Qed.

(** The window [[ymin:ymin+ww, xmin:xmin+ww]] that [plot_discont_overview]
    cuts out of an H x W field that contains it is a [ww] x [ww] field whose
    pixel [(i, j)] is the field's pixel [(ymin + i, xmin + j)]. *)
Theorem window_inside_field {A} (a : grid2 A) (w : nat) (ymin xmin ww : Z)
    (d : A) :
  rectangular w a ->
  0 <= ymin -> 0 <= xmin -> 0 <= ww ->
  ymin + ww <= Zlen a -> xmin + ww <= Z.of_nat w ->
  length (Np.window ymin (ymin + ww) xmin (xmin + ww) a) = Z.to_nat ww /\
  rectangular (Z.to_nat ww)
    (Np.window ymin (ymin + ww) xmin (xmin + ww) a) /\
  forall i j, (i < Z.to_nat ww)%nat -> (j < Z.to_nat ww)%nat ->
    px d (Np.window ymin (ymin + ww) xmin (xmin + ww) a) i j =
    px d a (Z.to_nat ymin + i) (Z.to_nat xmin + j).
Proof.
  intros Hrect Hy Hx Hww Hh Hw.
  destruct (slice_in_range ymin (ymin + ww) a ltac:(lia) Hh) as [Hlen Hnth].
  replace (ymin + ww - ymin) with ww in * by lia.
  assert (Hrows : forall row, In row (Py.slice ymin (ymin + ww) a) ->
                    length row = w).
  { intros row Hin. unfold rectangular in Hrect. rewrite Forall_forall in Hrect.
    apply Hrect. unfold Py.slice in Hin.
    apply In_firstn in Hin. apply In_skipn in Hin. exact Hin. }
  unfold Np.window. split; [now rewrite length_map|]. split.
  - unfold rectangular. apply Forall_forall. intros row Hin.
    apply in_map_iff in Hin. destruct Hin as [row0 [<- Hin0]].
    destruct (slice_in_range xmin (xmin + ww) row0 ltac:(lia)) as [Hl _].
    + unfold Zlen. rewrite (Hrows row0 Hin0). lia.
    + rewrite Hl. f_equal. lia.
  - intros i j Hi Hj. unfold px.
    rewrite (nth_indep _ [] (Py.slice xmin (xmin + ww) []))
      by (rewrite length_map; lia).
    rewrite map_nth, Hnth by assumption.
    assert (Hin0 : In (nth i (Py.slice ymin (ymin + ww) a) [])
                      (Py.slice ymin (ymin + ww) a))
      by (apply nth_In; lia).
    rewrite Hnth in Hin0 by assumption.
    destruct (slice_in_range xmin (xmin + ww)
                (nth (Z.to_nat ymin + i) a []) ltac:(lia)) as [_ Hpx].
    + unfold Zlen. rewrite (Hrows _ Hin0). lia.
    + apply Hpx. lia.
Qed.

(** The window expression is clamped to the field: for offsets and a size
    that are not negative it yields at most [ww] rows of at most [ww]
    entries on a field of any size, and it has no row exactly when the
    field has at most [ymin] rows or [ww] is 0.  That is the array
    [plot_discont_overview] then hands to [plt.imshow]. *)
Theorem window_never_exceeds {A} (a : grid2 A) (ymin xmin ww : Z) :
  0 <= ymin -> 0 <= xmin -> 0 <= ww ->
  (length (Np.window ymin (ymin + ww) xmin (xmin + ww) a) <= Z.to_nat ww)%nat
  /\
  Forall (fun row => (length row <= Z.to_nat ww)%nat)
    (Np.window ymin (ymin + ww) xmin (xmin + ww) a) /\
  (Np.window ymin (ymin + ww) xmin (xmin + ww) a = [] <->
   Zlen a <= ymin \/ ww = 0).
Proof.
  intros Hy Hx Hww. unfold Np.window.
  destruct (slice_bounded ymin ww a Hy Hww) as [Hlen Hempty].
  split; [now rewrite length_map|]. split.
  - apply Forall_forall. intros row Hin. apply in_map_iff in Hin.
    destruct Hin as [row0 [<- _]]. apply (slice_bounded xmin ww row0 Hx Hww).
  - pose proof (slice_length ymin (ymin + ww) a Hy ltac:(lia)) as Hrows.
    pose proof (Zlen_nonneg a) as Hn.
    split.
    + intros Hnil. apply (f_equal (@length _)) in Hnil.
      rewrite length_map, Hrows in Hnil. simpl in Hnil. lia.
    + intros Hcase.
      destruct (Py.slice ymin (ymin + ww) a) as [|row rows];
        [reflexivity|]. simpl in Hrows. lia.
Qed.

(* ------------------------------------------------------------------ *)
(** ** plot_radar_charts: the axis labels *)






(* ------------------------------------------------------------------ *)
(** ** The further properties on the data set of [Example] *)

Lemma example_results_ok_mixed :
  Forall (results_ok Example.env [Example.epi1; Example.lf])
    [Example.dots; Example.bedroom].
Proof.
  repeat constructor;
    (eexists; split; [reflexivity|]; split;
     [eexists; split; reflexivity
     | repeat constructor; eexists; split; reflexivity]).
Qed.

Lemma example_baseline_ok :
  Forall (results_ok Example.env []) [Example.dots; Example.bedroom].
Proof.
  repeat constructor;
    (eexists; split; [reflexivity|]; split;
     [eexists; split; reflexivity | constructor]).
Qed.

Lemma scene_overview_first_failure_witness :
  Forall scene_loaded [Example.dots] /\
  load_error Example.missing = Some (CollaboratorError "no center view") /\
  (let o := plot_scene_overview Example.env
              ([Example.dots] ++ Example.missing :: [Example.bedroom])
              "overview" 16 0%nat in
   res o = inl (CollaboratorError "no center view") /\
   saved (log o) = [] /\
   forall k x, nth_error [Example.dots] k = Some x ->
     In (Z.of_nat k) (subplots (log o))).
Proof.
  assert (H : Forall scene_loaded [Example.dots])
    by (repeat constructor; eexists; reflexivity).
  split; [exact H|]. split; [reflexivity|].
  apply (scene_overview_first_failure nat Example.env [Example.dots]
           Example.missing [Example.bedroom] "overview" 16 0%nat
           (CollaboratorError "no center view") H).
  reflexivity.
Defined.

Lemma scene_overview_pixelize_calls_witness :
  Forall scene_loaded [Example.dots; Example.bedroom] /\
  (let o := plot_scene_overview Example.env [Example.dots; Example.bedroom]
              "overview" 16 0%nat in
   pixelize_calls (log o) =
     flat_map pixelize_expected [Example.dots; Example.bedroom] /\
   length (pixelize_calls (log o)) =
     length (filter Scene.hidden_gt [Example.dots; Example.bedroom])).
Proof.
  split; [exact example_scenes_loaded|].
  apply (scene_overview_pixelize_calls nat Example.env
           [Example.dots; Example.bedroom] "overview" 16 0%nat).
  repeat constructor; eexists; reflexivity.
Defined.

Lemma median_comparison_named_after_last_scene_witness :
  [Example.dots; Example.bedroom] <> [] /\
  [Example.epi1; Example.lf] <> [] /\
  Forall (results_ok Example.env [Example.epi1; Example.lf])
    [Example.dots; Example.bedroom] /\
  (let o := plot_median_comparisons Example.env
              [Example.dots; Example.bedroom] [Example.epi1; Example.lf]
              "per_pix_comparisons" true 12 0%nat in
   res o = inr tt /\
   saved (log o) =
     [save_tight_figure
        ("median_comparison_"
         ++ Scene.get_category
              (last [Example.dots; Example.bedroom] Example.dots))
        "per_pix_comparisons" true true (2 # 100) 0 None]).
Proof.
  split; [discriminate|]. split; [discriminate|].
  split; [exact example_results_ok_mixed|].
  apply (median_comparison_named_after_last_scene nat Example.env
           [Example.dots; Example.bedroom] [Example.epi1; Example.lf]
           "per_pix_comparisons" true 12 0%nat Example.dots).
  - discriminate.
  - discriminate.
  - exact example_results_ok_mixed.
Defined.

Lemma median_comparisons_empty_figure_witness :
  [Example.dots; Example.bedroom] <> [] /\
  Forall (results_ok Example.env []) [Example.dots; Example.bedroom] /\
  (let o := plot_median_comparisons Example.env
              [Example.dots; Example.bedroom] [] "per_pix_comparisons" false
              12 0%nat in
   res o = inr tt /\ cells (log o) = [] /\ length (saved (log o)) = 1%nat).
Proof.
  split; [discriminate|]. split; [exact example_baseline_ok|].
  apply (median_comparisons_empty_figure nat Example.env
           [Example.dots; Example.bedroom] "per_pix_comparisons" 12 0%nat).
  - discriminate.
  - exact example_baseline_ok.
Defined.


Lemma median_comparisons_colorbars_witness :
  [Example.dots; Example.bedroom] <> [] /\
  [Example.epi1; Example.lf] <> [] /\
  Forall (results_ok Example.env [Example.epi1; Example.lf])
    [Example.dots; Example.bedroom] /\
  (let o := plot_median_comparisons Example.env
              [Example.dots; Example.bedroom] [Example.epi1; Example.lf]
              "per_pix_comparisons" true 12 0%nat in
   let cols := Zlen [Example.dots; Example.bedroom] * 3 + 1 in
   colorbars (log o) =
     (enum_flat
        (fun a _ => [(a * cols + (cols - 1), median_colorbar_args a)])
        0 [Example.epi1; Example.lf]
      ++ [(Zlen [Example.epi1; Example.lf] * cols + (cols - 1),
           abs_diff_map_args)])%list).
Proof.
  split; [discriminate|]. split; [discriminate|].
  split; [exact example_results_ok_mixed|].
  apply (median_comparisons_colorbars nat Example.env
           [Example.dots; Example.bedroom] [Example.epi1; Example.lf]
           "per_pix_comparisons" true 12 0%nat).
  - discriminate.
  - discriminate.
  - exact example_results_ok_mixed.
Defined.

Lemma median_comparisons_map_panels_witness :
  [Example.dots; Example.bedroom] <> [] /\
  [Example.epi1; Example.lf] <> [] /\
  Forall (results_ok Example.env [Example.epi1; Example.lf])
    [Example.dots; Example.bedroom] /\
  (let o := plot_median_comparisons Example.env
              [Example.dots; Example.bedroom] [Example.epi1; Example.lf]
              "per_pix_comparisons" true 12 0%nat in
   let cols := Zlen [Example.dots; Example.bedroom] * 3 + 1 in
   forall k s, nth_error [Example.dots; Example.bedroom] k = Some s ->
     exists g med,
       Scene.get_gt s = inr g /\
       get_algo_result Example.env s (PerPixMedianDiff Example.env) = inr med
       /\
       (forall j a, nth_error [Example.epi1; Example.lf] j = Some a ->
          exists ar err,
            get_algo_result Example.env s a = inr ar /\
            Np.sub g ar = inr err /\
            (forall y x,
               (y < fst (shape g))%nat -> (x < snd (shape g))%nat ->
               px 0%Q err y x = (px 0%Q g y x - px 0%Q ar y x)%Q) /\
            panels_at (log o) (Z.of_nat j * cols + 3 * Z.of_nat k) =
              [[plt_imshow (Scalar ar) (disp_map_args s)]] /\
            panels_at (log o) (Z.of_nat j * cols + 3 * Z.of_nat k + 1) =
              [[plt_imshow (Scalar err)
                  (diff_map_args (- (1 # 10)) (1 # 10))]]) /\
       (true = true ->
        exists d,
          Np.sub g med = inr d /\
          (forall y x,
             (y < fst (shape g))%nat -> (x < snd (shape g))%nat ->
             px 0%Q (Np.abs d) y x =
             Qabs (px 0%Q g y x - px 0%Q med y x)) /\
          panels_at (log o)
            (Zlen [Example.epi1; Example.lf] * cols + 3 * Z.of_nat k) =
            [[plt_imshow (Scalar g) (disp_map_args s)]] /\
          panels_at (log o)
            (Zlen [Example.epi1; Example.lf] * cols + 3 * Z.of_nat k + 1) =
            [[plt_imshow (Scalar (Np.abs d)) abs_diff_map_args]])).
Proof.
  split; [discriminate|]. split; [discriminate|].
  split; [exact example_results_ok_mixed|].
  apply (median_comparisons_map_panels nat Example.env
           [Example.dots; Example.bedroom] [Example.epi1; Example.lf]
           "per_pix_comparisons" true 12 0%nat).
  - discriminate.
  - discriminate.
  - exact example_results_ok_mixed.
Defined.

Lemma window_inside_field_witness :
  rectangular 2 Example.gt_a /\
  0 <= 1 /\ 0 <= 0 /\ 0 <= 1 /\
  1 + 1 <= Zlen Example.gt_a /\ 0 + 1 <= Z.of_nat 2 /\
  length (Np.window 1 (1 + 1) 0 (0 + 1) Example.gt_a) = Z.to_nat 1 /\
  rectangular (Z.to_nat 1) (Np.window 1 (1 + 1) 0 (0 + 1) Example.gt_a) /\
  forall i j, (i < Z.to_nat 1)%nat -> (j < Z.to_nat 1)%nat ->
    px 0%Q (Np.window 1 (1 + 1) 0 (0 + 1) Example.gt_a) i j =
    px 0%Q Example.gt_a (Z.to_nat 1 + i) (Z.to_nat 0 + j).
Proof.
  assert (H : rectangular 2 Example.gt_a) by (repeat constructor).
  split; [exact H|].
  split; [lia|]. split; [lia|]. split; [lia|].
  split; [vm_compute; discriminate|]. split; [vm_compute; discriminate|].
  apply (window_inside_field Example.gt_a 2 1 0 1 0%Q H).
  - lia.
  - lia.
  - lia.
  - vm_compute; discriminate.
  - vm_compute; discriminate.
Defined.

Lemma window_never_exceeds_witness :
  0 <= 230 /\ 0 <= 150 /\ 0 <= 250 /\
  ((length (Np.window 230 (230 + 250) 150 (150 + 250) Example.gt_a)
    <= Z.to_nat 250)%nat /\
   Forall (fun row => (length row <= Z.to_nat 250)%nat)
     (Np.window 230 (230 + 250) 150 (150 + 250) Example.gt_a) /\
   (Np.window 230 (230 + 250) 150 (150 + 250) Example.gt_a = [] <->
    Zlen Example.gt_a <= 230 \/ 250 = 0)) /\
  Zlen Example.gt_a <= 230 /\
  Np.window 230 (230 + 250) 150 (150 + 250) Example.gt_a = [].
Proof.
  pose proof (window_never_exceeds Example.gt_a 230 150 250
                ltac:(lia) ltac:(lia) ltac:(lia)) as H.
  assert (Hshort : Zlen Example.gt_a <= 230) by (vm_compute; discriminate).
  split; [lia|]. split; [lia|]. split; [lia|].
  split; [exact H|]. split; [exact Hshort|].
  destruct H as [_ [_ Hiff]]. apply Hiff. left. exact Hshort.
Defined.

(* ------------------------------------------------------------------ *)
(** ** plot_discont_overview: colorbars and row labels *)

Lemma div_succ_step E i :
  1 <= E -> 0 <= i ->
  (i + 1) / E = i / E + (if (i + 1) mod E =? 0 then 1 else 0).
Proof.
  intros HE Hi.
  pose proof (Z.div_mod i E ltac:(lia)).
  pose proof (Z.mod_pos_bound i E ltac:(lia)).
  pose proof (Z.div_mod (i + 1) E ltac:(lia)).
  pose proof (Z.mod_pos_bound (i + 1) E ltac:(lia)).
  destruct (Z.eqb_spec ((i + 1) mod E) 0); nia.
Qed.

Lemma enum_flat_Forall_range {X B} (full : Z -> X -> list B) (P : B -> Prop)
    xs : forall i,
  (forall j x c, i <= j < i + Zlen xs -> In c (full j x) -> P c) ->
  Forall P (enum_flat full i xs).
Proof.
  induction xs as [|x xs IH]; simpl; intros i HP; [constructor|].
  rewrite Zlen_cons in HP. pose proof (Zlen_nonneg xs).
  apply Forall_app. split.
  - apply Forall_forall. intros c Hc. apply (HP i x); [lia | assumption].
  - apply IH. intros j y c Hj Hc. apply (HP j y); [lia | assumption].
Qed.

Lemma enum_flat_repeat {X B} (p : list B) (E : Z) (xs : list X) : forall i,
  1 <= E -> 0 <= i ->
  enum_flat (fun j _ => if (j + 1) mod E =? 0 then p else []) i xs =
  concat (repeat p (Z.to_nat ((i + Zlen xs) / E - i / E))).
Proof.
  induction xs as [|x xs IH]; intros i HE Hi; simpl.
  - unfold Zlen. simpl. replace (i + 0) with i by lia. rewrite Z.sub_diag.
    reflexivity.
  - rewrite Zlen_cons. pose proof (Zlen_nonneg xs).
    rewrite IH by lia.
    replace (i + (Zlen xs + 1)) with (i + 1 + Zlen xs) by lia.
    pose proof (div_succ_step E i HE Hi) as Hstep.
    assert (Hmono : (i + 1) / E <= (i + 1 + Zlen xs) / E)
      by (apply Z.div_le_mono; lia).
    destruct ((i + 1) mod E =? 0).
    + replace ((i + 1 + Zlen xs) / E - i / E)
        with (Z.succ ((i + 1 + Zlen xs) / E - (i + 1) / E)) by lia.
      rewrite Z2Nat.inj_succ by lia. reflexivity.
    + replace ((i + 1) / E) with (i / E) by lia. reflexivity.
Qed.

Section DiscontDecorations.

Variable R : Type.
Variable env : Env R.

Lemma discont_body_colorbars scene fs xmin ymin ww E cbh cbw gt med
    i a u r :
  1 <= E ->
  succeeds (discont_body env scene fs xmin ymin ww 2 E (E + 1) cbh cbw gt med
              i a u r) ->
  colorbars (log (discont_body env scene fs xmin ymin ww 2 E (E + 1) cbh cbw
                    gt med i a u r)) =
  if (i + 2) mod E =? 0
  then [((i + 1) / E * 2 * (E + 1) + E, disp_map_args scene);
        (((i + 1) / E * 2 + 1) * (E + 1) + E, median_diff_args)]
  else [].
Proof.
  intros HE.
  unfold discont_body, succeeds.
  destruct (get_algo_result env scene a) as [e|ar]; cbn; [no_success|].
  unfold Py.mod_, Py.floordiv. destruct (Z.eqb_spec E 0); cbn; [no_success|].
  unfold when, Py.not_.
  replace (i + 1 + 1) with (i + 2) by lia.
  destruct (Z.eqb_spec ((i + 2) mod E) 0) as [H0|H0];
    destruct ((i + 1) mod E =? 0);
    destruct (median_diff_of med gt ar); cbn; try no_success;
    intros _; try reflexivity.
  all: assert (Hc : E - 1 = (i + 1) mod E)
      by (apply (Z.mod_unique (i + 1) E ((i + 2) / E - 1) (E - 1));
          [lia | pose proof (Z.div_mod (i + 2) E ltac:(lia)); lia]).
  all: rewrite <- Hc, <- !Z.add_assoc, Z.sub_add; reflexivity.
Qed.

Lemma discont_body_ylabels scene fs xmin ymin ww E cols cbh cbw gt med
    i a u r :
  succeeds (discont_body env scene fs xmin ymin ww 2 E cols cbh cbw gt med
              i a u r) ->
  ylabels (log (discont_body env scene fs xmin ymin ww 2 E cols cbh cbw
                  gt med i a u r)) =
  if (i + 1) mod E =? 0 then ["DispMap"; "MedianDiff"]%string else [].
Proof.
  unfold discont_body, succeeds.
  destruct (get_algo_result env scene a) as [e|ar]; cbn; [no_success|].
  unfold Py.mod_, Py.floordiv. destruct (Z.eqb_spec E 0); cbn; [no_success|].
  unfold when, Py.not_.
  destruct ((i + 1 + 1) mod E =? 0);
    destruct ((i + 1) mod E =? 0);
    destruct (median_diff_of med gt ar); cbn; try no_success;
    intros _; reflexivity.
Qed.

End DiscontDecorations.

Section DiscontDecorationsRun.

Variable R : Type.
Variable env : Env R.

(** In a complete run of [plot_discont_overview] the colorbars come in pairs,
    one pair for every algorithm that lands in the last panel column: both
    lie in the grid's extra last column, beside the algorithm's disparity
    panel and beside its median-diff panel.  When the center view and the
    algorithms do not fill their last row of panels, that row gets no
    colorbar: all colorbars lie above grid row [2 * (n / E)], the row of the
    last algorithm's disparity panel. *)
Theorem discont_overview_colorbars algorithms scene n_rows fs subdir
    xmin ymin ww r cv :
  1 <= n_rows ->
  results_ok env algorithms scene ->
  Scene.get_center_view scene = inr cv ->
  let o := plot_discont_overview env algorithms scene n_rows fs subdir
             xmin ymin ww r in
  let E := n_entries_per_row (Zlen algorithms) n_rows in
  let cols := E + 1 in
  colorbars (log o) =
    enum_flat
      (fun i _ =>
         if (i + 2) mod E =? 0
         then [((i + 1) / E * 2 * cols + E, disp_map_args scene);
               (((i + 1) / E * 2 + 1) * cols + E, median_diff_args)]
         else []) 0 algorithms /\
  Forall (fun c => grid_col cols (fst c) = E) (colorbars (log o)) /\
  ((Zlen algorithms + 1) mod E <> 0 ->
   Forall (fun c => grid_row cols (fst c) < 2 * (Zlen algorithms / E))
     (colorbars (log o))).
Proof.
  intros Hrows Hok Hcv o E cols.
  destruct (plot_discont_overview_complete R env algorithms scene n_rows fs
              subdir xmin ymin ww r cv Hrows Hok Hcv)
    as [g [med [loop [Hg [Hmed [Hloop [Hu [Hres Hlog]]]]]]]].
  fold o E in Hloop, Hres, Hlog.
  destruct (n_entries_per_row_spec (Zlen algorithms) n_rows
              (Zlen_nonneg algorithms) Hrows) as [HE _]. fold E in HE.
  assert (Hcb : colorbars (log o) =
    enum_flat
      (fun i _ =>
         if (i + 2) mod E =? 0
         then [((i + 1) / E * 2 * cols + E, disp_map_args scene);
               (((i + 1) / E * 2 + 1) * cols + E, median_diff_args)]
         else []) 0 algorithms).
  { rewrite Hlog. unfold colorbars. cbn. rewrite flat_map_app. cbn.
    rewrite app_nil_r. subst loop.
    apply (for_enum_flat_map R Algorithm.t unit _ _ colorbar_of).
    - intros i x s r0 Hs. now apply discont_body_colorbars.
    - assumption. }
  split; [exact Hcb|]. rewrite Hcb. split.
  - apply enum_flat_Forall_range. intros j x c _ Hc.
    destruct ((j + 2) mod E =? 0); [|contradiction].
    unfold grid_col, cols.
    destruct Hc as [<- | [<- | []]]; cbn [fst];
      rewrite Z.add_comm, Z.mod_add by lia; apply Z.mod_small; lia.
  - intros Hlast. apply enum_flat_Forall_range. intros j x c Hj Hc.
    destruct (Z.eqb_spec ((j + 2) mod E) 0) as [H0|H0]; [|contradiction].
    assert (Hq : (j + 1) / E + 1 <= Zlen algorithms / E).
    { pose proof (Z.div_mod (j + 2) E ltac:(lia)) as Hd.
      rewrite H0 in Hd.
      assert (H1 : (j + 1) / E = (j + 2) / E - 1).
      { symmetry. apply (Z.div_unique (j + 1) E _ (E - 1)); lia. }
      rewrite H1.
      assert (Hn : E * ((j + 2) / E) <= Zlen algorithms).
      { destruct (Z.eq_dec (Zlen algorithms + 1) (j + 2)) as [Heq|Hneq].
        - exfalso. apply Hlast. rewrite Heq. exact H0.
        - lia. }
      apply Z.div_le_lower_bound; lia. }
    unfold grid_row, cols.
    destruct Hc as [<- | [<- | []]]; cbn [fst];
      rewrite cell_row by lia; lia.
Qed.

(** In a complete run of [plot_discont_overview] every row of panels that
    holds the center view or an algorithm is labelled exactly once, with
    ["DispMap"] and ["MedianDiff"]: there are [1 + n / E] such pairs of
    labels for [n] algorithms in [E] panel columns. *)
Theorem discont_overview_row_labels algorithms scene n_rows fs subdir
    xmin ymin ww r cv :
  1 <= n_rows ->
  results_ok env algorithms scene ->
  Scene.get_center_view scene = inr cv ->
  let o := plot_discont_overview env algorithms scene n_rows fs subdir
             xmin ymin ww r in
  let E := n_entries_per_row (Zlen algorithms) n_rows in
  ylabels (log o) =
    concat (repeat ["DispMap"; "MedianDiff"]%string
              (Z.to_nat (1 + Zlen algorithms / E))).
Proof.
  intros Hrows Hok Hcv o E.
  destruct (plot_discont_overview_complete R env algorithms scene n_rows fs
              subdir xmin ymin ww r cv Hrows Hok Hcv)
    as [g [med [loop [Hg [Hmed [Hloop [Hu [Hres Hlog]]]]]]]].
  fold o E in Hloop, Hres, Hlog.
  destruct (n_entries_per_row_spec (Zlen algorithms) n_rows
              (Zlen_nonneg algorithms) Hrows) as [HE _]. fold E in HE.
  pose proof (Zlen_nonneg algorithms) as Hn.
  assert (Hq : 0 <= Zlen algorithms / E) by (apply Z.div_pos; lia).
  replace (1 + Zlen algorithms / E) with (Z.succ (Zlen algorithms / E))
    by lia.
  rewrite Z2Nat.inj_succ by assumption.
  rewrite Hlog. unfold ylabels. cbn. rewrite flat_map_app. cbn.
  rewrite app_nil_r. do 2 f_equal. subst loop.
  rewrite (for_enum_flat_map R Algorithm.t unit _ _ ylabel_of
             (fun i _ => if (i + 1) mod E =? 0
                         then ["DispMap"; "MedianDiff"]%string else [])).
  - rewrite enum_flat_repeat by lia. rewrite Z.add_0_l.
    rewrite Z.div_0_l by lia. rewrite Z.sub_0_r. reflexivity.
  - intros i x s r0 Hs. now apply discont_body_ylabels.
  - assumption.
Qed.

End DiscontDecorationsRun.

Lemma discont_overview_colorbars_witness :
  1 <= 2 /\
  results_ok Example.env [Example.epi1; Example.lf] Example.dots /\
  Scene.get_center_view Example.dots = inr Example.view /\
  (let o := plot_discont_overview Example.env [Example.epi1; Example.lf]
              Example.dots 2 12 "overview" 1 0 1 0%nat in
   let E := n_entries_per_row (Zlen [Example.epi1; Example.lf]) 2 in
   let cols := E + 1 in
   colorbars (log o) =
     enum_flat
       (fun i _ =>
          if (i + 2) mod E =? 0
          then [((i + 1) / E * 2 * cols + E, disp_map_args Example.dots);
                (((i + 1) / E * 2 + 1) * cols + E, median_diff_args)]
          else []) 0 [Example.epi1; Example.lf] /\
   Forall (fun c => grid_col cols (fst c) = E) (colorbars (log o)) /\
   ((Zlen [Example.epi1; Example.lf] + 1) mod E <> 0 ->
    Forall
      (fun c =>
         grid_row cols (fst c) < 2 * (Zlen [Example.epi1; Example.lf] / E))
      (colorbars (log o)))).
Proof.
  assert (H : results_ok Example.env [Example.epi1; Example.lf] Example.dots)
    by (apply example_results_ok; left; reflexivity).
  split; [lia|]. split; [exact H|]. split; [reflexivity|].
  apply (discont_overview_colorbars nat Example.env
           [Example.epi1; Example.lf] Example.dots 2 12 "overview" 1 0 1
           0%nat Example.view).
  - lia.
  - exact H.
  - reflexivity.
Defined.

Lemma discont_overview_row_labels_witness :
  1 <= 2 /\
  results_ok Example.env [Example.epi1; Example.lf] Example.dots /\
  Scene.get_center_view Example.dots = inr Example.view /\
  (let o := plot_discont_overview Example.env [Example.epi1; Example.lf]
              Example.dots 2 12 "overview" 1 0 1 0%nat in
   let E := n_entries_per_row (Zlen [Example.epi1; Example.lf]) 2 in
   ylabels (log o) =
     concat (repeat ["DispMap"; "MedianDiff"]%string
               (Z.to_nat (1 + Zlen [Example.epi1; Example.lf] / E)))).
Proof.
  assert (H : results_ok Example.env [Example.epi1; Example.lf] Example.dots)
    by (apply example_results_ok; left; reflexivity).
  split; [lia|]. split; [exact H|]. split; [reflexivity|].
  apply (discont_overview_row_labels nat Example.env
           [Example.epi1; Example.lf] Example.dots 2 12 "overview" 1 0 1
           0%nat Example.view).
  - lia.
  - exact H.
  - reflexivity.
Defined.

(* ------------------------------------------------------------------ *)
(** ** plot_discont_overview: a window that meets the field *)

Lemma has_shape_shape {A} h w (a : grid2 A) :
  has_shape h w a -> (0 < h)%nat -> shape a = (h, w).
Proof.
  intros [Hl Hr] Hh. unfold shape. rewrite Hl. f_equal.
  destruct a as [|row a]; simpl in *; [lia|].
  now inversion Hr.
Qed.

Lemma window_nonempty {A} h w (a : grid2 A) (ymin xmin ww : Z) :
  has_shape h w a ->
  0 <= ymin < Z.of_nat h -> 0 <= xmin < Z.of_nat w -> 1 <= ww ->
  nonempty (Np.window ymin (ymin + ww) xmin (xmin + ww) a) = true.
Proof.
  intros [Hl Hr] Hy Hx Hww. unfold Np.window, nonempty, shape.
  pose proof (slice_length ymin (ymin + ww) a ltac:(lia) ltac:(lia)) as Hrows.
  unfold Zlen in Hrows. rewrite Hl in Hrows.
  destruct (Py.slice ymin (ymin + ww) a) as [|row rows] eqn:E;
    [simpl in Hrows; lia|].
  assert (Hin : In row a)
    by (apply (slice_incl ymin (ymin + ww)); rewrite E; now left).
  unfold rectangular in Hr. rewrite Forall_forall in Hr.
  pose proof (Hr row Hin) as Hw.
  pose proof (slice_length xmin (xmin + ww) row ltac:(lia) ltac:(lia)) as Hc.
  unfold Zlen in Hc. rewrite Hw in Hc.
  cbn [map hd length fst snd]. rewrite Hc.
  apply andb_true_intro. split; apply Nat.ltb_lt; lia.
Qed.

Lemma binop_rectangular {A B C} (f : A -> B -> C) da db (a : grid2 A)
    (b : grid2 B) c :
  binop f da db a b = inr c -> rectangular (snd (shape c)) c.
Proof.
  unfold binop.
  destruct (shape a) as [ha wa], (shape b) as [hb wb].
  destruct (bdim ha hb) as [h|]; [|discriminate].
  destruct (bdim wa wb) as [w|]; [|discriminate].
  intros H. inversion H; subst c. clear H.
  unfold shape, rectangular. cbn [snd]. rewrite tabulate_hd.
  apply Forall_forall. intros row Hin. unfold tabulate at 1 in Hin.
  apply in_map_iff in Hin. destruct Hin as [i [<- Hi]].
  rewrite tabulate_length. apply in_seq in Hi. destruct h; [lia | reflexivity].
Qed.

Lemma median_diff_of_has_shape h w (med gt ar : array) :
  (0 < h)%nat ->
  has_shape h w med -> has_shape h w gt -> has_shape h w ar ->
  exists md, median_diff_of med gt ar = inr md /\ has_shape h w md.
Proof.
  intros Hh Hm Hg Ha.
  pose proof (has_shape_shape h w med Hm Hh) as Sm.
  pose proof (has_shape_shape h w gt Hg Hh) as Sg.
  pose proof (has_shape_shape h w ar Ha Hh) as Sa.
  destruct (median_diff_of_spec med gt ar) as [md [Hmd [Hs _]]];
    [congruence | congruence |].
  exists md. split; [exact Hmd|].
  assert (Hrect : rectangular (snd (shape md)) md).
  { unfold median_diff_of in Hmd.
    destruct (Np.sub med gt) as [e|dm]; [discriminate|].
    destruct (Np.sub ar gt) as [e|da]; [discriminate|].
    unfold Np.sub in Hmd. now apply binop_rectangular in Hmd. }
  rewrite Hs, Sg in Hrect. split; [|exact Hrect].
  rewrite Sg in Hs. unfold shape in Hs. now inversion Hs.
Qed.

Lemma fields_ok_results_ok R (env : Env R) algorithms s h w :
  (0 < h)%nat -> fields_ok env algorithms s h w ->
  results_ok env algorithms s.
Proof.
  intros Hh [_ [[g [Hg Sg]] Hall]]. exists g. split; [exact Hg|].
  pose proof (has_shape_shape h w g Sg Hh) as Eg.
  assert (Hok : Forall (algo_ok env s g) (PerPixMedianDiff env :: algorithms)).
  { eapply Forall_impl; [|exact Hall]. intros a [ar [Har Sar]].
    exists ar. split; [exact Har|].
    rewrite (has_shape_shape h w ar Sar Hh). now rewrite Eg. }
  inversion Hok; subst. split; assumption.
Qed.

Lemma enum_flat_Forall_In {X B} (full : Z -> X -> list B) (P : B -> Prop)
    xs : forall i,
  (forall j x c, In x xs -> In c (full j x) -> P c) ->
  Forall P (enum_flat full i xs).
Proof.
  induction xs as [|x xs IH]; simpl; intros i HP; [constructor|].
  apply Forall_app. split.
  - apply Forall_forall. intros c Hc. apply (HP i x); [now left | assumption].
  - apply IH. intros j y c Hy Hc. apply (HP j y); [now right | assumption].
Qed.

Lemma enum_flat_length_In {X B} (full : Z -> X -> list B) (k : nat) xs :
  forall i,
  (forall j x, In x xs -> length (full j x) = k) ->
  length (enum_flat full i xs) = (k * length xs)%nat.
Proof.
  induction xs as [|x xs IH]; simpl; intros i Hk; [lia|].
  rewrite length_app, Hk by (now left).
  rewrite IH by (intros; apply Hk; now right). lia.
Qed.

Section DiscontDrawn.

Variable R : Type.
Variable env : Env R.

Lemma discont_body_drawn scene fs xmin ymin ww E cols cbh cbw gt med
    i a u r :
  succeeds (discont_body env scene fs xmin ymin ww 2 E cols cbh cbw gt med
              i a u r) ->
  drawn (log (discont_body env scene fs xmin ymin ww 2 E cols cbh cbw gt med
                i a u r)) =
  discont_drawn env scene xmin ymin ww gt med a.
Proof.
  unfold discont_body, discont_drawn, succeeds.
  destruct (get_algo_result env scene a) as [e|ar]; cbn; [no_success|].
  unfold Py.mod_, Py.floordiv. destruct (Z.eqb_spec E 0); cbn; [no_success|].
  unfold when.
  destruct (Py.not_ ((i + 1) mod E)), (Py.not_ ((i + 1 + 1) mod E)),
    (median_diff_of med gt ar); cbn; try no_success; reflexivity.
Qed.

(** With at least one row, data that is all of one size [h] x [w] and a
    window that starts inside it, every array [plot_discont_overview] hands
    to [plt.imshow] holds at least one pixel (the window of the center view,
    and two windows per algorithm), and the run completes: it prepares one
    grid of [2 * n_rows] rows and one column more than the panel columns,
    titles the window of the center view and then each algorithm's panel
    with the algorithm's display name, in order, and saves exactly once, as
    ["discont_<scene name>"] at 100 dpi. *)
Theorem discont_overview_complete_run algorithms scene n_rows fs subdir
    xmin ymin ww r cv h w :
  1 <= n_rows ->
  fields_ok env algorithms scene h w ->
  Scene.get_center_view scene = inr cv ->
  0 <= ymin < Z.of_nat h -> 0 <= xmin < Z.of_nat w -> 1 <= ww ->
  let o := plot_discont_overview env algorithms scene n_rows fs subdir
             xmin ymin ww r in
  let E := n_entries_per_row (Zlen algorithms) n_rows in
  length (drawn (log o)) = S (2 * length algorithms) /\
  forallb pixels_nonempty (drawn (log o)) = true /\
  res o = inr tt /\
  grids (log o) = [prepare_grid_with_colorbar (2 * n_rows) (E + 1) scene] /\
  titles (log o) =
    ("Center View"%string :: map Algorithm.get_display_name algorithms) /\
  saved (log o) =
    [save_tight_figure ("discont_" ++ Scene.get_name scene) subdir
       true true (3 # 100) (3 # 100) (Some 100)] /\
  panels_at (log o) 0 =
    [[plt_imshow (Color (Np.window ymin (ymin + ww) xmin (xmin + ww) cv))
        no_args]] /\
  panels_at (log o) (E + 1) = [[]].
Proof.
  intros Hrows Hfields Hcv Hy Hx Hww o E.
  assert (Hh : (0 < h)%nat) by lia.
  pose proof (fields_ok_results_ok R env algorithms scene h w Hh Hfields)
    as Hok.
  destruct (plot_discont_overview_complete R env algorithms scene n_rows fs
              subdir xmin ymin ww r cv Hrows Hok Hcv)
    as [g [med [loop [Hg [Hmed [Hloop [Hu [Hres Hlog]]]]]]]].
  fold o E in Hloop, Hres, Hlog.
  destruct Hfields as [[cv' [Hcv' Scv]] [[g' [Hg' Sg]] Hall]].
  assert (cv' = cv) by congruence. assert (g' = g) by congruence.
  subst cv' g'.
  inversion Hall as [|a0 l0 [med' [Hmed' Smed]] Halgos]; subst a0 l0.
  assert (med' = med) by congruence. subst med'.
  assert (Hdrawn : drawn (log o) =
            Color (Np.window ymin (ymin + ww) xmin (xmin + ww) cv)
            :: enum_flat (fun _ a => discont_drawn env scene xmin ymin ww
                                       g med a) 0 algorithms).
  { rewrite Hlog. unfold drawn. cbn. rewrite flat_map_app. cbn.
    rewrite app_nil_r. f_equal. subst loop.
    apply (for_enum_flat_map R Algorithm.t unit _ _ drawn_of).
    - intros i x s r0 Hs. now apply discont_body_drawn.
    - assumption. }
  assert (Hpair : forall a, In a algorithms ->
            exists ar md,
              has_shape h w ar /\ has_shape h w md /\
              discont_drawn env scene xmin ymin ww g med a =
                [Scalar (Np.window ymin (ymin + ww) xmin (xmin + ww) ar);
                 Scalar (Np.window ymin (ymin + ww) xmin (xmin + ww) md)]).
  { intros a Ha. rewrite Forall_forall in Halgos.
    destruct (Halgos a Ha) as [ar [Har Sar]].
    destruct (median_diff_of_has_shape h w med g ar Hh Smed Sg Sar)
      as [md [Hmd Smd]].
    exists ar, md. split; [exact Sar|]. split; [exact Smd|].
    unfold discont_drawn. rewrite Har, Hmd. reflexivity. }
  split; [|split].
  - rewrite Hdrawn. cbn [length]. f_equal.
    rewrite (enum_flat_length_In _ 2%nat).
    + reflexivity.
    + intros j a Ha. destruct (Hpair a Ha) as [ar [md [_ [_ ->]]]].
      reflexivity.
  - rewrite Hdrawn. apply forallb_forall. intros p [<- | Hp].
    + cbn. now apply (window_nonempty h w).
    + revert p Hp. apply Forall_forall. apply enum_flat_Forall_In.
      intros j a c Ha Hc. destruct (Hpair a Ha) as [ar [md [Sar [Smd Hd]]]].
      rewrite Hd in Hc. destruct Hc as [<- | [<- | []]]; cbn;
        now apply (window_nonempty h w).
  - assert (Hnd : NoDup (cells (log o))).
    { eapply prefix_of_NoDup.
      - apply plot_discont_overview_cells. lia.
      - apply discont_all_cells_facts. exact Hrows. }
    assert (Hq : segment (log loop) = []).
    { subst loop. apply for_enum_quiet. intros. apply discont_body_quiet. }
    destruct (no_lifecycle (log loop)) as [_ [Hgl Hsl]].
    { subst loop. apply for_enum_Forall. intros.
      apply discont_body_lifecycle. }
    split; [assumption|]. split; [|split; [|split; [|split]]].
    + rewrite Hlog. unfold grids in *. cbn. rewrite filter_app, Hgl.
      reflexivity.
    + rewrite Hlog. unfold titles. cbn. rewrite flat_map_app. cbn.
      rewrite app_nil_r. f_equal. subst loop.
      rewrite (for_enum_flat_map _ _ _ _ _ title_of
                 (fun _ a => [Algorithm.get_display_name a])).
      * rewrite enum_flat_const. apply flat_map_singleton.
      * intros. now apply discont_body_titles.
      * assumption.
    + rewrite Hlog. unfold saved in *. cbn. rewrite filter_app, Hsl.
      reflexivity.
    + apply panels_at_unique; [assumption|]. rewrite Hlog. cbn. left.
      reflexivity.
    + apply panels_at_unique; [assumption|]. rewrite Hlog. cbn. right. left.
      f_equal. rewrite segment_app_quiet by reflexivity. exact Hq.
Qed.

End DiscontDrawn.

Lemma example_fields_ok :
  fields_ok Example.env [Example.epi1; Example.lf] Example.dots 2 2.
Proof.
  split; [|split].
  - eexists. split; [reflexivity|]. split; [reflexivity|].
    repeat constructor.
  - eexists. split; [reflexivity|]. split; [reflexivity|].
    repeat constructor.
  - repeat constructor;
      (eexists; split; [reflexivity|]; split; [reflexivity|];
       repeat constructor).
Qed.

Lemma discont_overview_complete_run_witness :
  1 <= 2 /\
  fields_ok Example.env [Example.epi1; Example.lf] Example.dots 2 2 /\
  Scene.get_center_view Example.dots = inr Example.view /\
  0 <= 0 < Z.of_nat 2 /\ 0 <= 1 < Z.of_nat 2 /\ 1 <= 1 /\
  (let o := plot_discont_overview Example.env [Example.epi1; Example.lf]
              Example.dots 2 12 "overview" 1 0 1 0%nat in
   let E := n_entries_per_row (Zlen [Example.epi1; Example.lf]) 2 in
   length (drawn (log o)) = S (2 * length [Example.epi1; Example.lf]) /\
   forallb pixels_nonempty (drawn (log o)) = true /\
   res o = inr tt /\
   grids (log o) = [prepare_grid_with_colorbar (2 * 2) (E + 1) Example.dots]
   /\
   titles (log o) =
     ("Center View"%string
      :: map Algorithm.get_display_name [Example.epi1; Example.lf]) /\
   saved (log o) =
     [save_tight_figure ("discont_" ++ Scene.get_name Example.dots)
        "overview" true true (3 # 100) (3 # 100) (Some 100)] /\
   panels_at (log o) 0 =
     [[plt_imshow (Color (Np.window 0 (0 + 1) 1 (1 + 1) Example.view))
         no_args]] /\
   panels_at (log o) (E + 1) = [[]]).
Proof.
  split; [lia|]. split; [exact example_fields_ok|]. split; [reflexivity|].
  split; [lia|]. split; [lia|]. split; [lia|].
  apply (discont_overview_complete_run nat Example.env
           [Example.epi1; Example.lf] Example.dots 2 12 "overview" 1 0 1
           0%nat Example.view 2%nat 2%nat).
  - lia.
  - exact example_fields_ok.
  - reflexivity.
  - lia.
  - lia.
  - lia.
Defined.

Lemma discont_no_figure_iff_zero_rows_witness :
  0 <= 0 < 2 ^ 53 /\ 0 <= 2 < 2 ^ 53 /\
  Zlen [Example.epi1; Example.lf] + 1 < 2 ^ 53 /\
  (let o := plot_discont_overview Example.env [Example.epi1; Example.lf]
              Example.dots 0 12 "overview" 1 0 1 0%nat in
   res o = inl ZeroDivisionError /\ log o = []) /\
  (let o := plot_discont_overview Example.env [Example.epi1; Example.lf]
              Example.dots 2 12 "overview" 1 0 1 0%nat in
   let E := n_entries_per_row (Zlen [Example.epi1; Example.lf]) 2 in
   let width := (inject_Z (E + 1) * (17 # 10))%Q in
   let height := ((145 # 100) * inject_Z (2 * 2) * (15 # 10))%Q in
   1 <= E /\ (0 < width)%Q /\ (0 < height)%Q /\
   created (log o) = [plt_figure width height] /\
   grids (log o) = [prepare_grid_with_colorbar (2 * 2) (E + 1) Example.dots]).
Proof.
  assert (H0 : 0 <= 0 < 2 ^ 53) by (split; [lia | reflexivity]).
  assert (H2 : 0 <= 2 < 2 ^ 53) by (split; [lia | reflexivity]).
  assert (Hn : Zlen [Example.epi1; Example.lf] + 1 < 2 ^ 53)
    by reflexivity.
  split; [exact H0|]. split; [exact H2|]. split; [exact Hn|]. split.
  - exact (discont_no_figure_iff_zero_rows nat Example.env
             [Example.epi1; Example.lf] Example.dots 0 12 "overview" 1 0 1
             0%nat H0 Hn).
  - exact (discont_no_figure_iff_zero_rows nat Example.env
             [Example.epi1; Example.lf] Example.dots 2 12 "overview" 1 0 1
             0%nat H2 Hn).
Defined.
